(** * ServerPool and the request-lifecycle adapter of the load balancer

    A shallow embedding of [serverPool.js] (class [ServerPool], the weighted
    revision with sticky sessions and connection counting) and of the
    handlers of [worker.js] that feed the pool.

    JavaScript objects are shared by reference: [this.servers], the array
    [this.weightedServerList], the healthy sub-arrays built by [filter] and
    the [targetServer] captured by the request closures all point to the same
    backend records, and [server.healthy = ...] or
    [server.activeConnections++] is seen through every one of them.  The
    model keeps that sharing: the backend records live in an object store
    ([heap], a reference is an index into it) and the arrays hold references.

    Numbers are JavaScript numbers restricted to the integers the program
    produces (counters, cursor, weights), modelled in [Z]; the value of
    [Math.random()] is an argument of [getNextServer], a rational.  Sockets
    and console output are not modelled: the asynchronous callbacks of the
    prober and of the proxy appear as operations on the pool that an
    environment may invoke in any order.  The interval timer of the prober
    is modelled on its own ([Lifecycle]), and so is the first revision of
    the class ([Basic]), which the second one extends. *)

From Stdlib Require Import ZArith String List Lia.
From Stdlib Require QArith Qround.
From stdpp Require Import base tactics option numbers list strings pretty.

Local Open Scope string_scope.
Local Open Scope Z_scope.
Local Open Scope list_scope.

(** ** Backend records and the pool *)

(** One entry of [config.servers]: [{ host, port, weight? }]. *)
Record ServerConfig := mkServerConfig {
  cfgHost : string;
  cfgPort : N;
  cfgWeight : option Z
}.

(** A backend record as the constructor builds it. *)
Record Server := mkServer {
  host : string;
  port : N;
  id : string;
  healthy : bool;
  weight : Z;
  currentWeight : Z;
  activeConnections : Z
}.

(** A reference to a backend record: its index in the object store. *)
Definition ref := nat.

(** [healthCheckConfig.expect]: [statusCode] and [bodyIncludes], both optional. *)
Record HealthCheckConfig := mkHealthCheckConfig {
  expectStatusCode : option Z;
  expectBodyIncludes : option string
}.

(** The fields of a [ServerPool] instance that the selection, counting,
    health and reconfiguration paths read or write.  [gcdWeight],
    [maxWeight] and [totalWeight] are written by [calculateWeights] and read
    by no live code (their only reader is commented out); they are left
    out, and so is the timer handle. *)
Record ServerPool := mkPool {
  heap : list Server;
  servers : list ref;
  algorithm : string;
  currentIndex : Z;
  weightedServerList : list ref;
  healthCheckConfig : HealthCheckConfig
}.

(** The template literal [`${s.host}:${s.port}`]. *)
Definition serverId (h : string) (p : N) : string :=
  h +:+ ":" +:+ pretty p.

(** [s.weight ?? 1]. *)
Definition weightOrDefault (w : option Z) : Z := default 1 w.

(** [String.prototype.includes]. *)
Definition includes (pat s : string) : bool :=
  match String.index 0 pat s with
  | Some _ => true
  | None => false
  end.

(** Field updates of a record and of the pool. *)
Definition setHealthy (b : bool) (s : Server) : Server :=
  mkServer (host s) (port s) (id s) b (weight s) (currentWeight s)
           (activeConnections s).

Definition setActive (n : Z) (s : Server) : Server :=
  mkServer (host s) (port s) (id s) (healthy s) (weight s) (currentWeight s) n.

Definition withHeap (h : list Server) (p : ServerPool) : ServerPool :=
  mkPool h (servers p) (algorithm p) (currentIndex p) (weightedServerList p)
         (healthCheckConfig p).

Definition withAlgorithm (a : string) (p : ServerPool) : ServerPool :=
  mkPool (heap p) (servers p) a (currentIndex p) (weightedServerList p)
         (healthCheckConfig p).

Definition withCurrentIndex (i : Z) (p : ServerPool) : ServerPool :=
  mkPool (heap p) (servers p) (algorithm p) i (weightedServerList p)
         (healthCheckConfig p).

Definition withWeightedList (w : list ref) (p : ServerPool) : ServerPool :=
  mkPool (heap p) (servers p) (algorithm p) (currentIndex p) w
         (healthCheckConfig p).

(** Reading a field through a reference.  A reference of the program always
    points to a record; the defaults only make the readers total. *)
Definition objHealthy (h : list Server) (r : ref) : bool :=
  match h !! r with Some s => healthy s | None => false end.

Definition objId (h : list Server) (r : ref) : string :=
  match h !! r with Some s => id s | None => "" end.

Definition objWeight (h : list Server) (r : ref) : Z :=
  match h !! r with Some s => weight s | None => 0 end.

Definition objActive (h : list Server) (r : ref) : Z :=
  match h !! r with Some s => activeConnections s | None => 0 end.

(** [arr[i]] for a number [i]: [undefined] outside the array. *)
Definition jsIndex {A} (l : list A) (i : Z) : option A :=
  if i <? 0 then None else l !! Z.to_nat i.

(** ** Weighted list *)

(** [buildWeightedList]: every server of [this.servers], healthy or not,
    pushed [weight] times ([for (i = 0; i < server.weight; i++)], no
    iteration for a weight of zero or less). *)
Definition expandWeighted (h : list Server) (l : list ref) : list ref :=
  flat_map (λ r, replicate (Z.to_nat (objWeight h r)) r) l.

Definition buildWeightedList (p : ServerPool) : ServerPool :=
  withWeightedList (expandWeighted (heap p) (servers p)) p.

(** [recalculateWeightsIfNeeded]; its call of [calculateWeights] writes only
    the three fields left out of the model. *)
Definition recalculateWeightsIfNeeded (p : ServerPool) : ServerPool :=
  if includes "WEIGHTED" (algorithm p) then buildWeightedList p else p.

(** ** Constructor *)

Definition newServer (c : ServerConfig) : Server :=
  mkServer (cfgHost c) (cfgPort c) (serverId (cfgHost c) (cfgPort c))
           true (weightOrDefault (cfgWeight c)) 0 0.

Definition newServerPool (cfg : list ServerConfig) (alg : string)
    (hc : HealthCheckConfig) : ServerPool :=
  let p := mkPool (newServer <$> cfg) (seq 0 (length cfg)) alg (-1) [] hc in
  if includes "WEIGHTED" alg then buildWeightedList p else p.

(** ** Lookups *)

Definition getHealthyServers (p : ServerPool) : list ref :=
  filter (λ r, objHealthy (heap p) r) (servers p).

(** [this.servers.find(server => server.id === id)]: the first match. *)
Definition getServerById (i : string) (p : ServerPool) : option ref :=
  List.find (λ r, String.eqb (objId (heap p) r) i) (servers p).

(** ** Connection counting *)

Definition incrementConnections (i : string) (p : ServerPool) : ServerPool :=
  match getServerById i p with
  | Some r =>
      match heap p !! r with
      | Some s =>
          withHeap (<[r := setActive (activeConnections s + 1) s]> (heap p)) p
      | None => p
      end
  | None => p
  end.

Definition decrementConnections (i : string) (p : ServerPool) : ServerPool :=
  match getServerById i p with
  | Some r =>
      match heap p !! r with
      | Some s =>
          if 0 <? activeConnections s
          then withHeap (<[r := setActive (activeConnections s - 1) s]> (heap p)) p
          else p
      | None => p
      end
  | None => p
  end.

(** ** Selection: [getNextServer] *)

(** Truthiness of a string: only the empty string is falsy. *)
Definition truthy (s : string) : bool := negb (String.eqb s "").

(** [Math.floor(Math.random() * n)] for the value [rnd] of [Math.random()]. *)
Definition randomIndex (rnd : QArith_base.Q) (n : nat) : Z :=
  Qround.Qfloor (QArith_base.Qmult rnd (QArith_base.inject_Z (Z.of_nat n))).

(** Step 1, the sticky target:
    [healthyServers.find(s => s.id === stickySessionId)] under
    [if (stickySessionId)]. *)
Definition stickyTarget (stickySessionId : option string) (p : ServerPool)
    : option ref :=
  match stickySessionId with
  | Some sid =>
      if truthy sid
      then List.find (λ r, String.eqb (objId (heap p) r) sid)
                     (getHealthyServers p)
      else None
  | None => None
  end.

(** [this.weightedServerList.filter(ws => ws.healthy)]. *)
Definition healthyWeighted (p : ServerPool) : list ref :=
  filter (λ r, objHealthy (heap p) r) (weightedServerList p).

(** The guard of the fallback branch. *)
Definition weightedFallback (p : ServerPool) : bool :=
  includes "WEIGHTED" (algorithm p) && (length (healthyWeighted p) =? 0)%nat.

(** The [switch (this.algorithm)]: the chosen server, if the case chose one,
    and the pool with the cursor it leaves. *)
Definition switchAlgorithm (rnd : QArith_base.Q)
    (healthyServers healthyWeightedList : list ref) (p : ServerPool)
    : option ref * ServerPool :=
  if String.eqb (algorithm p) "RANDOM" then
    (jsIndex healthyServers (randomIndex rnd (length healthyServers)), p)
  else if String.eqb (algorithm p) "WEIGHTED_RANDOM" then
    if (0 <? length healthyWeightedList)%nat
    then (jsIndex healthyWeightedList
            (randomIndex rnd (length healthyWeightedList)), p)
    else (None, p)
  else if String.eqb (algorithm p) "WEIGHTED_ROUND_ROBIN" then
    if (0 <? length healthyWeightedList)%nat
    then
      let i := Z.rem (currentIndex p + 1) (Z.of_nat (length healthyWeightedList)) in
      (jsIndex healthyWeightedList i, withCurrentIndex i p)
    else (None, p)
  else
    let i := Z.rem (currentIndex p + 1) (Z.of_nat (length healthyServers)) in
    (jsIndex healthyServers i, withCurrentIndex i p).

(** Step 2, after the sticky step found no target. *)
Definition applyAlgorithm (rnd : QArith_base.Q) (healthyServers : list ref)
    (p : ServerPool) : option ref * ServerPool :=
  let healthyWeightedList := healthyWeighted p in
  if weightedFallback p && (length (getHealthyServers p) =? 0)%nat
  then (None, p)
  else
    let healthyServers :=
      if weightedFallback p then getHealthyServers p else healthyServers in
    let p1 := if weightedFallback p then withAlgorithm "ROUND_ROBIN" p else p in
    let '(chosen, p2) :=
      switchAlgorithm rnd healthyServers healthyWeightedList p1 in
    let chosenServer :=
      match chosen with
      | Some r => Some r
      | None =>
          if (0 <? length healthyServers)%nat then head healthyServers else None
      end in
    match chosenServer with
    | Some r => (Some r, incrementConnections (objId (heap p2) r) p2)
    | None => (None, p2)
    end.

Definition getNextServer (stickySessionId : option string)
    (rnd : QArith_base.Q) (p : ServerPool) : option ref * ServerPool :=
  let healthyServers := getHealthyServers p in
  if (length healthyServers =? 0)%nat then (None, p)
  else
    match stickyTarget stickySessionId p with
    | Some r => (Some r, incrementConnections (objId (heap p) r) p)
    | None => applyAlgorithm rnd healthyServers p
    end.

(** ** Health transitions *)

(** [markServerUnhealthy(server, reason)]: the flag is cleared; the weighted
    list is left as it is (the rebuild is commented out in the source). *)
Definition markServerUnhealthy (r : ref) (p : ServerPool) : ServerPool :=
  match heap p !! r with
  | Some s => withHeap (<[r := setHealthy false s]> (heap p)) p
  | None => p
  end.

(** The [end] callback of a probe of [checkSingleServer]: the response came
    with [statusCode] and [body]. *)
Definition probeEnd (r : ref) (statusCode : Z) (body : string)
    (p : ServerPool) : ServerPool :=
  match heap p !! r with
  | Some s =>
      let wasHealthy := healthy s in
      let expectedStatus :=
        default 200 (expectStatusCode (healthCheckConfig p)) in
      let isStatusOk := statusCode =? expectedStatus in
      let isBodyOk :=
        match expectBodyIncludes (healthCheckConfig p) with
        | Some sub => negb (truthy sub) || includes sub body
        | None => true
        end in
      let nowHealthy := isStatusOk && isBodyOk in
      let p1 := withHeap (<[r := setHealthy nowHealthy s]> (heap p)) p in
      if negb (Bool.eqb wasHealthy nowHealthy) && nowHealthy
      then recalculateWeightsIfNeeded p1
      else p1
  | None => p
  end.

(** The [error] and [timeout] callbacks of a probe. *)
Definition probeFail (r : ref) (p : ServerPool) : ServerPool :=
  markServerUnhealthy r p.

(** The end of a sweep of [checkHealth]. *)
Definition sweepDone (p : ServerPool) : ServerPool :=
  recalculateWeightsIfNeeded p.

(** ** Reconfiguration: [updateServers] *)

(** [existingServers.get(id)] for the [Map] built from
    [this.servers.map(s => [s.id, s])]: of two entries with one key the later
    one stays. *)
Definition existingServer (i : string) (p : ServerPool) : option Server :=
  match List.find (λ r, String.eqb (objId (heap p) r) i) (reverse (servers p)) with
  | Some r => heap p !! r
  | None => None
  end.

Definition updatedServer (p : ServerPool) (c : ServerConfig) : Server :=
  let i := serverId (cfgHost c) (cfgPort c) in
  match existingServer i p with
  | Some e =>
      mkServer (cfgHost c) (cfgPort c) i (healthy e)
               (weightOrDefault (cfgWeight c)) (currentWeight e)
               (activeConnections e)
  | None =>
      mkServer (cfgHost c) (cfgPort c) i true
               (weightOrDefault (cfgWeight c)) 0 0
  end.

Definition updateServers (cfg : list ServerConfig) (p : ServerPool)
    : ServerPool :=
  recalculateWeightsIfNeeded
    (mkPool (heap p ++ (updatedServer p <$> cfg))
            (seq (length (heap p)) (length cfg))
            (algorithm p) (-1) (weightedServerList p)
            (healthCheckConfig p)).

(** ** The request-lifecycle handlers of [worker.js] *)

(** What [requestHandler] does with a request once the cookie header is
    parsed: a 503, or a proxied request to [target] with the cookie to set,
    if any. *)
Inductive Routed :=
  | Unavailable
  | Proxied (target : ref) (setCookie : option string).

Definition requestHandler (stickyEnabled : bool) (cookie : option string)
    (rnd : QArith_base.Q) (p : ServerPool) : Routed * ServerPool :=
  let stickySessionId := if stickyEnabled then cookie else None in
  match getNextServer stickySessionId rnd p with
  | (None, p') => (Unavailable, p')
  | (Some r, p') =>
      let i := objId (heap p') r in
      let differs :=
        match stickySessionId with
        | Some sid => negb (String.eqb sid i)
        | None => true
        end in
      (Proxied r (if stickyEnabled && differs then Some i else None), p')
  end.

(** The fields of the [target] argument that the proxy's [error] handler
    reads. *)
Record ProxyTarget := mkProxyTarget {
  targetHost : string;
  targetPort : string
}.

(** The callbacks a proxied request registers, and the proxy-wide [error]
    handler; [target] is the [targetServer] the closures captured. *)
Inductive Callback :=
  | ResFinish                          (* res.on('finish') *)
  | ReqClose (writableEnded : bool)    (* req.on('close') *)
  | ProxyWebCallback                   (* the callback given to proxy.web *)
  | ProxyError (t : option ProxyTarget). (* proxy.on('error') *)

Definition runCallback (target : ref) (c : Callback) (p : ServerPool)
    : ServerPool :=
  match c with
  | ResFinish => decrementConnections (objId (heap p) target) p
  | ReqClose writableEnded =>
      if negb writableEnded
      then decrementConnections (objId (heap p) target) p
      else p
  | ProxyWebCallback => decrementConnections (objId (heap p) target) p
  | ProxyError t =>
      match t with
      | Some t =>
          if truthy (targetHost t) && truthy (targetPort t) then
            let serverId := targetHost t +:+ ":" +:+ targetPort t in
            match getServerById serverId p with
            | Some r =>
                decrementConnections serverId (markServerUnhealthy r p)
            | None => p
            end
          else p
      | None => p
      end
  end.

Definition runCallbacks (target : ref) (cs : list Callback) (p : ServerPool)
    : ServerPool :=
  fold_left (λ q c, runCallback target c q) cs p.

(** ** Runs *)

(** [n] successive calls of [getNextServer] without a sticky id, the value
    of [Math.random()] of the [k]-th call being [rnd k]. *)
Fixpoint picks (rnd : nat → QArith_base.Q) (n : nat) (p : ServerPool)
    : list (option ref) * ServerPool :=
  match n with
  | O => ([], p)
  | S n' =>
      let '(r, p1) := getNextServer None (rnd O) p in
      let '(rs, p2) := picks (λ k, rnd (S k)) n' p1 in
      (r :: rs, p2)
  end.

(** The calls and callbacks that reach a pool, in the order the event loop
    runs them.  [MarkUnhealthy] is the call of [markServerUnhealthy], from the
    proxy's error handler or from the [error] and [timeout] callbacks of a
    probe. *)
Inductive PoolOp :=
  | Pick (stickySessionId : option string) (rnd : QArith_base.Q)
  | Release (i : string)
  | MarkUnhealthy (r : ref)
  | ProbeEnd (r : ref) (statusCode : Z) (body : string)
  | SweepDone
  | UpdateServers (cfg : list ServerConfig).

Definition step (o : PoolOp) (p : ServerPool) : option ref * ServerPool :=
  match o with
  | Pick sid rnd => getNextServer sid rnd p
  | Release i => (None, decrementConnections i p)
  | MarkUnhealthy r => (None, markServerUnhealthy r p)
  | ProbeEnd r statusCode body => (None, probeEnd r statusCode body p)
  | SweepDone => (None, sweepDone p)
  | UpdateServers cfg => (None, updateServers cfg p)
  end.

(** The servers returned along a run, and the pool it ends in. *)
Fixpoint run (os : list PoolOp) (p : ServerPool) : list ref * ServerPool :=
  match os with
  | [] => ([], p)
  | o :: os' =>
      let '(r, p1) := step o p in
      let '(rs, p2) := run os' p1 in
      (match r with Some x => x :: rs | None => rs end, p2)
  end.

(** [release] called for each id of a list in turn. *)
Definition releaseAll (ids : list string) (p : ServerPool) : ServerPool :=
  fold_left (λ q i, decrementConnections i q) ids p.

(** The sum of the weights as [calculateWeights] computes it:
    [healthyServers.reduce((sum, server) => sum + server.weight, 0)]. *)
Definition totalWeight (p : ServerPool) : Z :=
  fold_left (λ sum r, sum + objWeight (heap p) r) (getHealthyServers p) 0.

(** How many of the calls of a run returned [b]. *)
Definition timesChosen (b : ref) (rs : list (option ref)) : nat :=
  length (filter (λ x, x = Some b) rs).

(** ** Well-formed pools *)

(** The ids of the configured backends are pairwise distinct. *)
Definition uniqueIds (p : ServerPool) : Prop :=
  NoDup (objId (heap p) <$> servers p).

(** Under a weighted policy the weighted list is the expansion of the
    current servers. *)
Definition weightedInSync (p : ServerPool) : Prop :=
  includes "WEIGHTED" (algorithm p) = true →
  weightedServerList p = expandWeighted (heap p) (servers p).

(** The id of every backend is the one computed from its host and port. *)
Definition idOk (h : list Server) (r : ref) : bool :=
  match h !! r with
  | Some s => String.eqb (id s) (serverId (host s) (port s))
  | None => false
  end.

Definition idsComputed (p : ServerPool) : Prop :=
  Forall (λ r, idOk (heap p) r = true) (servers p).

Definition poolInv (p : ServerPool) : Prop :=
  uniqueIds p ∧ weightedInSync p ∧ idsComputed p.

Global Instance poolInv_dec p : Decision (poolInv p).
Proof. unfold poolInv, uniqueIds, weightedInSync, idsComputed. apply _. Defined.

Definition configId (c : ServerConfig) : string :=
  serverId (cfgHost c) (cfgPort c).

Definition uniqueConfigIds (cfg : list ServerConfig) : Prop :=
  NoDup (configId <$> cfg).

(** Every reconfiguration of a run carries distinct ids. *)
Definition uniqueUpdates (os : list PoolOp) : Prop :=
  Forall (λ o, ∀ cfg, o = UpdateServers cfg → uniqueConfigIds cfg) os.


(** No counter of the store is negative. *)
Definition nonNegCounters (p : ServerPool) : Prop :=
  Forall (λ s, 0 ≤ activeConnections s) (heap p).

(** ** What an operation leaves alone *)

(** [p'] has the servers of [p] with their identity and weights: what the
    selection, counting and health paths leave alone. *)
Definition sameConfig (p p' : ServerPool) : Prop :=
  servers p' = servers p ∧
  weightedServerList p' = weightedServerList p ∧
  healthCheckConfig p' = healthCheckConfig p ∧
  length (heap p') = length (heap p) ∧
  (includes "WEIGHTED" (algorithm p') = true → algorithm p' = algorithm p) ∧
  ∀ r, objId (heap p') r = objId (heap p) r ∧
       objWeight (heap p') r = objWeight (heap p) r ∧
       idOk (heap p') r = idOk (heap p) r.

(** A change of one counter and of nothing else. *)
Definition counterStep (p p' : ServerPool) : Prop :=
  p' = p ∨
  ∃ r s n, heap p !! r = Some s ∧
           p' = withHeap (<[r := setActive n s]> (heap p)) p.

(** A change of one health flag and of nothing else. *)
Definition healthStep (p p' : ServerPool) : Prop :=
  p' = p ∨
  ∃ r s b, heap p !! r = Some s ∧
           p' = withHeap (<[r := setHealthy b s]> (heap p)) p.

(** What a call of [getNextServer] may change besides a counter: the cursor,
    and the algorithm when the fallback branch is taken. *)
Definition pickFrame (p q : ServerPool) : Prop :=
  ∃ a c, q = withCurrentIndex c (withAlgorithm a p) ∧
         (a = algorithm p ∨ (a = "ROUND_ROBIN" ∧ weightedFallback p = true)).

(** The pool after a call that returned [res]: the counter of the returned
    server, found by its id, is incremented. *)
Definition afterPick (res : option ref) (q : ServerPool) : ServerPool :=
  match res with
  | Some r => incrementConnections (objId (heap q) r) q
  | None => q
  end.

(** The records of [p] are still in [p'], with the ids they had. *)
Definition idStable (p p' : ServerPool) : Prop :=
  ∀ r, is_Some (heap p !! r) →
       is_Some (heap p' !! r) ∧ objId (heap p') r = objId (heap p) r.

(** ** Backends kept down *)

(** Every backend with id [i] is unhealthy. *)
Definition down (i : string) (p : ServerPool) : Prop :=
  Forall (λ r, objId (heap p) r = i → objHealthy (heap p) r = false)
         (servers p).

(** The health a probe response gives a backend. *)
Definition probeVerdict (hc : HealthCheckConfig) (statusCode : Z)
    (body : string) : bool :=
  (statusCode =? default 200 (expectStatusCode hc)) &&
  match expectBodyIncludes hc with
  | Some sub => negb (truthy sub) || includes sub body
  | None => true
  end.

(** An operation that cannot bring the backend [i] back: not a probe of [i]
    that finds it healthy, and not a reconfiguration that adds [i] as a new
    backend. *)
Definition keepsDown (i : string) (p : ServerPool) (o : PoolOp) : Prop :=
  match o with
  | ProbeEnd r statusCode body =>
      objId (heap p) r = i →
      probeVerdict (healthCheckConfig p) statusCode body = false
  | UpdateServers cfg =>
      i ∈ configId <$> cfg → is_Some (getServerById i p)
  | _ => True
  end.

Fixpoint staysDown (i : string) (os : list PoolOp) (p : ServerPool) : Prop :=
  match os with
  | [] => True
  | o :: os' => keepsDown i p o ∧ staysDown i os' (step o p).2
  end.

(** ** The walk of the weighted round robin *)

(** The entries that a cursor at [s] visits in [n] steps around [l]. *)
Definition cycleFrom {A} (l : list A) (s n : nat) : list (option A) :=
  (λ j, l !! (j `mod` length l)%nat) <$> seq s n.

(** A pool that the weighted round robin walks around [l]. *)
Definition wrrState (l : list ref) (q : ServerPool) : Prop :=
  algorithm q = "WEIGHTED_ROUND_ROBIN" ∧ healthyWeighted q = l ∧
  getHealthyServers q ≠ [] ∧ -1 ≤ currentIndex q.

(** ** Scenarios of the configuration shipped with the source *)

Definition noProbeExpectation : HealthCheckConfig :=
  mkHealthCheckConfig (Some 200) None.

Definition zeroRnd : QArith_base.Q := QArith_base.Qmake 0 1.

Definition abcConfig : list ServerConfig :=
  [ mkServerConfig "A" 3001 (Some 1); mkServerConfig "B" 3002 (Some 1);
    mkServerConfig "C" 3003 (Some 1) ].

Definition abcPool : ServerPool :=
  newServerPool abcConfig "ROUND_ROBIN" noProbeExpectation.

(** The pool of three backends with [B] marked unhealthy. *)
Definition abcPoolBDown : ServerPool := markServerUnhealthy 1%nat abcPool.

Definition weightedConfig : list ServerConfig :=
  [ mkServerConfig "A" 3001 (Some 5); mkServerConfig "B" 3002 (Some 3);
    mkServerConfig "C" 3003 (Some 1); mkServerConfig "D" 3004 (Some 1) ].

(** The pool of the shipped configuration, freshly built. *)
Definition weightedPool : ServerPool :=
  newServerPool weightedConfig "WEIGHTED_ROUND_ROBIN" noProbeExpectation.

(** A reconfiguration that keeps [B], drops [A] and [C] and adds [D]. *)
Definition bdConfig : list ServerConfig :=
  [ mkServerConfig "B" 3002 (Some 2); mkServerConfig "D" 3004 None ].

(** A configuration that drains [A] with a weight of zero. *)
Definition drainConfig : list ServerConfig :=
  [ mkServerConfig "A" 3001 (Some 0); mkServerConfig "B" 3002 (Some 1) ].

Definition drainPool : ServerPool :=
  newServerPool drainConfig "WEIGHTED_ROUND_ROBIN" noProbeExpectation.

(** The [target] the proxy reports for backend [B] of [abcConfig]. *)
Definition targetB : ProxyTarget := mkProxyTarget "B" "3002".

(** Two requests in flight on [B]: both came with the sticky cookie of [B]. *)
Definition twoInFlightOnB : ServerPool :=
  (requestHandler true (Some "B:3002") zeroRnd
     (requestHandler true (Some "B:3002") zeroRnd abcPool).2).2.

(** A run after [B] of [abcPool] was marked unhealthy: picks with and without
    the cookie of [B], a release, a probe of [B] answered with status 500, a
    probe of [A] answered with 200, the end of the sweep, a reconfiguration
    that keeps [B], and more picks. *)
Definition runWithBDown : list PoolOp :=
  [ Pick None zeroRnd; Pick (Some "B:3002") zeroRnd; Release "A:3001";
    ProbeEnd 1%nat 500 "down"; ProbeEnd 0%nat 200 "OK"; SweepDone;
    Pick None zeroRnd; UpdateServers bdConfig;
    Pick (Some "B:3002") zeroRnd; Pick None zeroRnd ].

(** ** Precomputed weights: [_gcd] and [calculateWeights] *)

(** [_gcd(a, b)]: [b === 0 ? a : this._gcd(b, a % b)].  The recursion of the
    source ends because the absolute value of the second argument decreases;
    here it is cut by a counter that starts above that value and is never
    exhausted ([_gcd_unfold] is the equation of the source). *)
Fixpoint gcdSteps (n : nat) (a b : Z) : Z :=
  if b =? 0 then a
  else match n with
       | O => a
       | S n' => gcdSteps n' b (Z.rem a b)
       end.

Definition _gcd (a b : Z) : Z := gcdSteps (S (Z.abs_nat b)) a b.

(** [Math.max(...xs)]; [None] stands for the [-Infinity] of no argument. *)
Definition mathMax (xs : list Z) : option Z :=
  match xs with
  | [] => None
  | x :: xs' => Some (fold_left Z.max xs' x)
  end.

Module Precomputed.
(** The fields [gcdWeight], [maxWeight] and [totalWeight] of a pool. *)
Record t := mk {
  gcdWeight : Z;
  maxWeight : Z;
  totalWeight : Z
}.

(** Their values after the constructor's initialisation. *)
Definition initial : t := mk 0 0 0.
End Precomputed.

(** [calculateWeights], on the three fields it writes. *)
Definition calculateWeights (p : ServerPool) (w : Precomputed.t)
    : Precomputed.t :=
  let healthyServers := getHealthyServers p in
  match healthyServers with
  | [] => w
  | first :: _ =>
      Precomputed.mk
        (fold_left (λ acc r, _gcd acc (objWeight (heap p) r)) healthyServers
                   (objWeight (heap p) first))
        (default 0 (mathMax (objWeight (heap p) <$> healthyServers)))
        (fold_left (λ sum r, sum + objWeight (heap p) r) healthyServers 0)
  end.

(** ** [getMetrics] *)

Module Metrics.
(** One entry of [servers] in the object [getMetrics] returns. *)
Record ServerDetails := mkDetails {
  id : string;
  healthy : bool;
  weight : Z;
  activeConnections : Z
}.

Record t := mk {
  totalServers : Z;
  healthyServers : Z;
  unhealthyServers : Z;
  loadBalancingAlgorithm : string;
  servers : list ServerDetails
}.
End Metrics.

Definition getMetrics (p : ServerPool) : Metrics.t :=
  let healthyCount := Z.of_nat (length (getHealthyServers p)) in
  let unhealthyCount := Z.of_nat (length (servers p)) - healthyCount in
  let serverDetails :=
    (λ r, Metrics.mkDetails (objId (heap p) r) (objHealthy (heap p) r)
            (objWeight (heap p) r) (objActive (heap p) r)) <$> servers p in
  Metrics.mk (Z.of_nat (length (servers p))) healthyCount unhealthyCount
             (algorithm p) serverDetails.

(** ** A sweep of [checkHealth] *)

(** How one probe of [checkSingleServer] ends: with a response, or with an
    [error] or [timeout] event. *)
Inductive ProbeOutcome :=
  | ProbeResponse (statusCode : Z) (body : string)
  | ProbeFailed.

Global Instance ProbeOutcome_eq_dec : EqDecision ProbeOutcome.
Proof. solve_decision. Defined.

Definition probeDone (r : ref) (o : ProbeOutcome) (p : ServerPool)
    : ServerPool :=
  match o with
  | ProbeResponse statusCode body => probeEnd r statusCode body p
  | ProbeFailed => probeFail r p
  end.

(** [checkHealth]: one probe per server, their callbacks run in the order of
    [arrivals]; [recalculateWeightsIfNeeded] after the last one. *)
Definition checkHealth (arrivals : list (ref * ProbeOutcome))
    (p : ServerPool) : ServerPool :=
  sweepDone (fold_left (λ q a, probeDone a.1 a.2 q) arrivals p).

(** The health that an outcome gives. *)
Definition outcomeVerdict (hc : HealthCheckConfig) (o : ProbeOutcome) : bool :=
  match o with
  | ProbeResponse statusCode body => probeVerdict hc statusCode body
  | ProbeFailed => false
  end.

(** [q] differs from [p] at most in health flags and in the weighted list. *)
Definition healthOnly (p q : ServerPool) : Prop :=
  servers q = servers p ∧ algorithm q = algorithm p ∧
  currentIndex q = currentIndex p ∧
  healthCheckConfig q = healthCheckConfig p ∧
  ∀ r : ref,
    setHealthy true <$> heap q !! r = setHealthy true <$> heap p !! r.

(** ** Requests in flight *)

(** What happens to a pool while requests are served: a request arrives and
    is routed by [getNextServer]; the request routed to [r] ends, by
    whichever outcome, with one call of [decrementConnections] on the id of
    its target; a probe ends; a sweep ends. *)
Inductive Event :=
  | Arrives (stickySessionId : option string) (rnd : QArith_base.Q)
  | Completes (r : ref)
  | Probed (r : ref) (o : ProbeOutcome)
  | SweepEnds.

(** [l] without the first occurrence of [r], if there is one. *)
Fixpoint removeFirst (r : ref) (l : list ref) : option (list ref) :=
  match l with
  | [] => None
  | x :: l' =>
      if decide (x = r) then Some l' else (λ k, x :: k) <$> removeFirst r l'
  end.

(** The targets of the requests in flight and the pool after the events;
    nothing when a request ends that is not in flight. *)
Fixpoint serve (es : list Event) (inFlight : list ref) (p : ServerPool)
    : option (list ref * ServerPool) :=
  match es with
  | [] => Some (inFlight, p)
  | Arrives sid rnd :: es' =>
      let '(res, p1) := getNextServer sid rnd p in
      serve es' (match res with Some r => r :: inFlight | None => inFlight end)
            p1
  | Completes r :: es' =>
      match removeFirst r inFlight with
      | Some rest =>
          serve es' rest (decrementConnections (objId (heap p) r) p)
      | None => None
      end
  | Probed r o :: es' => serve es' inFlight (probeDone r o p)
  | SweepEnds :: es' => serve es' inFlight (sweepDone p)
  end.

(** How many requests in flight have [r] as target. *)
Definition inFlightOn (r : ref) (inFlight : list ref) : Z :=
  Z.of_nat (length (filter (λ x, x = r) inFlight)).

(** Three requests, a failed probe of [B] and two completions on the pool of
    three backends. *)
Definition busyMorning : list Event :=
  [ Arrives None zeroRnd; Arrives (Some "B:3002") zeroRnd;
    Probed 1%nat ProbeFailed; Arrives (Some "B:3002") zeroRnd;
    Completes 1%nat; SweepEnds; Completes 0%nat ].

(** ** Values of [Math.random()] *)

(** [Math.random()] returns a number at least 0 and less than 1. *)
Definition isRandomValue (rnd : QArith_base.Q) : Prop :=
  QArith_base.Qle (QArith_base.inject_Z 0) rnd ∧
  QArith_base.Qlt rnd (QArith_base.inject_Z 1).


(** ** More scenarios *)


(** A reconfiguration that keeps [A] and [B] and drops [C]. *)
Definition abConfig : list ServerConfig :=
  [ mkServerConfig "A" 3001 (Some 1); mkServerConfig "B" 3002 (Some 4) ].

(** ** The health-check timer: [startHealthChecks], [stopHealthChecks] *)

Module Lifecycle.

(** The state the timer functions touch: the field [healthCheckIntervalId]
    ([None] for [null]), [healthCheckConfig.enabled], and the intervals that
    are live on the platform, the last one set first.  [nextHandle] is the
    handle the next [setInterval] returns; a handle is an object of its own,
    so it is truthy.  The sweep that [startHealthChecks] launches is
    [checkHealth] above. *)
Record t := mk {
  enabled : bool;
  healthCheckIntervalId : option nat;
  intervals : list nat;
  nextHandle : nat
}.

Definition setInterval (s : t) : nat * t :=
  (nextHandle s,
   mk (enabled s) (healthCheckIntervalId s) (nextHandle s :: intervals s)
      (S (nextHandle s))).

Definition clearInterval (h : nat) (s : t) : t :=
  mk (enabled s) (healthCheckIntervalId s)
     (filter (λ x, x ≠ h) (intervals s)) (nextHandle s).

Definition startHealthChecks (s : t) : t :=
  let s1 :=
    match healthCheckIntervalId s with
    | Some h => clearInterval h s
    | None => s
    end in
  let '(h, s2) := setInterval s1 in
  mk (enabled s2) (Some h) (intervals s2) (nextHandle s2).

Definition stopHealthChecks (s : t) : t :=
  match healthCheckIntervalId s with
  | Some h =>
      let s1 := clearInterval h s in
      mk (enabled s1) None (intervals s1) (nextHandle s1)
  | None => s
  end.

(** The constructor, on a platform where the intervals [others] are live. *)
Definition constructor (enabled : bool) (others : list nat) (next : nat) : t :=
  let s := mk enabled None others next in
  if enabled then startHealthChecks s else s.

(** The first and the last statements of [updateServers]. *)
Definition updateServers (s : t) : t :=
  let s1 := stopHealthChecks s in
  if enabled s1 then startHealthChecks s1 else s1.

Inductive Call := Start | Stop | Update.

Definition call (s : t) (c : Call) : t :=
  match c with
  | Start => startHealthChecks s
  | Stop => stopHealthChecks s
  | Update => updateServers s
  end.

Definition calls (cs : list Call) (s : t) : t := fold_left call cs s.

(** The pool holds the handle of at most one live interval, a handle that is
    not among the intervals of others, and those are all live. *)
Definition wellFormed (others : list nat) (s : t) : Prop :=
  Forall (λ h, h < nextHandle s)%nat others ∧
  match healthCheckIntervalId s with
  | Some h =>
      (h < nextHandle s)%nat ∧ (h ∉ others) ∧ intervals s = (h :: others)
  | None => intervals s = others
  end.

End Lifecycle.

(** ** The first revision of the pool *)

Module Basic.

(** A server object of the first revision: the configured fields and the
    [healthy] flag. *)
Record ServerPool := mk {
  heap : list (ServerConfig * bool);
  servers : list ref;
  algorithm : string;
  currentIndex : Z
}.

Definition objHealthy (h : list (ServerConfig * bool)) (r : ref) : bool :=
  match h !! r with Some s => s.2 | None => false end.

Definition getHealthyServers (b : ServerPool) : list ref :=
  filter (λ r, objHealthy (heap b) r) (servers b).

Definition getNextServer (rnd : QArith_base.Q) (b : ServerPool)
    : option ref * ServerPool :=
  let healthyServers := getHealthyServers b in
  if (length healthyServers =? 0)%nat then (None, b)
  else if String.eqb (algorithm b) "RANDOM" then
    (jsIndex healthyServers (randomIndex rnd (length healthyServers)), b)
  else
    let i := Z.rem (currentIndex b + 1) (Z.of_nat (length healthyServers)) in
    (jsIndex healthyServers i, mk (heap b) (servers b) (algorithm b) i).

End Basic.

(** What the first revision keeps of a pool of the second. *)
Definition basicView (p : ServerPool) : Basic.ServerPool :=
  Basic.mk
    ((λ s, (mkServerConfig (host s) (port s) (Some (weight s)), healthy s))
       <$> heap p)
    (servers p) (algorithm p) (currentIndex p).

(** ** Scenarios of the timer and of a run *)

Definition restarts : list Lifecycle.Call :=
  [Lifecycle.Start; Lifecycle.Update; Lifecycle.Start; Lifecycle.Update].

Definition dayOfCalls : list PoolOp :=
  [ Pick None zeroRnd; MarkUnhealthy 1%nat; Pick (Some "B:3002") zeroRnd;
    UpdateServers abConfig; Release "A:3001"; ProbeEnd 3%nat 500 "";
    SweepDone; Pick None zeroRnd ].

(** * Properties *)

(** A decidable statement about a concrete pool, settled by evaluation. *)
Ltac decide_by_computation :=
  apply (bool_decide_unpack _); vm_compute; exact I.

(** ** The object store *)

Section store.
Implicit Types (h : list Server) (r : ref) (s : Server).

Lemma objHealthy_lookup h r :
  objHealthy h r = true → ∃ s, h !! r = Some s ∧ healthy s = true.
Proof. unfold objHealthy. destruct (h !! r); naive_solver. Qed.

Lemma lookup_insert_cases h r r' s s' :
  h !! r = Some s →
  (r' = r ∧ <[r := s']> h !! r' = Some s') ∨
  (r' ≠ r ∧ <[r := s']> h !! r' = h !! r').
Proof.
  intros Hr. destruct (decide (r' = r)) as [->|Hne].
  - left. split; [done|]. apply list_lookup_insert_eq.
    by eapply lookup_lt_Some.
  - right. split; [done|]. by apply list_lookup_insert_ne.
Qed.

(** Replacing a record by one with the same value of a field does not change
    what a reader of that field sees. *)
Lemma read_insert_same {B} (g : Server → B) (d : B) h r s s' r' :
  h !! r = Some s → g s' = g s →
  match <[r := s']> h !! r' with Some x => g x | None => d end =
  match h !! r' with Some x => g x | None => d end.
Proof.
  intros Hr Hg.
  destruct (lookup_insert_cases h r r' s s' Hr) as [[-> ->]|[_ ->]];
    [by rewrite Hr|done].
Qed.

Lemma objId_setActive h r s n r' :
  h !! r = Some s → objId (<[r := setActive n s]> h) r' = objId h r'.
Proof. intros Hr. by eapply (read_insert_same id ""); [exact Hr|]. Qed.

Lemma objHealthy_setActive h r s n r' :
  h !! r = Some s → objHealthy (<[r := setActive n s]> h) r' = objHealthy h r'.
Proof. intros Hr. by eapply (read_insert_same healthy false); [exact Hr|]. Qed.

Lemma objWeight_setActive h r s n r' :
  h !! r = Some s → objWeight (<[r := setActive n s]> h) r' = objWeight h r'.
Proof. intros Hr. by eapply (read_insert_same weight 0); [exact Hr|]. Qed.

Lemma objActive_setActive h r s n r' :
  h !! r = Some s →
  objActive (<[r := setActive n s]> h) r' =
  if decide (r' = r) then n else objActive h r'.
Proof.
  intros Hr. unfold objActive.
  destruct (lookup_insert_cases h r r' s (setActive n s) Hr)
    as [[-> ->]|[? ->]]; case_decide; naive_solver.
Qed.

Lemma objId_setHealthy h r s b r' :
  h !! r = Some s → objId (<[r := setHealthy b s]> h) r' = objId h r'.
Proof. intros Hr. by eapply (read_insert_same id ""); [exact Hr|]. Qed.

Lemma objWeight_setHealthy h r s b r' :
  h !! r = Some s → objWeight (<[r := setHealthy b s]> h) r' = objWeight h r'.
Proof. intros Hr. by eapply (read_insert_same weight 0); [exact Hr|]. Qed.

Lemma objHealthy_setHealthy h r s b r' :
  h !! r = Some s →
  objHealthy (<[r := setHealthy b s]> h) r' =
  if decide (r' = r) then b else objHealthy h r'.
Proof.
  intros Hr. unfold objHealthy.
  destruct (lookup_insert_cases h r r' s (setHealthy b s) Hr)
    as [[-> ->]|[? ->]]; case_decide; naive_solver.
Qed.

Lemma idOk_setActive h r s n r' :
  h !! r = Some s → idOk (<[r := setActive n s]> h) r' = idOk h r'.
Proof.
  intros Hr.
  by eapply (read_insert_same
    (λ x, String.eqb (id x) (serverId (host x) (port x))) false); [exact Hr|].
Qed.

Lemma idOk_setHealthy h r s b r' :
  h !! r = Some s → idOk (<[r := setHealthy b s]> h) r' = idOk h r'.
Proof.
  intros Hr.
  by eapply (read_insert_same
    (λ x, String.eqb (id x) (serverId (host x) (port x))) false); [exact Hr|].
Qed.

Lemma serverId_truthy hst prt : truthy (serverId hst prt) = true.
Proof. unfold serverId. by destruct hst. Qed.

Lemma idOk_truthy h r : idOk h r = true → truthy (objId h r) = true.
Proof.
  unfold idOk, objId. destruct (h !! r) as [s|]; [|done].
  intros E%String.eqb_eq. rewrite E. apply serverId_truthy.
Qed.

Lemma idOk_lookup h r : idOk h r = true → is_Some (h !! r).
Proof. unfold idOk. destruct (h !! r); [eauto|done]. Qed.

(** Functions of the store that read only some fields. *)
Lemma find_id_ext h h' i (l : list ref) :
  (∀ r, objId h' r = objId h r) →
  List.find (λ r, String.eqb (objId h' r) i) l =
  List.find (λ r, String.eqb (objId h r) i) l.
Proof.
  intros E. induction l as [|r l IH]; simpl; [done|].
  by rewrite E, IH.
Qed.

Lemma filter_healthy_ext h h' (l : list ref) :
  (∀ r, objHealthy h' r = objHealthy h r) →
  filter (λ r, objHealthy h' r) l = filter (λ r, objHealthy h r) l.
Proof. intros E. apply list_filter_iff. intros r. by rewrite E. Qed.

Lemma expandWeighted_ext h h' (l : list ref) :
  (∀ r, objWeight h' r = objWeight h r) →
  expandWeighted h' l = expandWeighted h l.
Proof.
  intros E. unfold expandWeighted.
  induction l as [|r l IH]; simpl; [done|]. by rewrite E, IH.
Qed.

(** With distinct keys, [find] by the key of a member returns the member. *)
Lemma find_by_key (f : ref → string) (l : list ref) r :
  NoDup (f <$> l) → r ∈ l →
  List.find (λ r', String.eqb (f r') (f r)) l = Some r.
Proof.
  induction l as [|x l IH]; intros Hnd Hin; [by apply elem_of_nil in Hin|].
  rewrite fmap_cons in Hnd. apply NoDup_cons in Hnd as [Hx Hnd].
  simpl. destruct (String.eqb_spec (f x) (f r)) as [E|E].
  - apply elem_of_cons in Hin as [->|Hin]; [done|].
    exfalso. apply Hx. rewrite E. apply list_elem_of_fmap. eauto.
  - apply elem_of_cons in Hin as [->|Hin]; [done|]. by apply IH.
Qed.

Lemma find_elem_of {A} (f : A → bool) (l : list A) x :
  List.find f l = Some x → x ∈ l ∧ f x = true.
Proof.
  intros H. apply find_some in H as [H1 H2]. split; [|done].
  by apply list_elem_of_In.
Qed.

Lemma find_none_iff {A} (f : A → bool) (l : list A) :
  List.find f l = None ↔ ∀ x, x ∈ l → f x = false.
Proof.
  split.
  - intros H x Hx. eapply find_none; [done|]. by apply list_elem_of_In.
  - intros H. induction l as [|a l IH]; simpl; [done|].
    rewrite (H a) by apply list_elem_of_here.
    apply IH. intros x Hx. apply H. by apply list_elem_of_further.
Qed.

Lemma jsIndex_elem_of {A} (l : list A) i x : jsIndex l i = Some x → x ∈ l.
Proof.
  unfold jsIndex. destruct (i <? 0); [done|].
  intros H. apply list_elem_of_lookup. eauto.
Qed.

Lemma elem_of_expandWeighted h (l : list ref) r :
  r ∈ expandWeighted h l → r ∈ l.
Proof.
  unfold expandWeighted. rewrite !list_elem_of_In, in_flat_map.
  intros (x & Hx & Hr). apply list_elem_of_In in Hr.
  apply elem_of_replicate_inv in Hr. by subst.
Qed.
End store.

(** ** Connection counting *)

Section counting.
Implicit Types (p : ServerPool) (r : ref) (i : string).

Lemma counterStep_fields p p' :
  counterStep p p' →
  servers p' = servers p ∧ algorithm p' = algorithm p ∧
  currentIndex p' = currentIndex p ∧
  weightedServerList p' = weightedServerList p ∧
  healthCheckConfig p' = healthCheckConfig p ∧
  length (heap p') = length (heap p).
Proof.
  intros [->|(r & s & n & Hr & ->)]; [done|]. simpl.
  by rewrite length_insert.
Qed.

Lemma counterStep_objId p p' r :
  counterStep p p' → objId (heap p') r = objId (heap p) r.
Proof.
  intros [->|(r0 & s & n & Hr & ->)]; [done|]. by apply objId_setActive.
Qed.

Lemma counterStep_objHealthy p p' r :
  counterStep p p' → objHealthy (heap p') r = objHealthy (heap p) r.
Proof.
  intros [->|(r0 & s & n & Hr & ->)]; [done|]. by apply objHealthy_setActive.
Qed.

Lemma counterStep_objWeight p p' r :
  counterStep p p' → objWeight (heap p') r = objWeight (heap p) r.
Proof.
  intros [->|(r0 & s & n & Hr & ->)]; [done|]. by apply objWeight_setActive.
Qed.

Lemma incrementConnections_counterStep i p :
  counterStep p (incrementConnections i p).
Proof.
  unfold incrementConnections, counterStep.
  destruct (getServerById i p) as [r|]; [|by left].
  destruct (heap p !! r) as [s|] eqn:Hr; [|by left]. right. eauto.
Qed.

Lemma decrementConnections_counterStep i p :
  counterStep p (decrementConnections i p).
Proof.
  unfold decrementConnections, counterStep.
  destruct (getServerById i p) as [r|]; [|by left].
  destruct (heap p !! r) as [s|] eqn:Hr; [|by left].
  destruct (0 <? activeConnections s); [|by left]. right. eauto.
Qed.

Lemma getServerById_member p r :
  uniqueIds p → r ∈ servers p →
  getServerById (objId (heap p) r) p = Some r.
Proof. intros Hu Hr. by apply (find_by_key (objId (heap p))). Qed.

(** The counter of the server found by id goes up by one, the others stay. *)
Lemma incrementConnections_active p r r' :
  uniqueIds p → r ∈ servers p → is_Some (heap p !! r) →
  objActive (heap (incrementConnections (objId (heap p) r) p)) r' =
  if decide (r' = r) then objActive (heap p) r + 1 else objActive (heap p) r'.
Proof.
  intros Hu Hr [s Hs]. unfold incrementConnections.
  rewrite getServerById_member, Hs by done. simpl.
  rewrite objActive_setActive by done.
  case_decide; [|done]. unfold objActive. by rewrite Hs.
Qed.

End counting.

(** ** Selection *)

Section selection.
Implicit Types (p : ServerPool) (r : ref).

Lemma includes_round_robin : includes "WEIGHTED" "ROUND_ROBIN" = false.
Proof. reflexivity. Qed.

Lemma getHealthyServers_elem p r :
  r ∈ getHealthyServers p ↔ objHealthy (heap p) r = true ∧ r ∈ servers p.
Proof.
  unfold getHealthyServers. rewrite list_elem_of_filter.
  by rewrite Is_true_true.
Qed.

Lemma healthyWeighted_elem p r :
  r ∈ healthyWeighted p ↔
  objHealthy (heap p) r = true ∧ r ∈ weightedServerList p.
Proof.
  unfold healthyWeighted. rewrite list_elem_of_filter.
  by rewrite Is_true_true.
Qed.

(** The switch leaves the pool as it was up to the cursor, and what it
    chooses comes from the list its case reads. *)
Lemma switchAlgorithm_shape rnd hs hwl p chosen p2 :
  switchAlgorithm rnd hs hwl p = (chosen, p2) →
  (∃ c, p2 = withCurrentIndex c p) ∧
  (∀ r, chosen = Some r →
        r ∈ hs ∨ (r ∈ hwl ∧ includes "WEIGHTED" (algorithm p) = true)).
Proof.
  unfold switchAlgorithm.
  destruct (String.eqb_spec (algorithm p) "RANDOM") as [E|_].
  { intros [= <- <-]. split; [exists (currentIndex p); by destruct p|].
    intros r Hr. left. by eapply jsIndex_elem_of. }
  destruct (String.eqb_spec (algorithm p) "WEIGHTED_RANDOM") as [E|_].
  { destruct (0 <? length hwl)%nat; intros [= <- <-];
      (split; [exists (currentIndex p); by destruct p|]); [|done].
    intros r Hr. right. split; [by eapply jsIndex_elem_of|by rewrite E]. }
  destruct (String.eqb_spec (algorithm p) "WEIGHTED_ROUND_ROBIN") as [E|_].
  { destruct (0 <? length hwl)%nat; intros [= <- <-].
    - split; [eauto|]. intros r Hr. right.
      split; [by eapply jsIndex_elem_of|by rewrite E].
    - split; [exists (currentIndex p); by destruct p|done]. }
  intros [= <- <-]. split; [eauto|].
  intros r Hr. left. by eapply jsIndex_elem_of.
Qed.
End selection.

Section pick.
Implicit Types (p q : ServerPool) (r : ref).

Lemma pickFrame_refl p : pickFrame p p.
Proof. exists (algorithm p), (currentIndex p). split; [by destruct p|by left]. Qed.

Lemma pickFrame_heap p q : pickFrame p q → heap q = heap p.
Proof. by intros (a & c & -> & _). Qed.

Lemma pickFrame_servers p q : pickFrame p q → servers q = servers p.
Proof. by intros (a & c & -> & _). Qed.

Lemma pickFrame_weightedServerList p q :
  pickFrame p q → weightedServerList q = weightedServerList p.
Proof. by intros (a & c & -> & _). Qed.

Lemma pickFrame_healthCheckConfig p q :
  pickFrame p q → healthCheckConfig q = healthCheckConfig p.
Proof. by intros (a & c & -> & _). Qed.

Lemma pickFrame_includes p q :
  pickFrame p q → includes "WEIGHTED" (algorithm q) = true →
  algorithm q = algorithm p.
Proof. intros (a & c & -> & [->|[-> _]]); simpl; [done|]. by rewrite includes_round_robin. Qed.

Lemma applyAlgorithm_shape rnd p res p' :
  applyAlgorithm rnd (getHealthyServers p) p = (res, p') →
  ∃ q, pickFrame p q ∧
    match res with
    | Some r =>
        p' = incrementConnections (objId (heap p) r) q ∧
        (r ∈ getHealthyServers p ∨
         (r ∈ healthyWeighted p ∧ includes "WEIGHTED" (algorithm q) = true))
    | None => p' = q ∧ getHealthyServers p = []
    end.
Proof.
  unfold applyAlgorithm.
  destruct (weightedFallback p) eqn:Hfb; cbn [andb].
  - destruct (Nat.eqb_spec (length (getHealthyServers p)) 0) as [Hlen|Hlen].
    { intros [= <- <-]. exists p. split; [apply pickFrame_refl|].
      split; [done|]. by apply nil_length_inv. }
    match goal with
    | |- context [switchAlgorithm ?a ?b ?c ?d] =>
        destruct (switchAlgorithm a b c d) as [chosen p2] eqn:Hsw
    end.
    apply switchAlgorithm_shape in Hsw as [[c ->] Hch].
    assert (pickFrame p (withCurrentIndex c (withAlgorithm "ROUND_ROBIN" p)))
      as Hq by (exists "ROUND_ROBIN", c; eauto).
    destruct chosen as [r|].
    + intros [= <- <-]. eexists; split; [exact Hq|]. split; [done|].
      destruct (Hch r eq_refl) as [?|[? ?]]; [by left|by right].
    + destruct (getHealthyServers p) as [|r hs] eqn:Hhs; [done|]. simpl.
      intros [= <- <-]. eexists; split; [exact Hq|]. split; [done|].
      left. apply list_elem_of_here.
  - match goal with
    | |- context [switchAlgorithm ?a ?b ?c ?d] =>
        destruct (switchAlgorithm a b c d) as [chosen p2] eqn:Hsw
    end.
    apply switchAlgorithm_shape in Hsw as [[c ->] Hch].
    assert (pickFrame p (withCurrentIndex c p)) as Hq.
    { exists (algorithm p), c. split; [by destruct p|by left]. }
    destruct chosen as [r|].
    + intros [= <- <-]. eexists; split; [exact Hq|]. split; [done|].
      destruct (Hch r eq_refl) as [?|[? ?]]; [by left|by right].
    + destruct (getHealthyServers p) as [|r hs] eqn:Hhs; simpl.
      * intros [= <- <-]. eexists; split; [exact Hq|done].
      * intros [= <- <-]. eexists; split; [exact Hq|]. split; [done|].
        left. apply list_elem_of_here.
Qed.

(** The two ways [getNextServer] returns: nothing, from a pool it does not
    touch and that has no healthy server; or a server whose id is then
    passed to [incrementConnections], chosen by the sticky step or by the
    algorithm. *)
Lemma getNextServer_shape sid rnd p res p' :
  getNextServer sid rnd p = (res, p') →
  match res with
  | None => p' = p ∧ getHealthyServers p = []
  | Some r =>
      getHealthyServers p ≠ [] ∧
      ∃ q, pickFrame p q ∧
           p' = incrementConnections (objId (heap p) r) q ∧
           ((stickyTarget sid p = Some r ∧ q = p ∧ r ∈ getHealthyServers p) ∨
            (stickyTarget sid p = None ∧
             (r ∈ getHealthyServers p ∨
              (r ∈ healthyWeighted p ∧
               includes "WEIGHTED" (algorithm q) = true))))
  end.
Proof.
  unfold getNextServer.
  destruct (Nat.eqb_spec (length (getHealthyServers p)) 0) as [Hlen|Hlen].
  { intros [= <- <-]. split; [done|]. by apply nil_length_inv. }
  assert (getHealthyServers p ≠ []) as Hne by (by intros E; rewrite E in Hlen).
  destruct (stickyTarget sid p) as [r|] eqn:Hst.
  - intros [= <- <-]. split; [done|]. exists p.
    split; [apply pickFrame_refl|]. split; [done|]. left.
    split; [done|]. split; [done|].
    unfold stickyTarget in Hst. destruct sid as [s|]; [|done].
    destruct (truthy s); [|done]. by apply find_elem_of in Hst as [? _].
  - intros Happ. apply applyAlgorithm_shape in Happ as (q & Hq & Hres).
    destruct res as [r|]; [|by destruct Hres as [_ ?]].
    destruct Hres as [-> Hr]. split; [done|]. exists q. eauto.
Qed.

(** What [getNextServer] leaves alone. *)
Lemma getNextServer_frame sid rnd p res p' :
  getNextServer sid rnd p = (res, p') →
  servers p' = servers p ∧
  weightedServerList p' = weightedServerList p ∧
  healthCheckConfig p' = healthCheckConfig p ∧
  length (heap p') = length (heap p) ∧
  (∀ r, objId (heap p') r = objId (heap p) r) ∧
  (∀ r, objHealthy (heap p') r = objHealthy (heap p) r) ∧
  (∀ r, objWeight (heap p') r = objWeight (heap p) r) ∧
  (includes "WEIGHTED" (algorithm p') = true → algorithm p' = algorithm p).
Proof.
  intros H. apply getNextServer_shape in H.
  destruct res as [r|]; [|by destruct H as [-> _]].
  destruct H as (_ & q & Hq & -> & _).
  pose proof (incrementConnections_counterStep (objId (heap p) r) q) as Hc.
  destruct (counterStep_fields _ _ Hc) as (-> & -> & _ & -> & -> & ->).
  rewrite (pickFrame_servers _ _ Hq), (pickFrame_weightedServerList _ _ Hq),
    (pickFrame_healthCheckConfig _ _ Hq).
  repeat split; try done.
  - by rewrite (pickFrame_heap _ _ Hq).
  - intros r'. rewrite (counterStep_objId _ _ _ Hc). by rewrite (pickFrame_heap _ _ Hq).
  - intros r'. rewrite (counterStep_objHealthy _ _ _ Hc). by rewrite (pickFrame_heap _ _ Hq).
  - intros r'. rewrite (counterStep_objWeight _ _ _ Hc). by rewrite (pickFrame_heap _ _ Hq).
  - by apply pickFrame_includes.
Qed.

(** A returned server is healthy, and it is one of the pool's servers when
    the weighted list is in sync. *)
Lemma getNextServer_healthy sid rnd p r p' :
  getNextServer sid rnd p = (Some r, p') → objHealthy (heap p) r = true.
Proof.
  intros H. apply getNextServer_shape in H as (_ & q & _ & _ & Hr).
  destruct Hr as [(_ & _ & Hr)|[_ [Hr|[Hr _]]]].
  - by apply getHealthyServers_elem in Hr as [? _].
  - by apply getHealthyServers_elem in Hr as [? _].
  - by apply healthyWeighted_elem in Hr as [? _].
Qed.

Lemma getNextServer_member sid rnd p r p' :
  weightedInSync p →
  getNextServer sid rnd p = (Some r, p') → r ∈ servers p.
Proof.
  intros Hw H. apply getNextServer_shape in H as (_ & q & Hq & _ & Hr).
  destruct Hr as [(_ & _ & Hr)|[_ [Hr|[Hr Hi]]]].
  - by apply getHealthyServers_elem in Hr as [_ ?].
  - by apply getHealthyServers_elem in Hr as [_ ?].
  - apply healthyWeighted_elem in Hr as [_ Hr].
    rewrite (pickFrame_includes _ _ Hq Hi) in Hi.
    rewrite (Hw Hi) in Hr. by eapply elem_of_expandWeighted.
Qed.
End pick.

(** ** Preservation of the invariant *)

Section invariant.
Implicit Types (p q : ServerPool) (r : ref).

Lemma sameConfig_refl p : sameConfig p p.
Proof. by repeat split. Qed.

Lemma sameConfig_trans p q p' :
  sameConfig p q → sameConfig q p' → sameConfig p p'.
Proof.
  intros (S1 & W1 & C1 & L1 & A1 & H1) (S2 & W2 & C2 & L2 & A2 & H2).
  repeat split; try congruence.
  - intros Hi. rewrite (A2 Hi) in Hi |- *. by apply A1.
  - destruct (H1 r) as (? & _), (H2 r) as (? & _). congruence.
  - destruct (H1 r) as (_ & ? & _), (H2 r) as (_ & ? & _). congruence.
  - destruct (H1 r) as (_ & _ & ?), (H2 r) as (_ & _ & ?). congruence.
Qed.

Lemma counterStep_sameConfig p p' : counterStep p p' → sameConfig p p'.
Proof.
  intros [->|(r & s & n & Hr & ->)]; [apply sameConfig_refl|].
  repeat split; simpl; try done.
  - by rewrite length_insert.
  - by apply objId_setActive.
  - by apply objWeight_setActive.
  - by apply idOk_setActive.
Qed.

Lemma healthStep_sameConfig p p' : healthStep p p' → sameConfig p p'.
Proof.
  intros [->|(r & s & n & Hr & ->)]; [apply sameConfig_refl|].
  repeat split; simpl; try done.
  - by rewrite length_insert.
  - by apply objId_setHealthy.
  - by apply objWeight_setHealthy.
  - by apply idOk_setHealthy.
Qed.

Lemma pickFrame_sameConfig p q : pickFrame p q → sameConfig p q.
Proof.
  intros Hq. pose proof (pickFrame_includes _ _ Hq).
  destruct Hq as (a & c & -> & _). by repeat split.
Qed.

Lemma sameConfig_poolInv p p' : sameConfig p p' → poolInv p → poolInv p'.
Proof.
  intros (S & W & _ & _ & A & H) (Hu & Hw & Hi). split; [|split].
  - unfold uniqueIds in *. rewrite S.
    erewrite list_fmap_ext; [exact Hu|]. intros ? r _. apply H.
  - intros Hinc. rewrite W, S. rewrite (A Hinc) in Hinc.
    rewrite (Hw Hinc). symmetry. apply expandWeighted_ext. intros r. apply H.
  - unfold idsComputed in *. rewrite S.
    eapply Forall_impl; [exact Hi|]. intros r Hr. simpl in *.
    destruct (H r) as (_ & _ & ->). done.
Qed.

Lemma recalculateWeightsIfNeeded_poolInv p :
  uniqueIds p → idsComputed p → poolInv (recalculateWeightsIfNeeded p).
Proof.
  intros Hu Hi. unfold recalculateWeightsIfNeeded.
  destruct (includes "WEIGHTED" (algorithm p)) eqn:E.
  - by repeat split.
  - repeat split; try done. intros Hinc. congruence.
Qed.

Lemma markServerUnhealthy_healthStep r p :
  healthStep p (markServerUnhealthy r p).
Proof.
  unfold markServerUnhealthy, healthStep.
  destruct (heap p !! r) as [s|] eqn:Hr; [right; eauto|by left].
Qed.

Lemma getNextServer_sameConfig sid rnd p res p' :
  getNextServer sid rnd p = (res, p') → sameConfig p p'.
Proof.
  intros H. apply getNextServer_shape in H.
  destruct res as [r|]; [|destruct H as [-> _]; apply sameConfig_refl].
  destruct H as (_ & q & Hq & -> & _).
  eapply sameConfig_trans; [by apply pickFrame_sameConfig|].
  apply counterStep_sameConfig, incrementConnections_counterStep.
Qed.
End invariant.

(** ** Construction and reconfiguration *)

Section reconfiguration.
Implicit Types (p : ServerPool) (r : ref) (cfg : list ServerConfig).

(** Reading a field of the records allocated at the end of the store. *)
Lemma fmap_fresh_refs {B} (g : Server → B) (d : B) (h news : list Server) :
  (λ r, match (h ++ news) !! r with Some s => g s | None => d end)
    <$> seq (length h) (length news) = g <$> news.
Proof.
  revert h. induction news as [|x news IH]; intros h; [done|].
  simpl. rewrite list_lookup_middle by done. f_equal.
  specialize (IH (h ++ [x])). rewrite length_app in IH. simpl in IH.
  rewrite <- app_assoc, Nat.add_1_r in IH. exact IH.
Qed.

Lemma recalculateWeightsIfNeeded_fields p :
  heap (recalculateWeightsIfNeeded p) = heap p ∧
  servers (recalculateWeightsIfNeeded p) = servers p ∧
  algorithm (recalculateWeightsIfNeeded p) = algorithm p ∧
  currentIndex (recalculateWeightsIfNeeded p) = currentIndex p ∧
  healthCheckConfig (recalculateWeightsIfNeeded p) = healthCheckConfig p.
Proof.
  unfold recalculateWeightsIfNeeded.
  by destruct (includes "WEIGHTED" (algorithm p)).
Qed.

Lemma updateServers_heap cfg p :
  heap (updateServers cfg p) = heap p ++ (updatedServer p <$> cfg).
Proof.
  unfold updateServers.
  by destruct (recalculateWeightsIfNeeded_fields
    (mkPool (heap p ++ (updatedServer p <$> cfg))
            (seq (length (heap p)) (length cfg)) (algorithm p) (-1)
            (weightedServerList p) (healthCheckConfig p))) as (-> & _).
Qed.

Lemma updateServers_servers cfg p :
  servers (updateServers cfg p) = seq (length (heap p)) (length cfg).
Proof.
  unfold updateServers.
  by destruct (recalculateWeightsIfNeeded_fields
    (mkPool (heap p ++ (updatedServer p <$> cfg))
            (seq (length (heap p)) (length cfg)) (algorithm p) (-1)
            (weightedServerList p) (healthCheckConfig p))) as (_ & -> & _).
Qed.

Lemma updateServers_currentIndex cfg p :
  currentIndex (updateServers cfg p) = -1.
Proof.
  unfold updateServers.
  by destruct (recalculateWeightsIfNeeded_fields
    (mkPool (heap p ++ (updatedServer p <$> cfg))
            (seq (length (heap p)) (length cfg)) (algorithm p) (-1)
            (weightedServerList p) (healthCheckConfig p)))
    as (_ & _ & _ & -> & _).
Qed.

(** The new servers are the records built for the entries of the
    configuration, in its order. *)
Lemma updateServers_lookup cfg p r' :
  r' ∈ servers (updateServers cfg p) →
  ∃ c, c ∈ cfg ∧ heap (updateServers cfg p) !! r' = Some (updatedServer p c).
Proof.
  rewrite updateServers_servers, updateServers_heap.
  intros [Hge Hlt]%elem_of_seq.
  destruct (lookup_lt_is_Some_2 cfg (r' - length (heap p))) as [c Hc]; [lia|].
  exists c. split; [by eapply list_elem_of_lookup_2|].
  rewrite lookup_app_r by lia. by rewrite list_lookup_fmap, Hc.
Qed.

Lemma updatedServer_id p c : id (updatedServer p c) = configId c.
Proof. unfold updatedServer. by destruct (existingServer _ p). Qed.

Lemma updatedServer_idOk p c :
  String.eqb (id (updatedServer p c))
    (serverId (host (updatedServer p c)) (port (updatedServer p c))) = true.
Proof.
  unfold updatedServer. destruct (existingServer _ p); apply String.eqb_refl.
Qed.

Lemma updateServers_poolInv cfg p :
  uniqueConfigIds cfg → poolInv (updateServers cfg p).
Proof.
  intros Hu. unfold updateServers.
  apply recalculateWeightsIfNeeded_poolInv.
  - unfold uniqueIds, objId. simpl.
    rewrite <- (length_fmap (updatedServer p) cfg).
    rewrite (fmap_fresh_refs id ""), <- list_fmap_compose.
    erewrite list_fmap_ext; [exact Hu|]. intros ? c _. apply updatedServer_id.
  - unfold idsComputed, idOk. simpl. apply Forall_forall. intros r Hr.
    assert (r ∈ servers (updateServers cfg p)) as Hr'
      by by rewrite updateServers_servers.
    apply updateServers_lookup in Hr' as (c & _ & Hc).
    rewrite updateServers_heap in Hc. rewrite Hc. apply updatedServer_idOk.
Qed.

Lemma newServerPool_poolInv cfg alg hc :
  uniqueConfigIds cfg → poolInv (newServerPool cfg alg hc).
Proof.
  intros Hu. unfold newServerPool.
  pose (p := mkPool (newServer <$> cfg) (seq 0 (length cfg)) alg (-1) [] hc).
  assert (uniqueIds p ∧ idsComputed p) as [Hu' Hi'].
  { split.
    - unfold uniqueIds, objId. simpl.
      pose proof (fmap_fresh_refs id "" [] (newServer <$> cfg)) as E.
      simpl in E. rewrite length_fmap in E. rewrite E.
      by rewrite <- list_fmap_compose.
    - unfold idsComputed. simpl. apply Forall_forall. intros r Hr.
      apply elem_of_seq in Hr as [_ Hr]. unfold idOk.
      destruct (lookup_lt_is_Some_2 cfg r) as [c Hc]; [lia|].
      rewrite list_lookup_fmap, Hc. simpl. apply String.eqb_refl. }
  pose proof (recalculateWeightsIfNeeded_poolInv p Hu' Hi') as Hinv.
  unfold recalculateWeightsIfNeeded in Hinv. exact Hinv.
Qed.

Lemma probeEnd_poolInv r statusCode body p :
  poolInv p → poolInv (probeEnd r statusCode body p).
Proof.
  intros Hinv. unfold probeEnd.
  destruct (heap p !! r) as [s|] eqn:Hr; [|done].
  match goal with
  | |- context [withHeap (<[r := setHealthy ?b s]> (heap p)) p] =>
      assert (poolInv (withHeap (<[r := setHealthy b s]> (heap p)) p)) as Hp1
  end.
  { eapply sameConfig_poolInv; [|exact Hinv].
    apply healthStep_sameConfig. right. eauto. }
  match goal with |- poolInv (if ?c then _ else _) => destruct c end;
    [|exact Hp1].
  destruct Hp1 as (? & _ & ?). by apply recalculateWeightsIfNeeded_poolInv.
Qed.

(** The invariant holds along every run whose reconfigurations carry
    distinct ids. *)
Lemma step_poolInv o p :
  (∀ cfg, o = UpdateServers cfg → uniqueConfigIds cfg) →
  poolInv p → poolInv (step o p).2.
Proof.
  intros Hcfg Hinv. destruct o as [sid rnd|i|r|r st body| |cfg]; simpl.
  - destruct (getNextServer sid rnd p) as [res p'] eqn:E. simpl.
    eapply sameConfig_poolInv; [|exact Hinv].
    by eapply getNextServer_sameConfig.
  - eapply sameConfig_poolInv; [|exact Hinv].
    apply counterStep_sameConfig, decrementConnections_counterStep.
  - eapply sameConfig_poolInv; [|exact Hinv].
    apply healthStep_sameConfig, markServerUnhealthy_healthStep.
  - by apply probeEnd_poolInv.
  - destruct Hinv as (? & _ & ?). by apply recalculateWeightsIfNeeded_poolInv.
  - apply updateServers_poolInv. by apply Hcfg.
Qed.
End reconfiguration.

(** ** Claims on [getNextServer] *)

Section pick_claims.
Implicit Types (p q : ServerPool) (r : ref).

Lemma pickFrame_uniqueIds p q : pickFrame p q → uniqueIds p → uniqueIds q.
Proof. intros (a & c & -> & _). done. Qed.

(** The counter of the returned server is one more than before. *)
Lemma getNextServer_counted sid rnd p r p' :
  poolInv p →
  getNextServer sid rnd p = (Some r, p') →
  ∀ r', objActive (heap p') r' =
        if decide (r' = r) then objActive (heap p) r + 1
        else objActive (heap p) r'.
Proof.
  intros (Hu & Hw & _) H r'.
  pose proof (getNextServer_member _ _ _ _ _ Hw H) as Hmem.
  pose proof (getNextServer_healthy _ _ _ _ _ H) as Hh.
  apply objHealthy_lookup in Hh as (s & Hs & _).
  apply getNextServer_shape in H as (_ & q & Hq & -> & _).
  pose proof (pickFrame_uniqueIds _ _ Hq Hu) as Huq.
  rewrite <- (pickFrame_heap _ _ Hq).
  apply incrementConnections_active; [done| |].
  - by rewrite (pickFrame_servers _ _ Hq).
  - rewrite (pickFrame_heap _ _ Hq). eauto.
Qed.
End pick_claims.

(** C1. A call of [getNextServer] without a sticky id returns nothing exactly
    when no server is healthy; a server it returns is healthy in the pool the
    call leaves, and, the ids of the pool being distinct and its weighted
    list in sync, its [activeConnections] is one more than before the
    call. *)
Theorem getNextServer_no_sticky (p : ServerPool) rnd res p' :
  getNextServer None rnd p = (res, p') →
  (res = None ↔ getHealthyServers p = []) ∧
  (∀ r, res = Some r →
        objHealthy (heap p') r = true ∧
        (poolInv p → objActive (heap p') r = objActive (heap p) r + 1)).
Proof.
  intros H. split.
  - pose proof (getNextServer_shape _ _ _ _ _ H) as Hs.
    destruct res as [r|]; [|by destruct Hs as [_ ->]].
    destruct Hs as [Hne _]. split; [done|]. intros E. by destruct Hne.
  - intros r ->. split.
    + destruct (getNextServer_frame _ _ _ _ _ H) as (_ & _ & _ & _ & _ & -> & _).
      by eapply getNextServer_healthy.
    + intros Hinv. rewrite (getNextServer_counted _ _ _ _ _ Hinv H r).
      by rewrite decide_True.
Qed.

Lemma getNextServer_no_sticky_witness :
  objHealthy (heap (getNextServer None zeroRnd weightedPool).2) 0%nat = true ∧
  objActive (heap (getNextServer None zeroRnd weightedPool).2) 0%nat =
    objActive (heap weightedPool) 0%nat + 1.
Proof.
  assert (poolInv weightedPool) as Hinv by decide_by_computation.
  assert (getNextServer None zeroRnd weightedPool =
          (Some 0%nat, (getNextServer None zeroRnd weightedPool).2)) as E
    by (vm_compute; reflexivity).
  destruct (getNextServer_no_sticky _ _ _ _ E) as [_ H].
  destruct (H 0%nat eq_refl) as [H1 H2]. split; [exact H1|exact (H2 Hinv)].
Defined.

(** ** Sticky sessions *)

Section sticky.
Implicit Types (p q : ServerPool) (r b : ref) (h : list Server).

Lemma stickyTarget_healthy_member p b :
  poolInv p → b ∈ servers p → objHealthy (heap p) b = true →
  stickyTarget (Some (objId (heap p) b)) p = Some b.
Proof.
  intros (Hu & _ & Hi) Hb Hh. unfold stickyTarget.
  rewrite idOk_truthy
    by (by eapply (proj1 (Forall_forall _ _) Hi)).
  apply (find_by_key (objId (heap p))).
  - eapply sublist_NoDup; [exact Hu|].
    apply fmap_sublist. unfold getHealthyServers. apply sublist_filter.
  - by apply getHealthyServers_elem.
Qed.

Lemma stickyTarget_down i p : down i p → stickyTarget (Some i) p = None.
Proof.
  intros Hd. unfold stickyTarget. destruct (truthy i); [|done].
  apply find_none_iff. intros r [Hh Hr]%getHealthyServers_elem.
  destruct (String.eqb_spec (objId (heap p) r) i) as [E|]; [|done].
  rewrite (proj1 (Forall_forall _ _) Hd r Hr E) in Hh. done.
Qed.

Lemma getHealthyServers_nonempty p b :
  b ∈ getHealthyServers p → (length (getHealthyServers p) =? 0)%nat = false.
Proof.
  intros Hin. destruct (getHealthyServers p); [by apply elem_of_nil in Hin|done].
Qed.

Lemma stickyTarget_None p : stickyTarget None p = None.
Proof. done. Qed.

(** The switch does not read the store. *)
Lemma switchAlgorithm_withHeap rnd hs hwl h p :
  switchAlgorithm rnd hs hwl (withHeap h p) =
  ((switchAlgorithm rnd hs hwl p).1, withHeap h (switchAlgorithm rnd hs hwl p).2).
Proof.
  unfold switchAlgorithm. simpl.
  repeat match goal with
         | |- context [if ?c then _ else _] => destruct c
         end; done.
Qed.

(** Two stores that agree on ids and health flags lead [getNextServer] to
    the same server, cursor and algorithm. *)
Lemma getNextServer_store_ext sid rnd p h :
  (∀ r, objId h r = objId (heap p) r) →
  (∀ r, objHealthy h r = objHealthy (heap p) r) →
  ∃ res q, pickFrame p q ∧
    getNextServer sid rnd p = (res, afterPick res q) ∧
    getNextServer sid rnd (withHeap h p) = (res, afterPick res (withHeap h q)).
Proof.
  intros Hid Hh.
  assert (getHealthyServers (withHeap h p) = getHealthyServers p) as Ehs
    by by apply filter_healthy_ext.
  assert (healthyWeighted (withHeap h p) = healthyWeighted p) as Ehw
    by by apply filter_healthy_ext.
  assert (stickyTarget sid (withHeap h p) = stickyTarget sid p) as Est.
  { unfold stickyTarget. rewrite Ehs. destruct sid as [s|]; [|done].
    destruct (truthy s); [|done]. by apply find_id_ext. }
  assert (weightedFallback (withHeap h p) = weightedFallback p) as Efb
    by (unfold weightedFallback; by rewrite Ehw).
  unfold getNextServer. rewrite Ehs, Est.
  destruct (length (getHealthyServers p) =? 0)%nat eqn:Hlen.
  { exists None, p. split; [apply pickFrame_refl|done]. }
  destruct (stickyTarget sid p) as [r|].
  { exists (Some r), p. split; [apply pickFrame_refl|]. simpl.
    by rewrite Hid. }
  unfold applyAlgorithm. rewrite Ehs, Ehw, Efb, Hlen, andb_false_r.
  set (p1 := if weightedFallback p then withAlgorithm "ROUND_ROBIN" p else p).
  assert ((if weightedFallback p
           then withAlgorithm "ROUND_ROBIN" (withHeap h p)
           else withHeap h p) = withHeap h p1) as ->
    by (unfold p1; by destruct (weightedFallback p)).
  assert (∃ a, p1 = withAlgorithm a p ∧
               (a = algorithm p ∨ (a = "ROUND_ROBIN" ∧ weightedFallback p = true)))
    as (a & Hp1 & Ha).
  { unfold p1. destruct (weightedFallback p).
    - exists "ROUND_ROBIN". eauto.
    - exists (algorithm p). split; [by destruct p|by left]. }
  rewrite switchAlgorithm_withHeap.
  match goal with
  | |- context [switchAlgorithm ?x ?y ?z p1] =>
      destruct (switchAlgorithm x y z p1) as [chosen p2] eqn:Hsw
  end.
  apply switchAlgorithm_shape in Hsw as [[c ->] _]. simpl.
  assert (pickFrame p (withCurrentIndex c p1)) as Hq
    by (exists a, c; by rewrite Hp1).
  assert (∀ res, ∃ res0 q,
    pickFrame p q ∧
    match res with
    | Some r => (Some r, incrementConnections (objId (heap p1) r)
                           (withCurrentIndex c p1))
    | None => (None, withCurrentIndex c p1)
    end = (res0, afterPick res0 q) ∧
    match res with
    | Some r => (Some r, incrementConnections (objId h r)
                           (withHeap h (withCurrentIndex c p1)))
    | None => (None, withHeap h (withCurrentIndex c p1))
    end = (res0, afterPick res0 (withHeap h q))) as Hfin.
  { intros res. exists res, (withCurrentIndex c p1). split; [done|].
    destruct res; simpl; [|done].
    assert (heap p1 = heap p) as -> by (by rewrite Hp1). by rewrite Hid. }
  apply Hfin.
Qed.
End sticky.

(** C5. For a healthy backend [b] of the pool, [getNextServer] called with
    the id of [b] returns [b], whatever the algorithm and the cursor; called
    with an id that no healthy backend carries (unknown, or only unhealthy
    backends), it does what it does without a sticky id. *)
Theorem sticky_precedence (p : ServerPool) rnd :
  poolInv p →
  (∀ b, b ∈ servers p → objHealthy (heap p) b = true →
        (getNextServer (Some (objId (heap p) b)) rnd p).1 = Some b) ∧
  (∀ i, down i p → getNextServer (Some i) rnd p = getNextServer None rnd p).
Proof.
  intros Hinv. split.
  - intros b Hb Hh. unfold getNextServer.
    rewrite (getHealthyServers_nonempty p b)
      by by apply getHealthyServers_elem.
    by rewrite stickyTarget_healthy_member.
  - intros i Hd. unfold getNextServer.
    by rewrite stickyTarget_down, stickyTarget_None.
Qed.

Lemma sticky_precedence_witness :
  (getNextServer (Some "B:3002") zeroRnd abcPool).1 = Some 1%nat ∧
  getNextServer (Some "B:3002") zeroRnd abcPoolBDown =
    getNextServer None zeroRnd abcPoolBDown.
Proof.
  assert (poolInv abcPool) as H1 by decide_by_computation.
  assert (poolInv abcPoolBDown) as H2 by decide_by_computation.
  assert (1%nat ∈ servers abcPool) as Hin by decide_by_computation.
  assert (down "B:3002" abcPoolBDown) as Hd by decide_by_computation.
  split.
  - exact (proj1 (sticky_precedence abcPool zeroRnd H1) 1%nat Hin eq_refl).
  - exact (proj2 (sticky_precedence abcPoolBDown zeroRnd H2) "B:3002" Hd).
Defined.

(** C10. A call of [getNextServer] with the id of a healthy backend [b]
    returns [b] and leaves the pool as it was except for the record of [b],
    where [activeConnections] is one more: servers, algorithm, cursor,
    weighted list and every other record are the same.  A later call without
    sticky id then returns the server, and leaves the cursor and algorithm, it
    would have without the sticky call. *)
Theorem sticky_pick_frame (p : ServerPool) rnd b s :
  poolInv p → b ∈ servers p → heap p !! b = Some s → healthy s = true →
  ∃ p', getNextServer (Some (id s)) rnd p = (Some b, p') ∧
    p' = withHeap (<[b := setActive (activeConnections s + 1) s]> (heap p)) p ∧
    servers p' = servers p ∧ algorithm p' = algorithm p ∧
    currentIndex p' = currentIndex p ∧
    weightedServerList p' = weightedServerList p ∧
    (∀ r, r ≠ b → heap p' !! r = heap p !! r) ∧
    (∀ rnd',
       (getNextServer None rnd' p').1 = (getNextServer None rnd' p).1 ∧
       currentIndex (getNextServer None rnd' p').2 =
         currentIndex (getNextServer None rnd' p).2 ∧
       algorithm (getNextServer None rnd' p').2 =
         algorithm (getNextServer None rnd' p).2).
Proof.
  intros Hinv Hb Hs Hh.
  assert (objId (heap p) b = id s) as Hid by (unfold objId; by rewrite Hs).
  assert (objHealthy (heap p) b = true) as Hhb
    by (unfold objHealthy; by rewrite Hs).
  eexists. split; [|split; [reflexivity|]].
  - unfold getNextServer.
    rewrite (getHealthyServers_nonempty p b)
      by by apply getHealthyServers_elem.
    rewrite <- Hid, stickyTarget_healthy_member by done.
    unfold incrementConnections.
    rewrite getServerById_member by (done || apply Hinv). by rewrite Hs.
  - simpl. repeat split; try done.
    { intros r Hr. by apply list_lookup_insert_ne. }
    all: destruct (getNextServer_store_ext None rnd' p
      (<[b := setActive (activeConnections s + 1) s]> (heap p)))
      as (res & q & Hq & -> & ->);
      [intros r; by apply objId_setActive
      |intros r; by apply objHealthy_setActive
      |simpl].
    + done.
    + destruct res as [r|]; simpl; [|done].
      destruct (counterStep_fields _ _ (incrementConnections_counterStep
        (objId (<[b:=setActive (activeConnections s + 1) s]> (heap p)) r)
        (withHeap (<[b:=setActive (activeConnections s + 1) s]> (heap p)) q)))
        as (_ & _ & -> & _).
      by destruct (counterStep_fields _ _ (incrementConnections_counterStep
        (objId (heap q) r) q)) as (_ & _ & -> & _).
    + destruct res as [r|]; simpl; [|done].
      destruct (counterStep_fields _ _ (incrementConnections_counterStep
        (objId (<[b:=setActive (activeConnections s + 1) s]> (heap p)) r)
        (withHeap (<[b:=setActive (activeConnections s + 1) s]> (heap p)) q)))
        as (_ & -> & _).
      by destruct (counterStep_fields _ _ (incrementConnections_counterStep
        (objId (heap q) r) q)) as (_ & -> & _).
Qed.

Lemma sticky_pick_frame_witness :
  ∃ p', getNextServer (Some "C:3003") zeroRnd abcPool = (Some 2%nat, p') ∧
        currentIndex p' = currentIndex abcPool ∧
        (getNextServer None zeroRnd p').1 =
          (getNextServer None zeroRnd abcPool).1.
Proof.
  assert (poolInv abcPool) as Hinv
    by decide_by_computation.
  assert (2%nat ∈ servers abcPool) as Hin
    by decide_by_computation.
  destruct (sticky_pick_frame abcPool zeroRnd 2%nat
              (mkServer "C" 3003 "C:3003" true 1 0 0) Hinv Hin eq_refl eq_refl)
    as (p' & H1 & _ & _ & _ & H2 & _ & _ & H3).
  exists p'. split; [exact H1|]. split; [exact H2|exact (proj1 (H3 zeroRnd))].
Defined.

(** ** Release *)

Section release.
Implicit Types (p : ServerPool) (r : ref) (i : string).

Lemma decrementConnections_unknown i p :
  getServerById i p = None → decrementConnections i p = p.
Proof. intros H. unfold decrementConnections. by rewrite H. Qed.

Lemma decrementConnections_zero i p r :
  getServerById i p = Some r → objActive (heap p) r = 0 →
  decrementConnections i p = p.
Proof.
  intros H Hz. unfold decrementConnections. rewrite H.
  unfold objActive in Hz. destruct (heap p !! r) as [s|]; [|done].
  by rewrite Hz.
Qed.

Lemma decrementConnections_nonNeg i p :
  nonNegCounters p → nonNegCounters (decrementConnections i p).
Proof.
  intros Hn. unfold decrementConnections.
  destruct (getServerById i p) as [r|]; [|done].
  destruct (heap p !! r) as [s|] eqn:Hs; [|done].
  destruct (Z.ltb_spec 0 (activeConnections s)); [|done].
  unfold nonNegCounters. simpl. apply Forall_insert; [done|]. simpl. lia.
Qed.

Lemma releaseAll_nonNeg ids p :
  nonNegCounters p → nonNegCounters (releaseAll ids p).
Proof.
  revert p. induction ids as [|i ids IH]; intros p Hn; [done|].
  simpl. apply IH. by apply decrementConnections_nonNeg.
Qed.
End release.

(** C8. No sequence of calls of [decrementConnections] makes a counter
    negative; a call for a backend whose counter is zero, and a call with an
    id that no backend of the pool has, leave the pool as it was. *)
Theorem decrementConnections_guarded (p : ServerPool) :
  (∀ ids, nonNegCounters p → nonNegCounters (releaseAll ids p)) ∧
  (∀ i r, getServerById i p = Some r → objActive (heap p) r = 0 →
          decrementConnections i p = p) ∧
  (∀ i, getServerById i p = None → decrementConnections i p = p).
Proof.
  split; [|split].
  - intros ids. apply releaseAll_nonNeg.
  - intros i r. apply decrementConnections_zero.
  - intros i. apply decrementConnections_unknown.
Qed.

Lemma decrementConnections_guarded_witness :
  nonNegCounters (releaseAll ["A:3001"; "A:3001"; "Z:1"] abcPool) ∧
  decrementConnections "A:3001" abcPool = abcPool ∧
  decrementConnections "Z:1" abcPool = abcPool.
Proof.
  assert (nonNegCounters abcPool) as Hn
    by decide_by_computation.
  destruct (decrementConnections_guarded abcPool) as (H1 & H2 & H3).
  split; [exact (H1 _ Hn)|]. split.
  - exact (H2 "A:3001" 0%nat eq_refl eq_refl).
  - exact (H3 "Z:1" eq_refl).
Defined.

(** ** [updateServers] keeps the state of the surviving backends *)

Section update_claims.
Implicit Types (p : ServerPool) (r : ref) (cfg : list ServerConfig).

Lemma existingServer_member p r :
  uniqueIds p → r ∈ servers p → truthy (objId (heap p) r) = true →
  ∃ e, existingServer (objId (heap p) r) p = Some e ∧ heap p !! r = Some e.
Proof.
  intros Hu Hr Ht. unfold existingServer.
  rewrite (find_by_key (objId (heap p))).
  - unfold objId in Ht. destruct (heap p !! r) as [e|]; [eauto|done].
  - by rewrite fmap_reverse, reverse_Permutation.
  - by apply elem_of_reverse.
Qed.

Lemma existingServer_absent p i :
  (∀ r, r ∈ servers p → objId (heap p) r ≠ i) → existingServer i p = None.
Proof.
  intros Hn. unfold existingServer.
  rewrite (proj2 (find_none_iff _ _)); [done|].
  intros r Hr. rewrite elem_of_reverse in Hr.
  destruct (String.eqb_spec (objId (heap p) r) i) as [E|]; [|done].
  by destruct (Hn r Hr).
Qed.
End update_claims.

(** C7. After [updateServers] the servers are those of the new list, in its
    order; a backend whose id was in the pool before has the [healthy] flag
    and the [activeConnections] of the old backend with that id; a backend
    with a new id is healthy with a counter of zero; the cursor is -1. *)
Theorem updateServers_preserves cfg (p : ServerPool) :
  uniqueIds p →
  currentIndex (updateServers cfg p) = -1 ∧
  objId (heap (updateServers cfg p)) <$> servers (updateServers cfg p)
    = configId <$> cfg ∧
  ∀ r', r' ∈ servers (updateServers cfg p) →
    (∀ r, r ∈ servers p →
          objId (heap p) r = objId (heap (updateServers cfg p)) r' →
          objHealthy (heap (updateServers cfg p)) r' = objHealthy (heap p) r ∧
          objActive (heap (updateServers cfg p)) r' = objActive (heap p) r) ∧
    ((∀ r, r ∈ servers p →
           objId (heap p) r ≠ objId (heap (updateServers cfg p)) r') →
     objHealthy (heap (updateServers cfg p)) r' = true ∧
     objActive (heap (updateServers cfg p)) r' = 0).
Proof.
  intros Hu. split; [apply updateServers_currentIndex|]. split.
  - rewrite updateServers_servers, updateServers_heap. unfold objId.
    rewrite <- (length_fmap (updatedServer p) cfg).
    rewrite (fmap_fresh_refs id ""), <- list_fmap_compose.
    apply list_fmap_ext. intros ? c _. apply updatedServer_id.
  - intros r' Hr'. apply updateServers_lookup in Hr' as (c & _ & Hc).
    unfold objId at 2 4, objHealthy at 1 3, objActive at 1 3. rewrite Hc.
    rewrite updatedServer_id. split.
    + intros r Hr Hid.
      destruct (existingServer_member p r Hu Hr) as (e & He & Hre).
      { rewrite Hid. apply serverId_truthy. }
      unfold updatedServer. fold (configId c). rewrite <- Hid, He. simpl.
      unfold objHealthy, objActive. by rewrite Hre.
    + intros Hnew. unfold updatedServer. fold (configId c).
      by rewrite existingServer_absent.
Qed.

Lemma updateServers_preserves_witness :
  let p := (getNextServer (Some "B:3002") zeroRnd abcPool).2 in
  let p' := updateServers bdConfig (markServerUnhealthy 1%nat p) in
  currentIndex p' = -1 ∧
  servers p' = [3%nat; 4%nat] ∧
  (objHealthy (heap p') 3%nat = false ∧ objActive (heap p') 3%nat = 1) ∧
  (objHealthy (heap p') 4%nat = true ∧ objActive (heap p') 4%nat = 0).
Proof.
  intros p p'.
  assert (uniqueIds (markServerUnhealthy 1%nat p)) as Hu
    by decide_by_computation.
  destruct (updateServers_preserves bdConfig _ Hu) as (H1 & _ & H3).
  split; [exact H1|]. split; [reflexivity|]. split.
  - assert (3%nat ∈ servers p') as Hin
      by decide_by_computation.
    assert (1%nat ∈ servers (markServerUnhealthy 1%nat p)) as Hold
      by decide_by_computation.
    exact (proj1 (H3 3%nat Hin) 1%nat Hold eq_refl).
  - assert (4%nat ∈ servers p') as Hin
      by decide_by_computation.
    apply (proj2 (H3 4%nat Hin)).
    apply (proj1 (Forall_forall _ _)).
    decide_by_computation.
Defined.

(** ** The weighted list and health *)

Section weighted.
Implicit Types (p : ServerPool) (r : ref) (h : list Server).

Lemma filter_replicate_healthy h n r :
  filter (λ x, objHealthy h x) (replicate n r) =
  if objHealthy h r then replicate n r else [].
Proof.
  induction n as [|n IH]; simpl; [by destruct (objHealthy h r)|].
  rewrite filter_cons, IH. destruct (objHealthy h r) eqn:E.
  - by rewrite decide_True by exact I.
  - by rewrite decide_False by (intros []).
Qed.

(** Filtering the expansion by health is expanding the healthy servers. *)
Lemma filter_expandWeighted h (l : list ref) :
  filter (λ x, objHealthy h x) (expandWeighted h l) =
  expandWeighted h (filter (λ x, objHealthy h x) l).
Proof.
  unfold expandWeighted. induction l as [|r l IH]; [done|].
  simpl. rewrite filter_app, filter_cons, IH, filter_replicate_healthy.
  destruct (objHealthy h r) eqn:E.
  - by rewrite decide_True by exact I.
  - by rewrite decide_False by (intros []).
Qed.

Lemma healthyWeighted_inSync p :
  weightedInSync p → includes "WEIGHTED" (algorithm p) = true →
  healthyWeighted p = expandWeighted (heap p) (getHealthyServers p).
Proof.
  intros Hw Hi. unfold healthyWeighted, getHealthyServers.
  rewrite (Hw Hi). apply filter_expandWeighted.
Qed.

Lemma sameConfig_weightedInSync p p' :
  sameConfig p p' → weightedInSync p → weightedInSync p'.
Proof.
  intros (S & W & _ & _ & A & H) Hw Hinc. rewrite W, S.
  rewrite (A Hinc) in Hinc. rewrite (Hw Hinc). symmetry.
  apply expandWeighted_ext. intros r. apply H.
Qed.

Lemma recalculateWeightsIfNeeded_weightedInSync p :
  weightedInSync (recalculateWeightsIfNeeded p).
Proof.
  unfold recalculateWeightsIfNeeded, weightedInSync.
  destruct (includes "WEIGHTED" (algorithm p)) eqn:E; simpl; [done|].
  intros. congruence.
Qed.

Lemma probeEnd_weightedInSync r statusCode body p :
  weightedInSync p → weightedInSync (probeEnd r statusCode body p).
Proof.
  intros Hw. unfold probeEnd.
  destruct (heap p !! r) as [s|] eqn:Hr; [|done].
  match goal with |- weightedInSync (if ?c then _ else _) => destruct c end.
  - apply recalculateWeightsIfNeeded_weightedInSync.
  - eapply sameConfig_weightedInSync; [|exact Hw].
    apply healthStep_sameConfig. right. eauto.
Qed.

Lemma step_weightedInSync o p :
  weightedInSync p → weightedInSync (step o p).2.
Proof.
  intros Hw. destruct o as [sid rnd|i|r|r st body| |cfg]; simpl.
  - destruct (getNextServer sid rnd p) as [res p'] eqn:E. simpl.
    eapply sameConfig_weightedInSync; [|exact Hw].
    by eapply getNextServer_sameConfig.
  - eapply sameConfig_weightedInSync; [|exact Hw].
    apply counterStep_sameConfig, decrementConnections_counterStep.
  - eapply sameConfig_weightedInSync; [|exact Hw].
    apply healthStep_sameConfig, markServerUnhealthy_healthStep.
  - by apply probeEnd_weightedInSync.
  - apply recalculateWeightsIfNeeded_weightedInSync.
  - apply recalculateWeightsIfNeeded_weightedInSync.
Qed.
End weighted.

(** C3, as the code has it.  Under a policy whose name contains [WEIGHTED],
    after any operation on the pool (a health flip by [markServerUnhealthy]
    or by a probe, the end of a sweep, a reconfiguration with new weights, a
    pick, a release) [weightedServerList] holds every configured backend,
    healthy or not, [weight] times in configured order; the sequence that
    [getNextServer] selects from, that list filtered by the health flags of
    the moment, holds exactly the healthy backends, each [weight] times, and
    no unhealthy one. *)
Theorem weighted_list_after_step o (p : ServerPool) :
  weightedInSync p →
  includes "WEIGHTED" (algorithm (step o p).2) = true →
  weightedServerList (step o p).2 =
    expandWeighted (heap (step o p).2) (servers (step o p).2) ∧
  healthyWeighted (step o p).2 =
    expandWeighted (heap (step o p).2) (getHealthyServers (step o p).2) ∧
  Forall (λ r, objHealthy (heap (step o p).2) r = true)
         (healthyWeighted (step o p).2).
Proof.
  intros Hw Hi. pose proof (step_weightedInSync o p Hw) as Hw'.
  split; [by apply Hw'|]. split; [by apply healthyWeighted_inSync|].
  apply Forall_forall. intros r Hr. by apply healthyWeighted_elem in Hr as [? _].
Qed.

Lemma weighted_list_after_step_witness :
  let p' := (step (MarkUnhealthy 1%nat) weightedPool).2 in
  weightedServerList p' = [0; 0; 0; 0; 0; 1; 1; 1; 2; 3]%nat ∧
  healthyWeighted p' = [0; 0; 0; 0; 0; 2; 3]%nat.
Proof.
  intros p'.
  assert (weightedInSync weightedPool) as Hw
    by decide_by_computation.
  destruct (weighted_list_after_step (MarkUnhealthy 1%nat) weightedPool Hw eq_refl)
    as (H1 & H2 & _).
  split.
  - etransitivity; [exact H1|]. vm_compute. reflexivity.
  - etransitivity; [exact H2|]. vm_compute. reflexivity.
Defined.

(** C3 as stated fails: after [markServerUnhealthy] of [B], and still after
    the rebuild at the end of the next sweep, [weightedServerList] holds the
    three entries of the unhealthy [B], and is not the expansion of the
    healthy backends. *)
Lemma weighted_list_keeps_unhealthy :
  let p1 := markServerUnhealthy 1%nat weightedPool in
  let p2 := sweepDone p1 in
  objHealthy (heap p1) 1%nat = false ∧
  weightedServerList p1 = [0; 0; 0; 0; 0; 1; 1; 1; 2; 3]%nat ∧
  weightedServerList p1 ≠ expandWeighted (heap p1) (getHealthyServers p1) ∧
  objHealthy (heap p2) 1%nat = false ∧
  weightedServerList p2 = [0; 0; 0; 0; 0; 1; 1; 1; 2; 3]%nat ∧
  weightedServerList p2 ≠ expandWeighted (heap p2) (getHealthyServers p2).
Proof. vm_compute. repeat split; discriminate. Qed.

(** ** The fallback to round robin *)

(** With every weight at least one, the fallback branch is not taken while a
    server is healthy: the algorithm is then the same after a call. *)
Lemma weightedFallback_positive_weights (p : ServerPool) :
  weightedInSync p →
  Forall (λ r, 1 ≤ objWeight (heap p) r) (servers p) →
  weightedFallback p = true → getHealthyServers p = [].
Proof.
  intros Hw Hpos. unfold weightedFallback.
  intros [Hi Hlen]%andb_true_iff.
  rewrite (healthyWeighted_inSync p Hw Hi) in Hlen.
  destruct (getHealthyServers p) as [|r l] eqn:E; [done|].
  assert (r ∈ getHealthyServers p) as Hr by (rewrite E; apply list_elem_of_here).
  apply getHealthyServers_elem in Hr as [_ Hr].
  pose proof (proj1 (Forall_forall _ _) Hpos r Hr) as Hr1. simpl in Hr1.
  unfold expandWeighted in Hlen. simpl in Hlen.
  destruct (Z.to_nat (objWeight (heap p) r)) eqn:En; [lia|done].
Qed.

(** C9, evaluated.  [A] has weight zero, [B] weight one, the policy is
    [WEIGHTED_ROUND_ROBIN].  While [B] is unhealthy a call finds the live
    weighted sequence empty and [A] healthy: it returns [A] and leaves
    [ROUND_ROBIN] in the algorithm field.  After [B] has recovered the
    weighted sequence is not empty, the field is still [ROUND_ROBIN], and the
    calls alternate between [B] and [A], which the weighted policy never
    selects. *)
Theorem fallback_is_permanent :
  let p1 := markServerUnhealthy 1%nat drainPool in
  let p2 := (getNextServer None zeroRnd p1).2 in
  let p3 := probeEnd 1%nat 200 "OK" p2 in
  algorithm p1 = "WEIGHTED_ROUND_ROBIN" ∧
  (getNextServer None zeroRnd p1).1 = Some 0%nat ∧
  algorithm p2 = "ROUND_ROBIN" ∧
  healthyWeighted p3 = [1%nat] ∧
  algorithm p3 = "ROUND_ROBIN" ∧
  (picks (λ _, zeroRnd) 4 p3).1 =
    [Some 1%nat; Some 0%nat; Some 1%nat; Some 0%nat] ∧
  algorithm (picks (λ _, zeroRnd) 4 p3).2 = "ROUND_ROBIN".
Proof. vm_compute. repeat split. Qed.

(** ** Releases of one request *)

(** C2, evaluated.  Two requests are in flight on [B]: its counter is two.
    One of them meets an upstream error.  The callback given to [proxy.web]
    releases and leaves the response open, so that the [close] of that
    request, with [res.writableEnded] false, releases again: the counter is
    zero while the other request is still in flight.  It is the same when the
    proxy-wide [error] handler runs with the host and port of the backend
    (it releases, and ends the response, whose [finish] releases again), and
    when both error callbacks run.  A request whose [finish] runs before its
    [close], or that the client aborts before the response ends, releases
    once.  When the other request finishes after the
    double release, the guard of [decrementConnections] keeps the counter at
    zero. *)
Theorem upstream_error_releases_twice :
  objActive (heap twoInFlightOnB) 1%nat = 2 ∧
  objActive (heap (runCallbacks 1%nat
    [ProxyWebCallback; ReqClose false] twoInFlightOnB)) 1%nat = 0 ∧
  objActive (heap (runCallbacks 1%nat
    [ProxyError (Some targetB); ResFinish; ReqClose true] twoInFlightOnB))
    1%nat = 0 ∧
  objActive (heap (runCallbacks 1%nat
    [ProxyError (Some targetB); ProxyWebCallback] twoInFlightOnB))
    1%nat = 0 ∧
  objActive (heap (runCallbacks 1%nat
    [ResFinish; ReqClose true] twoInFlightOnB)) 1%nat = 1 ∧
  objActive (heap (runCallbacks 1%nat
    [ReqClose false] twoInFlightOnB)) 1%nat = 1 ∧
  objActive (heap (runCallbacks 1%nat [ResFinish; ReqClose true]
    (runCallbacks 1%nat [ProxyWebCallback; ReqClose false] twoInFlightOnB)))
    1%nat = 0.
Proof. vm_compute. repeat split. Qed.

(** ** Unhealthy backends stay out of the rotation *)

Section rotation.
Implicit Types (p : ServerPool) (r b : ref) (i : string).

Lemma idStable_refl p : idStable p p.
Proof. by intros r Hr. Qed.

Lemma idStable_trans p q p' : idStable p q → idStable q p' → idStable p p'.
Proof.
  intros H1 H2 r Hr. destruct (H1 r Hr) as [Hq E1].
  destruct (H2 r Hq) as [Hp' E2]. split; [done|congruence].
Qed.

Lemma sameConfig_idStable p p' : sameConfig p p' → idStable p p'.
Proof.
  intros (_ & _ & _ & L & _ & H) r Hr. split; [|apply H].
  apply lookup_lt_is_Some. rewrite L. by apply lookup_lt_is_Some.
Qed.

Lemma probeEnd_heap r statusCode body p s :
  heap p !! r = Some s →
  heap (probeEnd r statusCode body p) =
    <[r := setHealthy (probeVerdict (healthCheckConfig p) statusCode body) s]>
      (heap p) ∧
  servers (probeEnd r statusCode body p) = servers p.
Proof.
  intros Hs. unfold probeEnd. rewrite Hs.
  fold (probeVerdict (healthCheckConfig p) statusCode body).
  match goal with |- context [if ?c then _ else _] => destruct c end.
  - match goal with
    | |- context [recalculateWeightsIfNeeded ?q] =>
        destruct (recalculateWeightsIfNeeded_fields q) as (-> & -> & _)
    end. done.
  - done.
Qed.

Lemma probeEnd_dangling r statusCode body p :
  heap p !! r = None → probeEnd r statusCode body p = p.
Proof. intros Hs. unfold probeEnd. by rewrite Hs. Qed.

Lemma step_idStable o p : idStable p (step o p).2.
Proof.
  destruct o as [sid rnd|i|r|r st body| |cfg]; simpl.
  - destruct (getNextServer sid rnd p) as [res p'] eqn:E. simpl.
    by eapply sameConfig_idStable, getNextServer_sameConfig.
  - apply sameConfig_idStable, counterStep_sameConfig,
      decrementConnections_counterStep.
  - apply sameConfig_idStable, healthStep_sameConfig,
      markServerUnhealthy_healthStep.
  - destruct (heap p !! r) as [s|] eqn:Hs.
    + destruct (probeEnd_heap r st body p s Hs) as [Hh _].
      intros r' Hr'. rewrite Hh. split.
      * apply lookup_lt_is_Some. rewrite length_insert.
        by apply lookup_lt_is_Some.
      * by apply objId_setHealthy.
    + rewrite probeEnd_dangling by done. apply idStable_refl.
  - intros r' Hr'. unfold sweepDone.
    by destruct (recalculateWeightsIfNeeded_fields p) as (-> & _).
  - intros r' Hr'. rewrite updateServers_heap. unfold objId.
    rewrite lookup_app_l by by apply lookup_lt_is_Some. done.
Qed.

Lemma run_idStable os p : idStable p (run os p).2.
Proof.
  revert p. induction os as [|o os IH]; intros p; [apply idStable_refl|].
  simpl. pose proof (step_idStable o p) as H1.
  destruct (step o p) as [res p1]. specialize (IH p1).
  destruct (run os p1) as [rs p2]. simpl in *.
  by eapply idStable_trans.
Qed.

(** Marking the one backend with id [i] brings [i] down. *)
Lemma markServerUnhealthy_down p b :
  poolInv p → b ∈ servers p →
  down (objId (heap p) b) (markServerUnhealthy b p).
Proof.
  intros (Hu & _ & Hi) Hb.
  destruct (idOk_lookup _ _ (proj1 (Forall_forall _ _) Hi b Hb)) as [s Hs].
  unfold down, markServerUnhealthy. rewrite Hs. simpl.
  apply Forall_forall. intros r Hr. rewrite objId_setHealthy by done.
  intros E. rewrite objHealthy_setHealthy by done.
  rewrite decide_True; [done|].
  pose proof (find_by_key (objId (heap p)) (servers p) r Hu Hr) as F1.
  pose proof (find_by_key (objId (heap p)) (servers p) b Hu Hb) as F2.
  rewrite E in F1. congruence.
Qed.

Lemma down_ext i p p' :
  servers p' = servers p →
  (∀ r, objId (heap p') r = objId (heap p) r) →
  (∀ r, objHealthy (heap p') r = objHealthy (heap p) r) →
  down i p → down i p'.
Proof.
  intros S Hid Hh Hd. unfold down in *. rewrite S.
  eapply Forall_impl; [exact Hd|]. intros r Hr. simpl in *.
  by rewrite Hid, Hh.
Qed.

Lemma counterStep_down i p p' : counterStep p p' → down i p → down i p'.
Proof.
  intros Hc. destruct (counterStep_fields _ _ Hc) as (S & _).
  apply down_ext; [done|..]; intros r.
  - by apply counterStep_objId.
  - by apply counterStep_objHealthy.
Qed.

Lemma setHealthy_down i p r s (b : bool) :
  heap p !! r = Some s →
  (objId (heap p) r = i → b = false) →
  down i p → down i (withHeap (<[r := setHealthy b s]> (heap p)) p).
Proof.
  intros Hs Hb Hd. unfold down in *. simpl.
  eapply Forall_impl; [exact Hd|]. intros r' Hr'. simpl in *.
  rewrite objId_setHealthy, objHealthy_setHealthy by done.
  intros E. destruct (decide (r' = r)) as [->|]; [by apply Hb|by apply Hr'].
Qed.

Lemma recalculateWeightsIfNeeded_down i p :
  down i p → down i (recalculateWeightsIfNeeded p).
Proof.
  unfold down. by destruct (recalculateWeightsIfNeeded_fields p) as (-> & -> & _).
Qed.

Lemma updateServers_down i cfg p :
  (i ∈ configId <$> cfg → is_Some (getServerById i p)) →
  down i p → down i (updateServers cfg p).
Proof.
  intros Hk Hd. unfold down. apply Forall_forall. intros r' Hr'.
  apply updateServers_lookup in Hr' as (c & Hc & Hl).
  unfold objId, objHealthy. rewrite Hl, updatedServer_id. intros <-.
  destruct Hk as [r0 Hr0]; [apply list_elem_of_fmap; eauto|].
  unfold getServerById in Hr0.
  pose proof (find_elem_of _ _ _ Hr0) as [Hin Heq].
  unfold updatedServer. fold (configId c). unfold existingServer.
  destruct (List.find _ (reverse (servers p))) as [r1|] eqn:F.
  - apply find_elem_of in F as [Hin1 E1%String.eqb_eq].
    rewrite elem_of_reverse in Hin1.
    pose proof (proj1 (Forall_forall _ _) Hd r1 Hin1 E1) as Hh.
    unfold objHealthy in Hh. unfold objId in E1.
    destruct (heap p !! r1) as [e|]; [done|].
    pose proof (serverId_truthy (cfgHost c) (cfgPort c)) as Ht.
    unfold configId in E1. by rewrite <- E1 in Ht.
  - exfalso. pose proof (proj1 (find_none_iff _ _) F r0) as Hn.
    rewrite elem_of_reverse in Hn. specialize (Hn Hin).
    simpl in Hn. congruence.
Qed.
End rotation.

Section rotation_run.
Implicit Types (p : ServerPool) (r b : ref) (i : string).

Lemma step_down i o p : keepsDown i p o → down i p → down i (step o p).2.
Proof.
  intros Hk Hd. destruct o as [sid rnd|j|r|r st body| |cfg]; simpl in *.
  - destruct (getNextServer sid rnd p) as [res p'] eqn:E. simpl.
    destruct (getNextServer_frame _ _ _ _ _ E) as (S & _ & _ & _ & Hid & Hh & _).
    by eapply down_ext.
  - eapply counterStep_down; [|done]. apply decrementConnections_counterStep.
  - unfold markServerUnhealthy. destruct (heap p !! r) as [s|] eqn:Hs; [|done].
    by apply setHealthy_down.
  - destruct (heap p !! r) as [s|] eqn:Hs.
    + destruct (probeEnd_heap r st body p s Hs) as [Hh S].
      eapply (down_ext i
        (withHeap (<[r := setHealthy
           (probeVerdict (healthCheckConfig p) st body) s]> (heap p)) p));
        [done|intros r'; by rewrite Hh..|].
      by apply setHealthy_down.
    + by rewrite probeEnd_dangling.
  - by apply recalculateWeightsIfNeeded_down.
  - by apply updateServers_down.
Qed.

Lemma step_not_down i o p r p' :
  weightedInSync p → down i p → step o p = (Some r, p') →
  objId (heap p) r ≠ i ∧ is_Some (heap p !! r).
Proof.
  intros Hw Hd Hs. destruct o as [sid rnd|j|r0|r0 st body| |cfg]; try done.
  simpl in Hs.
  pose proof (getNextServer_member _ _ _ _ _ Hw Hs) as Hin.
  pose proof (getNextServer_healthy _ _ _ _ _ Hs) as Hh. split.
  - intros E. rewrite (proj1 (Forall_forall _ _) Hd r Hin E) in Hh. done.
  - apply objHealthy_lookup in Hh as (s & -> & _). eauto.
Qed.

Lemma run_down i os p :
  weightedInSync p → down i p → staysDown i os p →
  Forall (λ r, objId (heap (run os p).2) r ≠ i) (run os p).1.
Proof.
  revert p. induction os as [|o os IH]; intros p Hw Hd Hs; [by constructor|].
  destruct Hs as [Hk Hs]. simpl.
  pose proof (step_weightedInSync o p Hw) as Hw1.
  pose proof (step_down i o p Hk Hd) as Hd1.
  pose proof (step_idStable o p) as Hst.
  pose proof (λ r p', step_not_down i o p r p' Hw Hd) as Hres.
  destruct (step o p) as [res p1]. simpl in *.
  specialize (IH p1 Hw1 Hd1 Hs). pose proof (run_idStable os p1) as Hst1.
  destruct (run os p1) as [rs p2]. simpl in *.
  destruct res as [r|]; [|done].
  destruct (Hres r p1 eq_refl) as [Hne Hv].
  constructor; [|done].
  destruct (Hst r Hv) as [Hv1 E1]. destruct (Hst1 r Hv1) as [_ E2]. congruence.
Qed.
End rotation_run.

(** C4. After [markServerUnhealthy] of a backend, no call of
    [getNextServer], with or without sticky id and whatever the algorithm,
    returns a backend with its id, along any run of picks, releases, probes,
    sweeps and reconfigurations in which no probe finds that backend healthy
    (and no reconfiguration adds the id back after having dropped it). *)
Theorem no_rotation_to_unhealthy (p : ServerPool) b os :
  poolInv p → b ∈ servers p →
  staysDown (objId (heap p) b) os (markServerUnhealthy b p) →
  Forall (λ r, objId (heap (run os (markServerUnhealthy b p)).2) r
               ≠ objId (heap p) b)
         (run os (markServerUnhealthy b p)).1.
Proof.
  intros Hinv Hb Hs. apply run_down; [|by apply markServerUnhealthy_down|done].
  eapply sameConfig_weightedInSync; [|apply Hinv].
  apply healthStep_sameConfig, markServerUnhealthy_healthStep.
Qed.

Lemma no_rotation_to_unhealthy_witness :
  (run runWithBDown (markServerUnhealthy 1%nat abcPool)).1
    = [0; 2; 0; 4; 4]%nat ∧
  Forall (λ r, objId (heap (run runWithBDown
                 (markServerUnhealthy 1%nat abcPool)).2) r ≠ "B:3002")
         (run runWithBDown (markServerUnhealthy 1%nat abcPool)).1.
Proof.
  split; [vm_compute; reflexivity|].
  assert (poolInv abcPool) as Hinv
    by decide_by_computation.
  assert (1%nat ∈ servers abcPool) as Hin
    by decide_by_computation.
  apply (no_rotation_to_unhealthy abcPool 1%nat runWithBDown Hinv Hin).
  repeat split;
    try (intros E; vm_compute in E; discriminate E);
    try (intros _; vm_compute; eauto).
Defined.

(** ** Weighted round robin *)

Section cycle.
Context {A : Type} `{EqDecision A}.
Implicit Types (l : list A) (b : A) (s n k : nat).

Local Open Scope nat_scope.

Lemma cycleFrom_app l s n m :
  cycleFrom l s (n + m) = cycleFrom l s n ++ cycleFrom l (s + n) m.
Proof. unfold cycleFrom. by rewrite seq_app, fmap_app. Qed.

Lemma cycleFrom_S l s n :
  cycleFrom l s (S n) = l !! (s `mod` length l) :: cycleFrom l (S s) n.
Proof. done. Qed.

Lemma cycleFrom_period l s : cycleFrom l (s + length l) 1 = cycleFrom l s 1.
Proof.
  unfold cycleFrom. simpl. destruct l as [|x l]; [done|].
  rewrite <- (Nat.mul_1_l (length (x :: l))) at 1.
  by rewrite Nat.Div0.mod_add.
Qed.

Lemma count_app b (xs ys : list (option A)) :
  length (filter (λ x, x = Some b) (xs ++ ys)) =
  length (filter (λ x, x = Some b) xs) + length (filter (λ x, x = Some b) ys).
Proof. by rewrite filter_app, length_app. Qed.

(** A full turn counts the same entries wherever it starts. *)
Lemma count_turn_shift b l s :
  length (filter (λ x, x = Some b) (cycleFrom l (S s) (length l))) =
  length (filter (λ x, x = Some b) (cycleFrom l s (length l))).
Proof.
  pose proof (cycleFrom_app l s 1 (length l)) as E1.
  pose proof (cycleFrom_app l s (length l) 1) as E2.
  rewrite cycleFrom_period in E2.
  rewrite Nat.add_comm, E1 in E2.
  apply (f_equal (λ xs, length (filter (λ x, x = Some b) xs))) in E2.
  rewrite !count_app, Nat.add_1_r in E2. lia.
Qed.

Lemma count_turn b l s :
  length (filter (λ x, x = Some b) (cycleFrom l s (length l))) =
  length (filter (λ x, x = Some b) (cycleFrom l 0 (length l))).
Proof. induction s as [|s IH]; [done|]. by rewrite count_turn_shift. Qed.

Lemma cycleFrom_turn l : cycleFrom l 0 (length l) = Some <$> l.
Proof.
  unfold cycleFrom.
  transitivity ((λ j, l !! j) <$> seq 0 (length l)).
  { apply list_fmap_ext. intros i j Hj. apply lookup_seq in Hj as [-> Hj].
    by rewrite Nat.mod_small. }
  induction l as [|x l IH]; [done|]. simpl. f_equal.
  rewrite <- fmap_S_seq, <- list_fmap_compose. exact IH.
Qed.

Lemma count_Some b l :
  length (filter (λ x, x = Some b) (Some <$> l)) = length (filter (λ x, x = b) l).
Proof.
  induction l as [|x l IH]; [done|]. rewrite fmap_cons, !filter_cons.
  destruct (decide (x = b)) as [->|Hne].
  - rewrite decide_True by done. simpl. by rewrite IH.
  - rewrite decide_False by congruence. done.
Qed.

(** [k] full turns from any start count each entry [k] times. *)
Lemma count_turns b l s k :
  length (filter (λ x, x = Some b) (cycleFrom l s (k * length l))) =
  k * length (filter (λ x, x = b) l).
Proof.
  revert s. induction k as [|k IH]; intros s; [done|].
  simpl. rewrite cycleFrom_app, count_app, IH, count_turn, cycleFrom_turn.
  by rewrite count_Some.
Qed.
End cycle.

Section wrr.
Implicit Types (p q : ServerPool) (r b : ref) (l : list ref).

Lemma switchAlgorithm_wrr rnd hs l q :
  algorithm q = "WEIGHTED_ROUND_ROBIN" → l ≠ [] → -1 ≤ currentIndex q →
  switchAlgorithm rnd hs l q =
    (l !! (Z.to_nat (currentIndex q + 1) `mod` length l)%nat,
     withCurrentIndex
       (Z.of_nat (Z.to_nat (currentIndex q + 1) `mod` length l)%nat) q).
Proof.
  intros Ha Hl Hc. unfold switchAlgorithm. rewrite Ha.
  change (String.eqb "WEIGHTED_ROUND_ROBIN" "RANDOM") with false.
  change (String.eqb "WEIGHTED_ROUND_ROBIN" "WEIGHTED_RANDOM") with false.
  change (String.eqb "WEIGHTED_ROUND_ROBIN" "WEIGHTED_ROUND_ROBIN") with true.
  cbv iota.
  assert (0 < length l)%nat as Hlen by (destruct l; [done|simpl; lia]).
  rewrite (proj2 (Nat.ltb_lt _ _) Hlen).
  assert ((currentIndex q + 1) `rem` Z.of_nat (length l) =
          Z.of_nat (Z.to_nat (currentIndex q + 1) `mod` length l)%nat) as ->.
  { rewrite Z.rem_mod_nonneg by lia.
    rewrite Nat2Z.inj_mod, Z2Nat.id by lia. done. }
  unfold jsIndex.
  rewrite (proj2 (Z.ltb_ge _ _)) by lia. by rewrite Nat2Z.id.
Qed.

(** One call under the weighted round robin: the entry after the cursor,
    around the live weighted sequence. *)
Lemma getNextServer_wrr rnd l q :
  l ≠ [] → wrrState l q →
  ∃ q', getNextServer None rnd q =
          (l !! (Z.to_nat (currentIndex q + 1) `mod` length l)%nat, q') ∧
        wrrState l q' ∧
        currentIndex q' =
          Z.of_nat (Z.to_nat (currentIndex q + 1) `mod` length l)%nat.
Proof.
  intros Hl (Ha & Hw & Hh & Hc).
  assert (0 < length l)%nat as Hlen by (destruct l; [done|simpl; lia]).
  destruct (lookup_lt_is_Some_2 l
    (Z.to_nat (currentIndex q + 1) `mod` length l)%nat) as [r Hr].
  { apply Nat.mod_upper_bound. lia. }
  unfold getNextServer.
  assert ((length (getHealthyServers q) =? 0)%nat = false) as ->
    by (destruct (getHealthyServers q); done).
  rewrite stickyTarget_None. unfold applyAlgorithm.
  assert (weightedFallback q = false) as ->.
  { unfold weightedFallback. rewrite Hw.
    destruct l; [done|]. by rewrite andb_false_r. }
  rewrite Hw. cbn [andb]. rewrite switchAlgorithm_wrr by done.
  rewrite Hr.
  eexists. split; [reflexivity|].
  set (q1 := withCurrentIndex _ q).
  pose proof (incrementConnections_counterStep (objId (heap q1) r) q1) as Hcs.
  destruct (counterStep_fields _ _ Hcs) as (S & A & C & W & _).
  split; [|by rewrite C].
  split; [by rewrite A|]. split; [|split].
  - unfold healthyWeighted. rewrite W. rewrite <- Hw.
    apply filter_healthy_ext. intros r'.
    by rewrite (counterStep_objHealthy _ _ _ Hcs).
  - unfold getHealthyServers. rewrite S.
    erewrite filter_healthy_ext; [exact Hh|].
    intros r'. by rewrite (counterStep_objHealthy _ _ _ Hcs).
  - rewrite C. simpl. lia.
Qed.

(** The calls of a run under the weighted round robin walk around the live
    weighted sequence. *)
Lemma picks_wrr l n : ∀ rnd q s,
  l ≠ [] → wrrState l q →
  (Z.to_nat (currentIndex q + 1) `mod` length l = s `mod` length l)%nat →
  (picks rnd n q).1 = cycleFrom l s n.
Proof.
  induction n as [|n IH]; intros rnd q s Hl Hq Hs; [done|].
  destruct (getNextServer_wrr (rnd O) l q Hl Hq) as (q' & E & Hq' & Hc).
  cbn [picks]. rewrite E.
  specialize (IH (λ k, rnd (S k)) q' (S s) Hl Hq').
  destruct (picks (λ k, rnd (S k)) n q') as [rs p2].
  cbn [fst] in *. rewrite cycleFrom_S, Hs. f_equal. apply IH.
  assert (∀ m : nat, Z.to_nat (Z.of_nat m + 1) = S m) as Hsucc by lia.
  rewrite Hc, Hsucc, Hs.
  rewrite <- (Nat.add_1_r s), <- (Nat.add_1_r (s `mod` length l)).
  apply Nat.Div0.add_mod_idemp_l.
Qed.
End wrr.

Section wrr_count.
Implicit Types (p : ServerPool) (r b : ref) (l : list ref) (h : list Server).

Lemma count_replicate b n r :
  length (filter (λ x, x = b) (replicate n r)) = if decide (r = b) then n else 0%nat.
Proof.
  induction n as [|n IH]; simpl; [by destruct (decide (r = b))|].
  rewrite filter_cons. destruct (decide (r = b)); simpl; by rewrite IH.
Qed.

Lemma count_expandWeighted_absent h l b :
  b ∉ l → length (filter (λ x, x = b) (expandWeighted h l)) = 0%nat.
Proof.
  intros Hb. unfold expandWeighted. induction l as [|r l IH]; [done|].
  apply not_elem_of_cons in Hb as [Hne Hb].
  simpl. rewrite filter_app, length_app, count_replicate, IH by done.
  by rewrite decide_False by done.
Qed.

(** A server occurs [weight] times in the expansion. *)
Lemma count_expandWeighted h l b :
  NoDup l → b ∈ l →
  length (filter (λ x, x = b) (expandWeighted h l)) = Z.to_nat (objWeight h b).
Proof.
  intros Hnd Hb. induction l as [|r l IH]; [by apply elem_of_nil in Hb|].
  apply NoDup_cons in Hnd as [Hr Hnd].
  change (expandWeighted h (r :: l))
    with (replicate (Z.to_nat (objWeight h r)) r ++ expandWeighted h l).
  rewrite filter_app, length_app, count_replicate.
  apply elem_of_cons in Hb as [->|Hb].
  - rewrite decide_True, count_expandWeighted_absent by done. lia.
  - rewrite decide_False by (intros ->; done). by rewrite IH.
Qed.

Lemma fold_weights h l a :
  Forall (λ r, 0 ≤ objWeight h r) l →
  fold_left (λ sum r, sum + objWeight h r) l a =
  a + Z.of_nat (length (expandWeighted h l)).
Proof.
  revert a. induction l as [|r l IH]; intros a Hpos; [simpl; lia|].
  apply Forall_cons in Hpos as [Hr Hpos].
  change (expandWeighted h (r :: l))
    with (replicate (Z.to_nat (objWeight h r)) r ++ expandWeighted h l).
  simpl. rewrite IH, length_app, length_replicate by done. lia.
Qed.

Lemma getHealthyServers_all p :
  Forall (λ r, objHealthy (heap p) r = true) (servers p) →
  getHealthyServers p = servers p.
Proof.
  unfold getHealthyServers. induction (servers p) as [|r l IH]; [done|].
  intros [Hr Hl]%Forall_cons. rewrite filter_cons, Hr, IH by done.
  by rewrite decide_True by exact I.
Qed.

(** Over [k] times the sum of the weights calls, the weighted round robin
    over a fully healthy pool returns each server [k] times its weight. *)
Lemma wrr_counts p k rnd b :
  poolInv p → algorithm p = "WEIGHTED_ROUND_ROBIN" → -1 ≤ currentIndex p →
  Forall (λ r, objHealthy (heap p) r = true ∧ 0 ≤ objWeight (heap p) r)
         (servers p) →
  b ∈ servers p →
  Z.of_nat (timesChosen b (picks rnd (k * Z.to_nat (totalWeight p)) p).1) =
  Z.of_nat k * objWeight (heap p) b.
Proof.
  intros (Hu & Hw & _) Ha Hc Hall Hb.
  apply Forall_and in Hall as [Hh Hpos].
  pose proof (getHealthyServers_all p Hh) as Ehs.
  assert (includes "WEIGHTED" (algorithm p) = true) as Hi by by rewrite Ha.
  pose proof (healthyWeighted_inSync p Hw Hi) as Ehw. rewrite Ehs in Ehw.
  set (l := expandWeighted (heap p) (servers p)) in *.
  assert (Z.to_nat (totalWeight p) = length l) as ->.
  { unfold totalWeight. rewrite Ehs, fold_weights by done. unfold l. lia. }
  assert (length (filter (λ x, x = b) l) = Z.to_nat (objWeight (heap p) b))
    as Hcount.
  { apply count_expandWeighted; [|done]. by eapply NoDup_fmap_1. }
  assert (0 ≤ objWeight (heap p) b) as Hwb
    by apply (proj1 (Forall_forall _ _) Hpos b Hb).
  destruct l as [|x l'] eqn:El.
  { rewrite Nat.mul_0_r. simpl in *. unfold timesChosen. simpl. lia. }
  rewrite <- El in *.
  assert (l ≠ []) as Hl by (by rewrite El).
  unfold timesChosen.
  rewrite (picks_wrr l _ rnd p (Z.to_nat (currentIndex p + 1))); [|done| |done].
  - rewrite count_turns, Hcount. lia.
  - split; [done|]. split; [done|]. split; [|done].
    rewrite Ehs. intros E. rewrite E in Hb. by apply elem_of_nil in Hb.
Qed.
End wrr_count.

(** C6. Under [WEIGHTED_ROUND_ROBIN], with every server healthy and no sticky
    id, [k] times the sum of the weights successive calls return each server
    [k] times its weight; ten calls on the fresh pool of [A] (5), [B] (3),
    [C] (1), [D] (1) return five [A], three [B], one [C], one [D], each
    server's calls in a row and in configured order. *)
Theorem wrr_distribution :
  (∀ (p : ServerPool) k rnd b,
     poolInv p → algorithm p = "WEIGHTED_ROUND_ROBIN" → -1 ≤ currentIndex p →
     Forall (λ r, objHealthy (heap p) r = true ∧ 0 ≤ objWeight (heap p) r)
            (servers p) →
     b ∈ servers p →
     Z.of_nat (timesChosen b (picks rnd (k * Z.to_nat (totalWeight p)) p).1) =
     Z.of_nat k * objWeight (heap p) b) ∧
  (picks (λ _, zeroRnd) 10 weightedPool).1 =
    Some <$> [0; 0; 0; 0; 0; 1; 1; 1; 2; 3]%nat.
Proof.
  split; [apply wrr_counts|]. vm_compute. reflexivity.
Qed.

Lemma wrr_distribution_witness :
  totalWeight weightedPool = 10 ∧
  Z.of_nat (timesChosen 1%nat
    (picks (λ _, zeroRnd) (2 * Z.to_nat (totalWeight weightedPool))
       weightedPool).1) = 2 * 3.
Proof.
  split; [vm_compute; reflexivity|].
  assert (poolInv weightedPool) as Hinv
    by decide_by_computation.
  assert (Forall (λ r, objHealthy (heap weightedPool) r = true ∧
                       0 ≤ objWeight (heap weightedPool) r)
                 (servers weightedPool)) as Hall
    by decide_by_computation.
  assert (1%nat ∈ servers weightedPool) as Hin
    by decide_by_computation.
  assert (-1 ≤ currentIndex weightedPool) as Hc by (vm_compute; discriminate).
  exact (proj1 wrr_distribution weightedPool 2%nat (λ _, zeroRnd) 1%nat
           Hinv eq_refl Hc Hall Hin).
Defined.

(** ** The cursor and the counters along a run *)

Section bounds.
Implicit Types (p : ServerPool) (r : ref).

Lemma rem_lower a b : 0 ≤ a → 0 ≤ a `rem` b.
Proof.
  intros Ha. destruct (decide (b = 0)) as [->|Hb].
  - by destruct a.
  - by apply Z.rem_nonneg.
Qed.

Lemma switchAlgorithm_cursor rnd hs hwl p :
  -1 ≤ currentIndex p →
  -1 ≤ currentIndex (switchAlgorithm rnd hs hwl p).2.
Proof.
  intros Hc. unfold switchAlgorithm.
  pose proof (rem_lower (currentIndex p + 1) (Z.of_nat (length hs))).
  pose proof (rem_lower (currentIndex p + 1) (Z.of_nat (length hwl))).
  repeat match goal with
         | |- context [if ?c then _ else _] => destruct c
         end; simpl; lia.
Qed.

(** The cursor never falls below its initial value. *)
Lemma getNextServer_cursor sid rnd p :
  -1 ≤ currentIndex p → -1 ≤ currentIndex (getNextServer sid rnd p).2.
Proof.
  intros Hc.
  assert (∀ i q, -1 ≤ currentIndex q →
                 -1 ≤ currentIndex (incrementConnections i q)) as Hinc.
  { intros i q Hq.
    by destruct (counterStep_fields _ _ (incrementConnections_counterStep i q))
      as (_ & _ & -> & _). }
  unfold getNextServer.
  destruct (length (getHealthyServers p) =? 0)%nat; [done|].
  destruct (stickyTarget sid p) as [r|]; [by apply Hinc|].
  unfold applyAlgorithm.
  match goal with |- context [if ?c then (None, p) else _] => destruct c end;
    [done|].
  match goal with
  | |- context [switchAlgorithm ?a ?b ?c ?d] =>
      pose proof (switchAlgorithm_cursor a b c d) as Hsw;
      destruct (switchAlgorithm a b c d) as [chosen p2]
  end.
  simpl in Hsw.
  assert (-1 ≤ currentIndex p2) as Hp2
    by (apply Hsw; by destruct (weightedFallback p)).
  match goal with
  | |- context [match ?x with Some _ => _ | None => _ end] =>
      match type of x with option ref => destruct x end
  end; simpl; [by apply Hinc|done].
Qed.

Lemma step_cursor o p :
  -1 ≤ currentIndex p → -1 ≤ currentIndex (step o p).2.
Proof.
  intros Hc. destruct o as [sid rnd|i|r|r st body| |cfg]; simpl.
  - by apply getNextServer_cursor.
  - by destruct (counterStep_fields _ _ (decrementConnections_counterStep i p))
      as (_ & _ & -> & _).
  - unfold markServerUnhealthy. by destruct (heap p !! r).
  - unfold probeEnd. destruct (heap p !! r); [|done].
    match goal with |- context [if ?c then _ else _] => destruct c end;
      [|done].
    match goal with
    | |- context [recalculateWeightsIfNeeded ?q] =>
        by destruct (recalculateWeightsIfNeeded_fields q) as (_ & _ & _ & -> & _)
    end.
  - unfold sweepDone.
    by destruct (recalculateWeightsIfNeeded_fields p) as (_ & _ & _ & -> & _).
  - by rewrite updateServers_currentIndex.
Qed.

Lemma incrementConnections_nonNeg i p :
  nonNegCounters p → nonNegCounters (incrementConnections i p).
Proof.
  intros Hn. unfold incrementConnections.
  destruct (getServerById i p) as [r|]; [|done].
  destruct (heap p !! r) as [s|] eqn:Hs; [|done].
  unfold nonNegCounters. simpl. apply Forall_insert; [done|]. simpl.
  pose proof (proj1 (Forall_lookup _ _) Hn r s Hs). simpl in *. lia.
Qed.

Lemma pickFrame_nonNeg p q : pickFrame p q → nonNegCounters p → nonNegCounters q.
Proof. intros Hq. unfold nonNegCounters. by rewrite (pickFrame_heap _ _ Hq). Qed.

Lemma setHealthy_nonNeg p r s b :
  heap p !! r = Some s → nonNegCounters p →
  nonNegCounters (withHeap (<[r := setHealthy b s]> (heap p)) p).
Proof.
  intros Hs Hn. unfold nonNegCounters. simpl. apply Forall_insert; [done|].
  exact (proj1 (Forall_lookup _ _) Hn r s Hs).
Qed.

Lemma recalculateWeightsIfNeeded_nonNeg p :
  nonNegCounters p → nonNegCounters (recalculateWeightsIfNeeded p).
Proof.
  unfold nonNegCounters.
  by destruct (recalculateWeightsIfNeeded_fields p) as (-> & _).
Qed.

Lemma existingServer_lookup i p e :
  existingServer i p = Some e → ∃ r, heap p !! r = Some e.
Proof.
  unfold existingServer.
  destruct (List.find _ (reverse (servers p))) as [r|]; [eauto|done].
Qed.

(** [activeConnections] is at least zero at all times. *)
Lemma step_nonNeg o p : nonNegCounters p → nonNegCounters (step o p).2.
Proof.
  intros Hn. destruct o as [sid rnd|i|r|r st body| |cfg]; simpl.
  - destruct (getNextServer sid rnd p) as [res p'] eqn:E. simpl.
    apply getNextServer_shape in E.
    destruct res as [r|]; [|by destruct E as [-> _]].
    destruct E as (_ & q & Hq & -> & _).
    apply incrementConnections_nonNeg. by eapply pickFrame_nonNeg.
  - by apply decrementConnections_nonNeg.
  - unfold markServerUnhealthy. destruct (heap p !! r) eqn:Hs; [|done].
    by apply setHealthy_nonNeg.
  - unfold probeEnd. destruct (heap p !! r) eqn:Hs; [|done].
    match goal with |- context [if ?c then _ else _] => destruct c end.
    + by apply recalculateWeightsIfNeeded_nonNeg, setHealthy_nonNeg.
    + by apply setHealthy_nonNeg.
  - by apply recalculateWeightsIfNeeded_nonNeg.
  - unfold nonNegCounters. rewrite updateServers_heap.
    apply Forall_app. split; [done|]. apply Forall_fmap, Forall_forall.
    intros c _. simpl. unfold updatedServer.
    destruct (existingServer _ p) as [e|] eqn:He; simpl; [|done].
    apply existingServer_lookup in He as [r0 Hr0].
    exact (proj1 (Forall_lookup _ _) Hn r0 e Hr0).
Qed.

Lemma newServerPool_bounds cfg alg hc :
  currentIndex (newServerPool cfg alg hc) = -1 ∧
  nonNegCounters (newServerPool cfg alg hc).
Proof.
  unfold newServerPool, nonNegCounters.
  destruct (includes "WEIGHTED" alg); simpl; (split; [done|]);
    apply Forall_fmap, Forall_forall; by intros c _.
Qed.
End bounds.

(** The pools a program reaches: built by the constructor from entries with
    distinct ids, then driven by any run.  Ids stay distinct, the weighted
    list stays in sync, the cursor stays at -1 or above and no counter is
    negative. *)
Lemma run_invariants os (p : ServerPool) :
  uniqueUpdates os →
  poolInv p ∧ -1 ≤ currentIndex p ∧ nonNegCounters p →
  poolInv (run os p).2 ∧ -1 ≤ currentIndex (run os p).2 ∧
  nonNegCounters (run os p).2.
Proof.
  revert p. induction os as [|o os IH]; intros p Hu (Hinv & Hc & Hn); [done|].
  apply Forall_cons in Hu as [Ho Hu]. simpl.
  pose proof (step_poolInv o p Ho Hinv) as H1.
  pose proof (step_cursor o p Hc) as H2.
  pose proof (step_nonNeg o p Hn) as H3.
  destruct (step o p) as [res p1]. specialize (IH p1 Hu).
  destruct (run os p1) as [rs p2]. simpl in *. by apply IH.
Qed.

Lemma newServerPool_invariants cfg alg hc :
  uniqueConfigIds cfg →
  poolInv (newServerPool cfg alg hc) ∧
  -1 ≤ currentIndex (newServerPool cfg alg hc) ∧
  nonNegCounters (newServerPool cfg alg hc).
Proof.
  intros Hu. split; [by apply newServerPool_poolInv|].
  destruct (newServerPool_bounds cfg alg hc) as [-> ?]. done.
Qed.

(** * Further properties of the pool *)

(** ** [_gcd] and [calculateWeights] *)

Section precomputed.
Implicit Types (p : ServerPool) (r : ref) (a b d : Z).

Lemma rem_abs_lt a b : b ≠ 0 → (Z.abs_nat (a `rem` b) < Z.abs_nat b)%nat.
Proof. intros Hb. pose proof (Z.rem_bound_abs a b Hb). lia. Qed.

(** The counter of [gcdSteps] does not matter once it exceeds the second
    argument: the recursion stops before it runs out. *)
Lemma gcdSteps_enough n : ∀ m a b,
  (Z.abs_nat b < n)%nat → (Z.abs_nat b < m)%nat →
  gcdSteps n a b = gcdSteps m a b.
Proof.
  induction n as [|n IH]; intros m a b Hn Hm; [lia|].
  destruct m as [|m]; [lia|]. simpl.
  destruct (Z.eqb_spec b 0) as [->|Hb]; [done|].
  pose proof (rem_abs_lt a b Hb). apply IH; lia.
Qed.

(** The recursion equation of the source. *)
Lemma _gcd_unfold a b :
  _gcd a b = if b =? 0 then a else _gcd b (a `rem` b).
Proof.
  unfold _gcd at 1. cbn [gcdSteps].
  destruct (Z.eqb_spec b 0) as [->|Hb]; [done|].
  pose proof (rem_abs_lt a b Hb). apply gcdSteps_enough; lia.
Qed.

Lemma gcdSteps_abs n : ∀ a b,
  (Z.abs_nat b < n)%nat → Z.abs (gcdSteps n a b) = Z.gcd a b.
Proof.
  induction n as [|n IH]; intros a b Hn; [lia|]. cbn [gcdSteps].
  destruct (Z.eqb_spec b 0) as [->|Hb]; [by rewrite Z.gcd_0_r|].
  pose proof (rem_abs_lt a b Hb).
  rewrite IH by lia. rewrite Z.gcd_comm, Z.gcd_rem by done. apply Z.gcd_comm.
Qed.

Lemma _gcd_abs a b : Z.abs (_gcd a b) = Z.gcd a b.
Proof. apply gcdSteps_abs. lia. Qed.

Lemma gcdSteps_nonneg n : ∀ a b, 0 ≤ a → 0 ≤ b → 0 ≤ gcdSteps n a b.
Proof.
  induction n as [|n IH]; intros a b Ha Hb; simpl;
    destruct (b =? 0); try done.
  apply IH; [done|]. by apply rem_lower.
Qed.

Lemma _gcd_divide a b : (_gcd a b | a) ∧ (_gcd a b | b).
Proof.
  rewrite <- !(Z.divide_abs_l (_gcd a b)), _gcd_abs.
  split; [apply Z.gcd_divide_l|apply Z.gcd_divide_r].
Qed.

Lemma _gcd_greatest a b d : (d | a) → (d | b) → (d | _gcd a b).
Proof.
  intros Ha Hb. rewrite <- Z.divide_abs_r, _gcd_abs. by apply Z.gcd_greatest.
Qed.

(** The fold of [calculateWeights] yields a greatest common divisor of its
    start value and of the weights it visits. *)
Lemma fold_gcd_divides (w : ref → Z) (l : list ref) : ∀ init,
  let g := fold_left (λ acc r, _gcd acc (w r)) l init in
  (g | init) ∧ (∀ r, r ∈ l → (g | w r)) ∧
  (∀ d, (d | init) → (∀ r, r ∈ l → (d | w r)) → (d | g)).
Proof.
  induction l as [|x l IH]; intros init; simpl.
  { split; [done|]. split; [by intros r Hr%elem_of_nil|by intros d Hd _]. }
  destruct (IH (_gcd init (w x))) as (H1 & H2 & H3).
  destruct (_gcd_divide init (w x)) as [D1 D2].
  split; [by etransitivity|]. split.
  - intros r [->|Hr]%elem_of_cons; [by etransitivity|by apply H2].
  - intros d Hd Hall. apply H3.
    + apply _gcd_greatest; [done|]. apply Hall, list_elem_of_here.
    + intros r Hr. by apply Hall, list_elem_of_further.
Qed.

Lemma fold_max_spec (xs : list Z) : ∀ x,
  let m := fold_left Z.max xs x in
  x ≤ m ∧ (∀ y, y ∈ xs → y ≤ m) ∧ (m = x ∨ m ∈ xs).
Proof.
  induction xs as [|y xs IH]; intros x; simpl.
  { split; [done|]. split; [by intros y Hy%elem_of_nil|by left]. }
  destruct (IH (Z.max x y)) as (H1 & H2 & H3).
  split; [lia|]. split.
  - intros z [->|Hz]%elem_of_cons; [lia|by apply H2].
  - destruct H3 as [H3|H3]; [|right; by apply list_elem_of_further].
    destruct (Z.max_spec x y) as [[_ E]|[_ E]]; rewrite E in H3 |- *.
    + right. rewrite H3. apply list_elem_of_here.
    + by left.
Qed.
End precomputed.

(** X1. [_gcd] follows the recursion of the source on all integers, and its
    result is, up to sign, the greatest common divisor; on arguments that are
    not negative it is the greatest common divisor. *)
Theorem gcd_correct a b :
  _gcd a b = (if b =? 0 then a else _gcd b (a `rem` b)) ∧
  Z.abs (_gcd a b) = Z.gcd a b ∧
  (0 ≤ a → 0 ≤ b → _gcd a b = Z.gcd a b).
Proof.
  split; [apply _gcd_unfold|]. split; [apply _gcd_abs|].
  intros Ha Hb. rewrite <- _gcd_abs. symmetry. apply Z.abs_eq.
  by apply gcdSteps_nonneg.
Qed.

Lemma gcd_correct_witness : _gcd 12 18 = Z.gcd 12 18.
Proof. apply (gcd_correct 12 18); lia. Defined.

(** X2. [calculateWeights] leaves the three fields as they were when no
    server is healthy.  Otherwise [gcdWeight] divides the weight of every
    healthy server and every common divisor of these weights divides it,
    [maxWeight] is the largest weight of a healthy server, and [totalWeight]
    is the sum of the weights of the healthy servers. *)
Theorem calculateWeights_spec (p : ServerPool) (w : Precomputed.t) :
  (getHealthyServers p = [] → calculateWeights p w = w) ∧
  (getHealthyServers p ≠ [] →
   let w' := calculateWeights p w in
   (∀ r, r ∈ getHealthyServers p →
         (Precomputed.gcdWeight w' | objWeight (heap p) r) ∧
         objWeight (heap p) r ≤ Precomputed.maxWeight w') ∧
   (∀ d, (∀ r, r ∈ getHealthyServers p → (d | objWeight (heap p) r)) →
         (d | Precomputed.gcdWeight w')) ∧
   (∃ r, r ∈ getHealthyServers p ∧
         objWeight (heap p) r = Precomputed.maxWeight w') ∧
   Precomputed.totalWeight w' = totalWeight p).
Proof.
  unfold calculateWeights, totalWeight. split; [by intros ->|].
  destruct (getHealthyServers p) as [|x l] eqn:E; [done|]. intros _. simpl.
  destruct (fold_gcd_divides (objWeight (heap p)) l
              (_gcd (objWeight (heap p) x) (objWeight (heap p) x)))
    as (G1 & G2 & G3).
  destruct (_gcd_divide (objWeight (heap p) x) (objWeight (heap p) x))
    as [D1 _].
  destruct (fold_max_spec (objWeight (heap p) <$> l) (objWeight (heap p) x))
    as (M1 & M2 & M3).
  split; [|split; [|split; [|done]]].
  - intros r [->|Hr]%elem_of_cons.
    + split; [by etransitivity|done].
    + split; [by apply G2|]. apply M2, list_elem_of_fmap. eauto.
  - intros d Hd. apply G3.
    + apply _gcd_greatest; apply Hd, list_elem_of_here.
    + intros r Hr. by apply Hd, list_elem_of_further.
  - destruct M3 as [M3|M3].
    + exists x. split; [apply list_elem_of_here|done].
    + apply list_elem_of_fmap in M3 as (r & Hr & Hin).
      exists r. split; [by apply list_elem_of_further|done].
Qed.

Lemma calculateWeights_spec_witness :
  calculateWeights (markServerUnhealthy 0%nat weightedPool) Precomputed.initial
    = Precomputed.mk 1 3 5 ∧
  (Precomputed.gcdWeight (calculateWeights weightedPool Precomputed.initial)
     | objWeight (heap weightedPool) 1%nat) ∧
  calculateWeights
    (markServerUnhealthy 0%nat (updateServers [] weightedPool))
    (Precomputed.mk 1 5 10) = Precomputed.mk 1 5 10.
Proof.
  split; [vm_compute; reflexivity|]. split.
  - assert (getHealthyServers weightedPool ≠ []) as Hne by (vm_compute; discriminate).
    assert (1%nat ∈ getHealthyServers weightedPool) as Hin
      by decide_by_computation.
    destruct (proj2 (calculateWeights_spec weightedPool Precomputed.initial) Hne)
      as (H & _).
    exact (proj1 (H 1%nat Hin)).
  - apply (proj1 (calculateWeights_spec _ _)). vm_compute. reflexivity.
Defined.

(** ** [getMetrics] *)

Section metrics.
Implicit Types (p : ServerPool) (r : ref).

Lemma healthy_details_count p (l : list ref) :
  length (filter (λ d, Metrics.healthy d = true)
    ((λ r, Metrics.mkDetails (objId (heap p) r) (objHealthy (heap p) r)
             (objWeight (heap p) r) (objActive (heap p) r)) <$> l)) =
  length (filter (λ r, objHealthy (heap p) r) l).
Proof.
  induction l as [|r l IH]; [done|].
  rewrite fmap_cons, !filter_cons. simpl.
  destruct (objHealthy (heap p) r) eqn:E.
  - rewrite decide_True by done. rewrite decide_True by exact I.
    simpl. by rewrite IH.
  - rewrite decide_False by done. by rewrite decide_False by (intros []).
Qed.

Lemma getNextServer_None_iff sid rnd p :
  (getNextServer sid rnd p).1 = None ↔ getHealthyServers p = [].
Proof.
  destruct (getNextServer sid rnd p) as [res p'] eqn:E.
  apply getNextServer_shape in E. simpl.
  destruct res as [r|]; [|by destruct E as [_ ->]].
  destruct E as [Hne _]. split; [done|]. intros E. by destruct Hne.
Qed.
End metrics.

(** X3. The object [getMetrics] returns is consistent: the two counts are not
    negative and add up to [totalServers], [servers] has one entry per
    configured backend, [healthyServers] is the number of entries flagged
    healthy, and it is zero exactly when [getNextServer] returns nothing,
    whatever the sticky id. *)
Theorem getMetrics_consistent (p : ServerPool) :
  let m := getMetrics p in
  Metrics.totalServers m = Metrics.healthyServers m + Metrics.unhealthyServers m ∧
  0 ≤ Metrics.healthyServers m ∧ 0 ≤ Metrics.unhealthyServers m ∧
  Z.of_nat (length (Metrics.servers m)) = Metrics.totalServers m ∧
  Z.of_nat (length (filter (λ d, Metrics.healthy d = true) (Metrics.servers m)))
    = Metrics.healthyServers m ∧
  Metrics.loadBalancingAlgorithm m = algorithm p ∧
  (∀ sid rnd, Metrics.healthyServers m = 0 ↔
              (getNextServer sid rnd p).1 = None).
Proof.
  simpl. pose proof (length_filter (λ r, objHealthy (heap p) r) (servers p)).
  fold (getHealthyServers p) in *.
  split; [lia|]. split; [lia|]. split; [lia|].
  split; [by rewrite length_fmap|].
  split; [by rewrite healthy_details_count|]. split; [done|].
  intros sid rnd. rewrite getNextServer_None_iff.
  destruct (getHealthyServers p); simpl; [done|]. split; [lia|done].
Qed.

(** ** Sweeps of the prober *)

Section sweep.
Implicit Types (p q : ServerPool) (r : ref) (o : ProbeOutcome).

Lemma healthOnly_refl p : healthOnly p p.
Proof. by repeat split. Qed.

Lemma healthOnly_trans p q p' :
  healthOnly p q → healthOnly q p' → healthOnly p p'.
Proof.
  intros (S1 & A1 & C1 & H1 & F1) (S2 & A2 & C2 & H2 & F2).
  repeat split; try congruence.
Qed.

Lemma healthOnly_objActive p q r :
  healthOnly p q → objActive (heap q) r = objActive (heap p) r.
Proof.
  intros (_ & _ & _ & _ & F). specialize (F r). unfold objActive.
  destruct (heap q !! r) as [[]|], (heap p !! r) as [[]|]; simpl in *;
    by simplify_eq.
Qed.



Lemma recalculateWeightsIfNeeded_healthOnly p :
  healthOnly p (recalculateWeightsIfNeeded p).
Proof.
  destruct (recalculateWeightsIfNeeded_fields p) as (H & S & A & C & HC).
  repeat split; try done. intros r. by rewrite H.
Qed.

Lemma setHealthy_healthOnly p r s b :
  heap p !! r = Some s →
  healthOnly p (withHeap (<[r := setHealthy b s]> (heap p)) p).
Proof.
  intros Hs. repeat split; try done. intros r'. simpl.
  destruct (lookup_insert_cases (heap p) r r' s (setHealthy b s) Hs)
    as [[-> ->]|[_ ->]]; [by rewrite Hs|done].
Qed.

(** A probe callback sets the flag of its server to the verdict of the
    outcome, and touches nothing else but the weighted list. *)
Lemma probeDone_heap r o p s :
  heap p !! r = Some s →
  heap (probeDone r o p) =
    <[r := setHealthy (outcomeVerdict (healthCheckConfig p) o) s]> (heap p) ∧
  healthOnly p (probeDone r o p).
Proof.
  intros Hs. destruct o as [st body|]; simpl.
  - split; [by apply probeEnd_heap|].
    unfold probeEnd. rewrite Hs.
    fold (probeVerdict (healthCheckConfig p) st body).
    match goal with |- context [if ?c then _ else _] => destruct c end.
    + eapply healthOnly_trans; [by apply setHealthy_healthOnly|].
      apply recalculateWeightsIfNeeded_healthOnly.
    + by apply setHealthy_healthOnly.
  - unfold probeFail, markServerUnhealthy. rewrite Hs. simpl.
    split; [done|]. by apply setHealthy_healthOnly.
Qed.

Lemma probeDone_dangling r o p : heap p !! r = None → probeDone r o p = p.
Proof.
  intros Hs. destruct o as [st body|]; simpl.
  - by apply probeEnd_dangling.
  - unfold probeFail, markServerUnhealthy. by rewrite Hs.
Qed.

Lemma probeDone_healthOnly r o p : healthOnly p (probeDone r o p).
Proof.
  destruct (heap p !! r) as [s|] eqn:Hs.
  - by destruct (probeDone_heap r o p s Hs).
  - rewrite probeDone_dangling by done. apply healthOnly_refl.
Qed.

Lemma probeDone_objHealthy r o p r' :
  is_Some (heap p !! r) →
  objHealthy (heap (probeDone r o p)) r' =
  if decide (r' = r) then outcomeVerdict (healthCheckConfig p) o
  else objHealthy (heap p) r'.
Proof.
  intros [s Hs]. destruct (probeDone_heap r o p s Hs) as [-> _].
  by apply objHealthy_setHealthy.
Qed.

Lemma probeDone_poolInv r o p : poolInv p → poolInv (probeDone r o p).
Proof.
  intros Hinv. destruct o as [st body|]; simpl.
  - by apply probeEnd_poolInv.
  - eapply sameConfig_poolInv; [|exact Hinv].
    apply healthStep_sameConfig, markServerUnhealthy_healthStep.
Qed.

Lemma healthOnly_lookup p q r :
  healthOnly p q → is_Some (heap p !! r) → is_Some (heap q !! r).
Proof.
  intros (_ & _ & _ & _ & F) [s Hs]. specialize (F r). rewrite Hs in F.
  destruct (heap q !! r); [eauto|done].
Qed.

(** The callbacks of a sweep, one per server at most: each probed server
    ends with the verdict of its outcome, the others keep their flag. *)
Lemma probes_objHealthy (arrivals : list (ref * ProbeOutcome)) : ∀ p,
  NoDup arrivals.*1 →
  (∀ r, r ∈ arrivals.*1 → is_Some (heap p !! r)) →
  let q := fold_left (λ q a, probeDone a.1 a.2 q) arrivals p in
  healthOnly p q ∧
  (∀ r o, (r, o) ∈ arrivals →
          objHealthy (heap q) r = outcomeVerdict (healthCheckConfig p) o) ∧
  (∀ r, r ∉ arrivals.*1 → objHealthy (heap q) r = objHealthy (heap p) r).
Proof.
  induction arrivals as [|[r0 o0] l IH]; intros p Hnd Hv; simpl.
  { split; [apply healthOnly_refl|]. split; [|done].
    by intros r o Hr%elem_of_nil. }
  rewrite fmap_cons in Hnd. apply NoDup_cons in Hnd as [Hr0 Hnd]. simpl in *.
  assert (is_Some (heap p !! r0)) as Hs0 by apply Hv, list_elem_of_here.
  pose proof (probeDone_healthOnly r0 o0 p) as Hh.
  destruct (IH (probeDone r0 o0 p) Hnd) as (F & H1 & H2).
  { intros r Hr. eapply healthOnly_lookup; [done|].
    by apply Hv, list_elem_of_further. }
  destruct Hh as (S0 & A0 & C0 & HC0 & F0).
  split; [|split].
  - eapply healthOnly_trans; [|exact F]. by repeat split.
  - intros r o [E|Hin]%elem_of_cons.
    + simplify_eq. rewrite H2 by done.
      rewrite probeDone_objHealthy by done. by rewrite decide_True.
    + rewrite (H1 r o Hin). by rewrite HC0.
  - intros r [Hne Hr]%not_elem_of_cons. rewrite H2 by done.
    rewrite probeDone_objHealthy by done. by rewrite decide_False.
Qed.

Lemma probes_poolInv (arrivals : list (ref * ProbeOutcome)) : ∀ p,
  poolInv p → poolInv (fold_left (λ q a, probeDone a.1 a.2 q) arrivals p).
Proof.
  induction arrivals as [|[r0 o0] l IH]; intros p Hinv; [done|].
  simpl. by apply IH, probeDone_poolInv.
Qed.


End sweep.

(** X4. After a sweep of [checkHealth] in which every server of the pool was
    probed once, the health flag of each server is the verdict of its own
    probe, in whatever order the probes ended; the sweep changes no counter,
    no id or weight, not the cursor and not the algorithm, and it keeps the
    pool well formed. *)
Theorem checkHealth_verdicts (arrivals : list (ref * ProbeOutcome))
    (p : ServerPool) :
  poolInv p → arrivals.*1 ≡ₚ servers p →
  (∀ r o, (r, o) ∈ arrivals →
          objHealthy (heap (checkHealth arrivals p)) r =
          outcomeVerdict (healthCheckConfig p) o) ∧
  healthOnly p (checkHealth arrivals p) ∧
  (∀ r, objActive (heap (checkHealth arrivals p)) r = objActive (heap p) r) ∧
  poolInv (checkHealth arrivals p).
Proof.
  intros Hinv Hperm. unfold checkHealth.
  set (q := fold_left (λ q a, probeDone a.1 a.2 q) arrivals p).
  destruct (probes_objHealthy arrivals p) as (F & H1 & _).
  { rewrite Hperm. eapply NoDup_fmap_1. apply Hinv. }
  { intros r Hr. rewrite Hperm in Hr.
    destruct Hinv as (_ & _ & Hi).
    by eapply idOk_lookup, (proj1 (Forall_forall _ _) Hi). }
  fold q in F, H1.
  assert (healthOnly p (sweepDone q)) as Hfin.
  { eapply healthOnly_trans; [exact F|].
    apply recalculateWeightsIfNeeded_healthOnly. }
  split; [|split; [done|split]].
  - intros r o Hin. unfold sweepDone.
    destruct (recalculateWeightsIfNeeded_fields q) as (-> & _). by apply H1.
  - intros r. by apply healthOnly_objActive.
  - pose proof (probes_poolInv arrivals p Hinv) as (? & _ & ?).
    by apply recalculateWeightsIfNeeded_poolInv.
Qed.

Lemma checkHealth_verdicts_witness :
  let arrivals := [(2%nat, ProbeResponse 200 "OK"); (0%nat, ProbeFailed);
                   (1%nat, ProbeResponse 500 "down")] in
  objHealthy (heap (checkHealth arrivals abcPool)) 0%nat = false ∧
  objHealthy (heap (checkHealth arrivals abcPool)) 1%nat = false ∧
  objHealthy (heap (checkHealth arrivals abcPool)) 2%nat = true.
Proof.
  intros arrivals.
  assert (poolInv abcPool) as Hinv by decide_by_computation.
  assert (arrivals.*1 ≡ₚ servers abcPool) as Hperm.
  { change (arrivals.*1) with [2; 0; 1]%nat.
    change (servers abcPool) with [0; 1; 2]%nat.
    by rewrite (Permutation_swap 0%nat 2%nat [1%nat]), (Permutation_swap 1%nat 2%nat []). }
  destruct (checkHealth_verdicts arrivals abcPool Hinv Hperm) as (H & _).
  split; [|split].
  - apply (H 0%nat ProbeFailed). decide_by_computation.
  - apply (H 1%nat (ProbeResponse 500 "down")). decide_by_computation.
  - apply (H 2%nat (ProbeResponse 200 "OK")). decide_by_computation.
Defined.



(** ** Requests in flight and the counters *)

Section in_flight.
Implicit Types (p q : ServerPool) (r : ref) (fl : list ref).

Lemma removeFirst_count r fl rest r' :
  removeFirst r fl = Some rest →
  inFlightOn r' fl = inFlightOn r' rest + (if decide (r' = r) then 1 else 0).
Proof.
  revert rest. unfold inFlightOn.
  induction fl as [|x fl IH]; intros rest; simpl; [done|].
  destruct (decide (x = r)) as [->|Hne].
  - intros [= <-]. rewrite filter_cons.
    destruct (decide (r = r')) as [->|Hne'].
    + rewrite decide_True by done. simpl. lia.
    + rewrite decide_False by done. lia.
  - destruct (removeFirst r fl) as [rest'|]; [|done]. simpl. intros [= <-].
    specialize (IH rest' eq_refl). rewrite !filter_cons.
    destruct (decide (x = r')); simpl; lia.
Qed.

Lemma removeFirst_elem_of r fl rest : removeFirst r fl = Some rest → r ∈ fl.
Proof.
  revert rest. induction fl as [|x fl IH]; intros rest; simpl; [done|].
  destruct (decide (x = r)) as [->|Hne]; [intros _; apply list_elem_of_here|].
  destruct (removeFirst r fl) as [rest'|]; [|done].
  intros _. apply list_elem_of_further. by eapply IH.
Qed.

Lemma removeFirst_subseteq r fl rest x :
  removeFirst r fl = Some rest → x ∈ rest → x ∈ fl.
Proof.
  revert rest. induction fl as [|y fl IH]; intros rest; simpl; [done|].
  destruct (decide (y = r)) as [->|Hne].
  - intros [= <-] Hx. by apply list_elem_of_further.
  - destruct (removeFirst r fl) as [rest'|]; [|done]. simpl. intros [= <-].
    intros [->|Hx]%elem_of_cons; [apply list_elem_of_here|].
    apply list_elem_of_further. by eapply IH.
Qed.

Lemma inFlightOn_pos r fl : r ∈ fl → 0 < inFlightOn r fl.
Proof.
  intros Hr. unfold inFlightOn.
  assert (r ∈ filter (λ x, x = r) fl) as Hin by by apply list_elem_of_filter.
  destruct (filter (λ x, x = r) fl); [by apply elem_of_nil in Hin|simpl; lia].
Qed.

Lemma inFlightOn_cons r x fl :
  inFlightOn r (x :: fl) = inFlightOn r fl + (if decide (r = x) then 1 else 0).
Proof.
  unfold inFlightOn. rewrite filter_cons.
  destruct (decide (x = r)) as [->|Hne].
  - rewrite decide_True by done. simpl. lia.
  - rewrite decide_False by done. lia.
Qed.

(** The release of a server with a positive counter takes one off it. *)
Lemma decrementConnections_member p r r' :
  uniqueIds p → r ∈ servers p → 0 < objActive (heap p) r →
  objActive (heap (decrementConnections (objId (heap p) r) p)) r' =
  if decide (r' = r) then objActive (heap p) r - 1 else objActive (heap p) r'.
Proof.
  intros Hu Hr Hpos. unfold decrementConnections.
  rewrite getServerById_member by done.
  unfold objActive in Hpos |- *.
  destruct (heap p !! r) as [s|] eqn:Hs; [|lia].
  rewrite (proj2 (Z.ltb_lt _ _) Hpos). simpl.
  pose proof (objActive_setActive (heap p) r s (activeConnections s - 1) r' Hs)
    as E. unfold objActive in E. rewrite E.
  case_decide; [done|]. done.
Qed.

(** While requests are served, the counter of every server is its initial
    value plus the number of requests in flight on it. *)
Lemma serve_counters es : ∀ fl p fl' p' (base : ref → Z),
  poolInv p →
  (∀ r, r ∈ fl → r ∈ servers p) →
  (∀ r, r ∈ servers p → 0 ≤ base r) →
  (∀ r, r ∈ servers p → objActive (heap p) r = base r + inFlightOn r fl) →
  serve es fl p = Some (fl', p') →
  servers p' = servers p ∧ poolInv p' ∧
  ∀ r, r ∈ servers p → objActive (heap p') r = base r + inFlightOn r fl'.
Proof.
  induction es as [|e es IH]; intros fl p fl' p' base Hinv Hfl Hbase Hcnt;
    simpl.
  { by intros [= <- <-]. }
  destruct e as [sid rnd|r|r o|].
  - destruct (getNextServer sid rnd p) as [res p1] eqn:E.
    pose proof (getNextServer_sameConfig _ _ _ _ _ E) as Hsc.
    pose proof (sameConfig_poolInv _ _ Hsc Hinv) as Hinv1.
    destruct Hsc as (S1 & _). intros Hserve.
    destruct (IH (match res with Some r => r :: fl | None => fl end)
                p1 fl' p' base Hinv1) as (S' & Hinv' & Hc');
      [..|exact Hserve|rewrite S1 in *; done]; rewrite S1.
    + destruct res as [r|]; [|done].
      intros x [->|Hx]%elem_of_cons; [|by apply Hfl].
      eapply getNextServer_member; [apply Hinv|exact E].
    + done.
    + intros x Hx. destruct res as [r|].
      * rewrite (getNextServer_counted _ _ _ _ _ Hinv E x), inFlightOn_cons.
        pose proof (getNextServer_member _ _ _ _ _ (proj1 (proj2 Hinv)) E).
        case_decide; subst; rewrite Hcnt by done; lia.
      * apply getNextServer_shape in E as [-> _]. by apply Hcnt.
  - destruct (removeFirst r fl) as [rest|] eqn:Hrm; [|done].
    pose proof (removeFirst_elem_of _ _ _ Hrm) as Hin.
    pose proof (Hfl r Hin) as Hr.
    assert (0 < objActive (heap p) r) as Hpos.
    { rewrite Hcnt by done. pose proof (Hbase r Hr).
      pose proof (inFlightOn_pos r fl Hin). lia. }
    pose proof (decrementConnections_counterStep (objId (heap p) r) p) as Hcs.
    pose proof (counterStep_sameConfig _ _ Hcs) as Hsc.
    pose proof (sameConfig_poolInv _ _ Hsc Hinv) as Hinv1.
    destruct Hsc as (S1 & _). intros Hserve.
    destruct (IH rest _ fl' p' base Hinv1) as (S' & Hinv' & Hc');
      [..|exact Hserve|rewrite S1 in *; done]; rewrite S1.
    + intros x Hx. apply Hfl. by eapply removeFirst_subseteq.
    + done.
    + intros x Hx.
      rewrite decrementConnections_member by (done || apply Hinv).
      pose proof (removeFirst_count r fl rest x Hrm) as Hc.
      case_decide; subst; rewrite Hcnt in * by done; lia.
  - pose proof (probeDone_healthOnly r o p) as Hh.
    pose proof (probeDone_poolInv r o p Hinv) as Hinv1.
    pose proof Hh as (S1 & _). intros Hserve.
    destruct (IH fl _ fl' p' base Hinv1) as (S' & Hinv' & Hc');
      [..|exact Hserve|rewrite S1 in *; done]; rewrite S1; try done.
    intros x Hx. rewrite (healthOnly_objActive _ _ _ Hh). by apply Hcnt.
  - pose proof (recalculateWeightsIfNeeded_healthOnly p) as Hh.
    assert (poolInv (sweepDone p)) as Hinv1
      by (destruct Hinv as (? & _ & ?);
          by apply recalculateWeightsIfNeeded_poolInv).
    fold (sweepDone p) in Hh. pose proof Hh as (S1 & _). intros Hserve.
    destruct (IH fl _ fl' p' base Hinv1) as (S' & Hinv' & Hc');
      [..|exact Hserve|rewrite S1 in *; done]; rewrite S1; try done.
    intros x Hx. rewrite (healthOnly_objActive _ _ _ Hh). by apply Hcnt.
Qed.
End in_flight.

(** X6. Counter conservation.  Let requests arrive and end in any order, each
    ending with one release of its target, while probes and sweeps flip
    health flags.  Then at every moment the counter of each server is its
    initial value plus the number of requests in flight on it; when no
    request is in flight the counters are back to their initial values. *)
Theorem counters_follow_requests (es : list Event) (p : ServerPool)
    inFlight p' :
  poolInv p → nonNegCounters p →
  serve es [] p = Some (inFlight, p') →
  (∀ r, r ∈ servers p →
        objActive (heap p') r = objActive (heap p) r + inFlightOn r inFlight) ∧
  (inFlight = [] →
   ∀ r, r ∈ servers p → objActive (heap p') r = objActive (heap p) r).
Proof.
  intros Hinv Hn Hserve.
  assert (∀ r, r ∈ servers p →
    objActive (heap p') r = objActive (heap p) r + inFlightOn r inFlight) as H.
  { eapply (serve_counters es [] p inFlight p' (objActive (heap p)));
      try done.
    - by intros r Hr%elem_of_nil.
    - intros r Hr. destruct Hinv as (_ & _ & Hi).
      destruct (idOk_lookup _ _ (proj1 (Forall_forall _ _) Hi r Hr)) as [s Hs].
      unfold objActive. rewrite Hs.
      exact (proj1 (Forall_lookup _ _) Hn r s Hs).
    - intros r Hr. unfold inFlightOn. simpl. lia. }
  split; [done|]. intros -> r Hr. rewrite (H r Hr). unfold inFlightOn. simpl. lia.
Qed.

Lemma counters_follow_requests_witness :
  ∃ p', serve busyMorning [] abcPool = Some ([2%nat], p') ∧
        objActive (heap p') 0%nat = 0 ∧ objActive (heap p') 1%nat = 0 ∧
        objActive (heap p') 2%nat = 1.
Proof.
  assert (poolInv abcPool) as Hinv by decide_by_computation.
  assert (nonNegCounters abcPool) as Hn by decide_by_computation.
  destruct (serve busyMorning [] abcPool) as [[fl p']|] eqn:E;
    [|vm_compute in E; discriminate].
  assert (fl = [2%nat]) as -> by (vm_compute in E; by simplify_eq).
  exists p'. split; [done|].
  destruct (counters_follow_requests busyMorning abcPool [2%nat] p' Hinv Hn E)
    as [H _].
  split; [|split].
  - rewrite (H 0%nat) by decide_by_computation. reflexivity.
  - rewrite (H 1%nat) by decide_by_computation. reflexivity.
  - rewrite (H 2%nat) by decide_by_computation. reflexivity.
Defined.

(** ** Round robin *)

Section round_robin.
Implicit Types (p q : ServerPool) (r b : ref) (l : list ref).

Lemma switchAlgorithm_rr rnd l hwl q :
  algorithm q = "ROUND_ROBIN" → l ≠ [] → -1 ≤ currentIndex q →
  switchAlgorithm rnd l hwl q =
    (l !! (Z.to_nat (currentIndex q + 1) `mod` length l)%nat,
     withCurrentIndex
       (Z.of_nat (Z.to_nat (currentIndex q + 1) `mod` length l)%nat) q).
Proof.
  intros Ha Hl Hc. unfold switchAlgorithm. rewrite Ha.
  change (String.eqb "ROUND_ROBIN" "RANDOM") with false.
  change (String.eqb "ROUND_ROBIN" "WEIGHTED_RANDOM") with false.
  change (String.eqb "ROUND_ROBIN" "WEIGHTED_ROUND_ROBIN") with false.
  cbv iota.
  assert (0 < length l)%nat as Hlen by (destruct l; [done|simpl; lia]).
  assert ((currentIndex q + 1) `rem` Z.of_nat (length l) =
          Z.of_nat (Z.to_nat (currentIndex q + 1) `mod` length l)%nat) as ->.
  { rewrite Z.rem_mod_nonneg by lia.
    rewrite Nat2Z.inj_mod, Z2Nat.id by lia. done. }
  unfold jsIndex.
  rewrite (proj2 (Z.ltb_ge _ _)) by lia. by rewrite Nat2Z.id.
Qed.

(** One call under [ROUND_ROBIN]: the healthy server after the cursor. *)
Lemma getNextServer_rr rnd l q :
  algorithm q = "ROUND_ROBIN" → getHealthyServers q = l → l ≠ [] →
  -1 ≤ currentIndex q →
  ∃ q', getNextServer None rnd q =
          (l !! (Z.to_nat (currentIndex q + 1) `mod` length l)%nat, q') ∧
        algorithm q' = "ROUND_ROBIN" ∧ getHealthyServers q' = l ∧
        currentIndex q' =
          Z.of_nat (Z.to_nat (currentIndex q + 1) `mod` length l)%nat.
Proof.
  intros Ha Hh Hl Hc.
  assert (0 < length l)%nat as Hlen by (destruct l; [done|simpl; lia]).
  destruct (lookup_lt_is_Some_2 l
    (Z.to_nat (currentIndex q + 1) `mod` length l)%nat) as [r Hr].
  { apply Nat.mod_upper_bound. lia. }
  unfold getNextServer. rewrite Hh.
  assert ((length l =? 0)%nat = false) as -> by (by destruct l).
  rewrite stickyTarget_None. unfold applyAlgorithm.
  assert (weightedFallback q = false) as ->
    by (unfold weightedFallback; by rewrite Ha).
  cbn [andb]. rewrite switchAlgorithm_rr by done. rewrite Hr.
  eexists. split; [reflexivity|].
  set (q1 := withCurrentIndex _ q).
  pose proof (incrementConnections_counterStep (objId (heap q1) r) q1) as Hcs.
  destruct (counterStep_fields _ _ Hcs) as (S & A & C & _).
  split; [by rewrite A|]. split; [|by rewrite C].
  unfold getHealthyServers. rewrite S. rewrite <- Hh.
  apply filter_healthy_ext. intros r'.
  by rewrite (counterStep_objHealthy _ _ _ Hcs).
Qed.

Lemma picks_rr l n : ∀ rnd q s,
  algorithm q = "ROUND_ROBIN" → getHealthyServers q = l → l ≠ [] →
  -1 ≤ currentIndex q →
  (Z.to_nat (currentIndex q + 1) `mod` length l = s `mod` length l)%nat →
  (picks rnd n q).1 = cycleFrom l s n.
Proof.
  induction n as [|n IH]; intros rnd q s Ha Hh Hl Hc Hs; [done|].
  destruct (getNextServer_rr (rnd O) l q Ha Hh Hl Hc) as (q' & E & Ha' & Hh' & Hc').
  cbn [picks]. rewrite E.
  specialize (IH (λ k, rnd (S k)) q' (S s) Ha' Hh' Hl).
  destruct (picks (λ k, rnd (S k)) n q') as [rs p2].
  cbn [fst] in *. rewrite cycleFrom_S, Hs. f_equal. apply IH; [lia|].
  assert (∀ m : nat, Z.to_nat (Z.of_nat m + 1) = S m) as Hsucc by lia.
  rewrite Hc', Hsucc, Hs.
  rewrite <- (Nat.add_1_r s), <- (Nat.add_1_r (s `mod` length l)).
  apply Nat.Div0.add_mod_idemp_l.
Qed.

Lemma count_NoDup b l :
  NoDup l → length (filter (λ x, x = b) l) = if decide (b ∈ l) then 1%nat else 0%nat.
Proof.
  induction 1 as [|x l Hx Hnd IH]; [done|]. rewrite filter_cons.
  destruct (decide (x = b)) as [->|Hne]; simpl.
  - rewrite IH, decide_False by done.
    by rewrite decide_True by apply list_elem_of_here.
  - rewrite IH. destruct (decide (b ∈ l)).
    + by rewrite decide_True by by apply list_elem_of_further.
    + rewrite decide_False; [done|]. by intros [->|?]%elem_of_cons.
Qed.
End round_robin.

(** X7. Under [ROUND_ROBIN], [k] times the number of healthy servers
    successive calls without sticky id return each healthy server exactly
    [k] times and no unhealthy server, from any position of the cursor; on a
    cursor at -1 the first turn returns the healthy servers in configured
    order. *)
Theorem round_robin_distribution (p : ServerPool) k rnd :
  poolInv p → algorithm p = "ROUND_ROBIN" → -1 ≤ currentIndex p →
  (∀ b, b ∈ servers p →
        timesChosen b
          (picks rnd (k * length (getHealthyServers p)) p).1 =
        if objHealthy (heap p) b then k else 0%nat) ∧
  (currentIndex p = -1 →
   (picks rnd (length (getHealthyServers p)) p).1 =
   Some <$> getHealthyServers p).
Proof.
  intros (Hu & _) Ha Hc.
  destruct (decide (getHealthyServers p = [])) as [El|Hl].
  { rewrite El. split; [|done]. intros b Hb. rewrite Nat.mul_0_r. simpl.
    destruct (objHealthy (heap p) b) eqn:Hh; [|done].
    assert (b ∈ getHealthyServers p) as Hin by by apply getHealthyServers_elem.
    rewrite El in Hin. by apply elem_of_nil in Hin. }
  set (l := getHealthyServers p) in *.
  assert (NoDup l) as Hnd.
  { unfold l, getHealthyServers. apply NoDup_filter. by eapply NoDup_fmap_1. }
  split.
  - intros b Hb. unfold timesChosen.
    rewrite (picks_rr l _ rnd p (Z.to_nat (currentIndex p + 1))) by done.
    rewrite count_turns, count_NoDup by done.
    destruct (objHealthy (heap p) b) eqn:Hh.
    + rewrite decide_True; [lia|]. by apply getHealthyServers_elem.
    + rewrite decide_False; [lia|].
      intros [Hh' _]%getHealthyServers_elem. congruence.
  - intros Hm1. rewrite (picks_rr l _ rnd p 0) by (done || by rewrite Hm1).
    apply cycleFrom_turn.
Qed.

Lemma round_robin_distribution_witness :
  timesChosen 2%nat (picks (λ _, zeroRnd) (3 * 2) abcPoolBDown).1 = 3%nat ∧
  timesChosen 1%nat (picks (λ _, zeroRnd) (3 * 2) abcPoolBDown).1 = 0%nat ∧
  (picks (λ _, zeroRnd) 3 abcPool).1 = [Some 0; Some 1; Some 2]%nat.
Proof.
  assert (poolInv abcPoolBDown) as H1 by decide_by_computation.
  assert (poolInv abcPool) as H2 by decide_by_computation.
  assert (-1 ≤ -1) as Hc by lia.
  destruct (round_robin_distribution abcPoolBDown 3 (λ _, zeroRnd) H1 eq_refl Hc)
    as [Ha _].
  destruct (round_robin_distribution abcPool 1 (λ _, zeroRnd) H2 eq_refl Hc)
    as [_ Hb].
  split; [|split].
  - apply (Ha 2%nat). decide_by_computation.
  - apply (Ha 1%nat). decide_by_computation.
  - exact (Hb eq_refl).
Defined.

(** ** The cursor after a call *)

Section cursor.
Implicit Types (p q : ServerPool) (r : ref) (hs hwl : list ref).

Lemma rem_index c (l : list ref) :
  -1 ≤ c → l ≠ [] →
  0 ≤ (c + 1) `rem` Z.of_nat (length l) < Z.of_nat (length l).
Proof.
  intros Hc Hl. apply Z.rem_bound_pos; [lia|]. destruct l; [done|simpl; lia].
Qed.

Lemma jsIndex_in_range (l : list ref) i :
  0 ≤ i < Z.of_nat (length l) →
  jsIndex l i = l !! Z.to_nat i ∧ is_Some (l !! Z.to_nat i).
Proof.
  intros Hi. unfold jsIndex. rewrite (proj2 (Z.ltb_ge _ _)) by lia.
  split; [done|]. apply lookup_lt_is_Some. lia.
Qed.

(** A round-robin case of the switch leaves the cursor on the entry it
    chose. *)
Lemma switchAlgorithm_range rnd hs hwl p :
  -1 ≤ currentIndex p → hs ≠ [] →
  algorithm p ≠ "RANDOM" → algorithm p ≠ "WEIGHTED_RANDOM" →
  (algorithm p = "WEIGHTED_ROUND_ROBIN" → hwl ≠ []) →
  let base :=
    if String.eqb (algorithm p) "WEIGHTED_ROUND_ROBIN" then hwl else hs in
  let res := switchAlgorithm rnd hs hwl p in
  0 ≤ currentIndex res.2 < Z.of_nat (length base) ∧
  res.1 = base !! Z.to_nat (currentIndex res.2) ∧ is_Some res.1 ∧
  algorithm res.2 = algorithm p ∧ heap res.2 = heap p.
Proof.
  intros Hc Hhs Hr Hwr Hwrr. unfold switchAlgorithm.
  destruct (String.eqb_spec (algorithm p) "RANDOM"); [done|].
  destruct (String.eqb_spec (algorithm p) "WEIGHTED_RANDOM"); [done|].
  destruct (String.eqb_spec (algorithm p) "WEIGHTED_ROUND_ROBIN") as [E|_].
  - specialize (Hwrr E).
    assert ((0 <? length hwl)%nat = true) as ->
      by (destruct hwl; [done|by apply Nat.ltb_lt; simpl; lia]).
    pose proof (rem_index (currentIndex p) hwl Hc Hwrr) as Hi.
    destruct (jsIndex_in_range hwl _ Hi) as [E1 E2]. simpl.
    rewrite E1. done.
  - pose proof (rem_index (currentIndex p) hs Hc Hhs) as Hi.
    destruct (jsIndex_in_range hs _ Hi) as [E1 E2]. simpl.
    rewrite E1. done.
Qed.
(** A call without sticky id on a pool with a healthy server, in one
    equation: the fallback, the switch, the defensive guard and the
    increment. *)
Lemma getNextServer_unfold rnd p :
  getHealthyServers p ≠ [] →
  let p1 := if weightedFallback p then withAlgorithm "ROUND_ROBIN" p else p in
  let sw := switchAlgorithm rnd (getHealthyServers p) (healthyWeighted p) p1 in
  let chosen :=
    match sw.1 with Some r => Some r | None => head (getHealthyServers p) end in
  getNextServer None rnd p = (chosen, afterPick chosen sw.2).
Proof.
  intros Hne. unfold getNextServer.
  assert ((length (getHealthyServers p) =? 0)%nat = false) as Hlen
    by (by destruct (getHealthyServers p)).
  rewrite Hlen, stickyTarget_None. unfold applyAlgorithm.
  rewrite Hlen, andb_false_r.
  assert ((if weightedFallback p then getHealthyServers p
           else getHealthyServers p) = getHealthyServers p) as ->
    by by destruct (weightedFallback p).
  destruct (switchAlgorithm rnd (getHealthyServers p) (healthyWeighted p)
              (if weightedFallback p then withAlgorithm "ROUND_ROBIN" p else p))
    as [chosen p2]. simpl.
  assert ((0 <? length (getHealthyServers p))%nat = true) as ->
    by (by destruct (getHealthyServers p)).
  by destruct chosen, (head (getHealthyServers p)).
Qed.

Lemma afterPick_fields res q :
  algorithm (afterPick res q) = algorithm q ∧
  currentIndex (afterPick res q) = currentIndex q.
Proof.
  destruct res as [r|]; [|done]. simpl.
  by destruct (counterStep_fields _ _
    (incrementConnections_counterStep (objId (heap q) r) q))
    as (_ & -> & -> & _).
Qed.

Lemma switchAlgorithm_algorithm rnd hs hwl p :
  algorithm (switchAlgorithm rnd hs hwl p).2 = algorithm p.
Proof.
  destruct (switchAlgorithm rnd hs hwl p) as [c q] eqn:E.
  by apply switchAlgorithm_shape in E as [[i ->] _].
Qed.
End cursor.

(** X8. After a call without sticky id that returns a server under a
    round-robin policy (the algorithm field left by the call is neither
    [RANDOM] nor [WEIGHTED_RANDOM]), the cursor is an index of the sequence
    the policy walks (the healthy weighted entries for
    [WEIGHTED_ROUND_ROBIN], the healthy servers otherwise) and the returned
    server is the entry at the cursor. *)
Theorem cursor_on_returned_server (p : ServerPool) rnd r p' :
  -1 ≤ currentIndex p →
  getNextServer None rnd p = (Some r, p') →
  algorithm p' ≠ "RANDOM" → algorithm p' ≠ "WEIGHTED_RANDOM" →
  let base :=
    if String.eqb (algorithm p') "WEIGHTED_ROUND_ROBIN"
    then healthyWeighted p else getHealthyServers p in
  0 ≤ currentIndex p' < Z.of_nat (length base) ∧
  base !! Z.to_nat (currentIndex p') = Some r.
Proof.
  intros Hc Hres.
  assert (getHealthyServers p ≠ []) as Hne.
  { intros E. apply (getNextServer_None_iff None rnd p) in E.
    by rewrite Hres in E. }
  rewrite (getNextServer_unfold rnd p Hne) in Hres.
  set (p1 := if weightedFallback p then withAlgorithm "ROUND_ROBIN" p else p)
    in *.
  set (sw := switchAlgorithm rnd (getHealthyServers p) (healthyWeighted p) p1)
    in *.
  injection Hres as Hch <-.
  destruct (afterPick_fields
    (match sw.1 with Some r => Some r | None => head (getHealthyServers p) end)
    sw.2) as [-> ->].
  unfold sw at 1 2 3. rewrite switchAlgorithm_algorithm. intros Hr Hwr.
  assert (-1 ≤ currentIndex p1) as Hc1
    by (unfold p1; by destruct (weightedFallback p)).
  assert (algorithm p1 = "WEIGHTED_ROUND_ROBIN" → healthyWeighted p ≠ [])
    as Hwrr.
  { unfold p1. destruct (weightedFallback p) eqn:Hfb; [done|].
    intros E Hnil. unfold weightedFallback in Hfb.
    by rewrite E, Hnil in Hfb. }
  destruct (switchAlgorithm_range rnd (getHealthyServers p)
    (healthyWeighted p) p1 Hc1 Hne Hr Hwr Hwrr) as (Hrange & E1 & [x Hx] & _).
  fold sw in Hrange, E1, Hx. split; [done|].
  rewrite <- E1. rewrite Hx in Hch |- *. done.
Qed.

Lemma cursor_on_returned_server_witness :
  let p' := (picks (λ _, zeroRnd) 7 weightedPool).2 in
  currentIndex p' = 6 ∧ healthyWeighted weightedPool !! 6%nat = Some 1%nat.
Proof.
  intros p'. split; [vm_compute; reflexivity|].
  assert (-1 ≤ currentIndex (picks (λ _, zeroRnd) 6 weightedPool).2) as Hc
    by (vm_compute; discriminate).
  assert (getNextServer None zeroRnd (picks (λ _, zeroRnd) 6 weightedPool).2
          = (Some 1%nat, p')) as E by (vm_compute; reflexivity).
  assert (algorithm p' ≠ "RANDOM") as H1 by (vm_compute; discriminate).
  assert (algorithm p' ≠ "WEIGHTED_RANDOM") as H2 by (vm_compute; discriminate).
  destruct (cursor_on_returned_server _ _ _ _ Hc E H1 H2) as [_ H].
  exact H.
Defined.



(** ** The random policies *)

Section random.
Implicit Types (p q : ServerPool) (r b : ref) (l : list ref).

Lemma randomIndex_bounds rnd n :
  isRandomValue rnd → (0 < n)%nat → 0 ≤ randomIndex rnd n < Z.of_nat n.
Proof.
  intros [H0 H1] Hn. unfold randomIndex.
  set (x := QArith_base.Qmult rnd (QArith_base.inject_Z (Z.of_nat n))).
  assert (QArith_base.Qlt (QArith_base.inject_Z 0)
            (QArith_base.inject_Z (Z.of_nat n))) as Hpos
    by (rewrite <- QArith_base.Zlt_Qlt; lia).
  assert (QArith_base.Qle (QArith_base.inject_Z 0) x) as Hx0.
  { unfold x. apply QArith_base.Qmult_le_0_compat; [done|].
    by apply QArith_base.Qlt_le_weak. }
  assert (QArith_base.Qlt x (QArith_base.inject_Z (Z.of_nat n))) as Hx1.
  { unfold x.
    eapply QArith_base.Qlt_le_trans;
      [apply QArith_base.Qmult_lt_compat_r; [exact Hpos|exact H1]|].
    rewrite QArith_base.Qmult_1_l. apply QArith_base.Qle_refl. }
  split.
  - apply (Qround.Qfloor_resp_le _ _ Hx0).
  - rewrite QArith_base.Zlt_Qlt.
    eapply QArith_base.Qle_lt_trans; [apply Qround.Qfloor_le|exact Hx1].
Qed.


Lemma includes_random : includes "WEIGHTED" "RANDOM" = false.
Proof. reflexivity. Qed.


Lemma switchAlgorithm_weighted_random rnd hs hwl p :
  algorithm p = "WEIGHTED_RANDOM" → hwl ≠ [] →
  switchAlgorithm rnd hs hwl p =
    (jsIndex hwl (randomIndex rnd (length hwl)), p).
Proof.
  intros Ha Hl. unfold switchAlgorithm. rewrite Ha.
  change (String.eqb "WEIGHTED_RANDOM" "RANDOM") with false.
  change (String.eqb "WEIGHTED_RANDOM" "WEIGHTED_RANDOM") with true.
  cbv iota. by destruct hwl.
Qed.

Lemma nonempty_length (l : list ref) : l ≠ [] → (0 < length l)%nat.
Proof. destruct l; [done|simpl; lia]. Qed.

(** The entry that a random policy returns for a value of [Math.random()]
    is the one at the index computed from it. *)
Lemma random_choice rnd (l : list ref) :
  isRandomValue rnd → l ≠ [] →
  ∃ r, jsIndex l (randomIndex rnd (length l)) = Some r ∧
       l !! Z.to_nat (randomIndex rnd (length l)) = Some r.
Proof.
  intros Hrnd Hl.
  pose proof (randomIndex_bounds rnd (length l) Hrnd (nonempty_length l Hl))
    as Hi.
  destruct (jsIndex_in_range l _ Hi) as [E [r Hr]]. exists r.
  by rewrite E.
Qed.

Lemma elem_of_expandWeighted_weight h l r :
  r ∈ expandWeighted h l → 1 ≤ objWeight h r.
Proof.
  unfold expandWeighted. rewrite !list_elem_of_In, in_flat_map.
  intros (x & Hx & Hr). apply list_elem_of_In in Hr.
  apply elem_of_replicate in Hr as [-> Hn]. lia.
Qed.
End random.



(** X10. Under a weighted policy whose live weighted sequence is not empty, a
    call without sticky id returns an entry of that sequence: a healthy
    server of weight at least one, never a server of weight zero or less. *)
Theorem weighted_never_weightless (p : ServerPool) rnd r p' :
  weightedInSync p → -1 ≤ currentIndex p → isRandomValue rnd →
  algorithm p = "WEIGHTED_ROUND_ROBIN" ∨ algorithm p = "WEIGHTED_RANDOM" →
  healthyWeighted p ≠ [] →
  getNextServer None rnd p = (Some r, p') →
  r ∈ healthyWeighted p ∧ 1 ≤ objWeight (heap p) r.
Proof.
  intros Hw Hc Hrnd Ha Hl Hres.
  assert (getHealthyServers p ≠ []) as Hne.
  { intros E. apply (getNextServer_None_iff None rnd p) in E.
    by rewrite Hres in E. }
  assert (includes "WEIGHTED" (algorithm p) = true) as Hi
    by (by destruct Ha as [-> | ->]).
  assert (weightedFallback p = false) as Hfb.
  { unfold weightedFallback. destruct (healthyWeighted p); [done|].
    by rewrite andb_false_r. }
  assert (r ∈ healthyWeighted p) as Hin.
  { rewrite (getNextServer_unfold rnd p Hne), Hfb in Hres.
    destruct Ha as [Ha|Ha].
    - rewrite switchAlgorithm_wrr in Hres by done. simpl in Hres.
      destruct (lookup_lt_is_Some_2 (healthyWeighted p)
        (Z.to_nat (currentIndex p + 1) `mod` length (healthyWeighted p))%nat)
        as [x Hx].
      { apply Nat.mod_upper_bound. pose proof (nonempty_length _ Hl). lia. }
      rewrite Hx in Hres. injection Hres as <- _.
      by eapply list_elem_of_lookup_2.
    - rewrite switchAlgorithm_weighted_random in Hres by done. simpl in Hres.
      destruct (random_choice rnd (healthyWeighted p) Hrnd Hl)
        as (x & E1 & E2).
      rewrite E1 in Hres. injection Hres as <- _.
      by eapply list_elem_of_lookup_2. }
  split; [done|].
  apply healthyWeighted_elem in Hin as [_ Hin]. rewrite (Hw Hi) in Hin.
  by eapply elem_of_expandWeighted_weight.
Qed.

Lemma weighted_never_weightless_witness :
  ∃ r, (getNextServer None zeroRnd drainPool).1 = Some r ∧
       1 ≤ objWeight (heap drainPool) r.
Proof.
  assert (weightedInSync drainPool) as Hw by decide_by_computation.
  assert (-1 ≤ currentIndex drainPool) as Hc by (vm_compute; discriminate).
  assert (isRandomValue zeroRnd) as Hrnd by (split; vm_compute; [discriminate|done]).
  assert (healthyWeighted drainPool ≠ []) as Hl by (vm_compute; discriminate).
  destruct (getNextServer None zeroRnd drainPool) as [[r|] p'] eqn:E;
    [|vm_compute in E; discriminate].
  exists r. split; [done|].
  exact (proj2 (weighted_never_weightless drainPool zeroRnd r p' Hw Hc Hrnd
                  (or_introl eq_refl) Hl E)).
Defined.

(** X11. With every weight at least one, no call of [getNextServer] changes
    the algorithm field: the fallback to [ROUND_ROBIN] is taken only when
    weights of zero or less leave the live weighted sequence empty. *)
Theorem algorithm_kept_with_positive_weights (p : ServerPool) sid rnd :
  weightedInSync p →
  Forall (λ r, 1 ≤ objWeight (heap p) r) (servers p) →
  algorithm (getNextServer sid rnd p).2 = algorithm p.
Proof.
  intros Hw Hpos.
  destruct (getNextServer sid rnd p) as [res p'] eqn:E.
  apply getNextServer_shape in E. simpl.
  destruct res as [r|]; [|by destruct E as [-> _]].
  destruct E as (Hne & q & (a & c & -> & Ha) & -> & _).
  destruct (counterStep_fields _ _ (incrementConnections_counterStep
    (objId (heap p) r) (withCurrentIndex c (withAlgorithm a p))))
    as (_ & -> & _). simpl.
  destruct Ha as [->|[_ Hfb]]; [done|].
  by apply weightedFallback_positive_weights in Hfb.
Qed.

Lemma algorithm_kept_with_positive_weights_witness :
  algorithm (getNextServer None zeroRnd
               (markServerUnhealthy 0%nat weightedPool)).2
  = "WEIGHTED_ROUND_ROBIN".
Proof.
  apply (algorithm_kept_with_positive_weights
           (markServerUnhealthy 0%nat weightedPool)); decide_by_computation.
Defined.



(** ** Releases after a reconfiguration *)

Section in_flight_update.
Implicit Types (p : ServerPool) (r : ref) (cfg : list ServerConfig).

Lemma updateServers_objId cfg p r' :
  r' ∈ servers (updateServers cfg p) →
  objId (heap (updateServers cfg p)) r' ∈ configId <$> cfg.
Proof.
  intros Hr'. apply updateServers_lookup in Hr' as (c & Hc & Hl).
  unfold objId. rewrite Hl, updatedServer_id.
  apply list_elem_of_fmap. eauto.
Qed.

Lemma updateServers_dropped cfg p i :
  i ∉ configId <$> cfg → getServerById i (updateServers cfg p) = None.
Proof.
  intros Hi. unfold getServerById. apply find_none_iff. intros r' Hr'.
  destruct (String.eqb_spec (objId (heap (updateServers cfg p)) r') i)
    as [E|]; [|done].
  destruct Hi. rewrite <- E. by apply updateServers_objId.
Qed.

(** A surviving backend takes over the counter of the record it replaces. *)
Lemma updateServers_objActive cfg p r r' :
  uniqueIds p → r ∈ servers p → r' ∈ servers (updateServers cfg p) →
  objId (heap (updateServers cfg p)) r' = objId (heap p) r →
  objActive (heap (updateServers cfg p)) r' = objActive (heap p) r.
Proof.
  intros Hu Hr Hr' Hid.
  apply updateServers_lookup in Hr' as (c & _ & Hc).
  unfold objId at 1 in Hid. unfold objActive at 1. rewrite Hc in Hid |- *.
  rewrite updatedServer_id in Hid.
  destruct (existingServer_member p r Hu Hr) as (e & He & Hre).
  { rewrite <- Hid. apply serverId_truthy. }
  unfold updatedServer. fold (configId c). rewrite Hid, He. simpl.
  unfold objActive. by rewrite Hre.
Qed.
End in_flight_update.

(** X13. A request in flight across a reconfiguration.  When the new list
    drops the id of its target, the later release finds no backend and leaves
    the pool as it is; when the new list keeps the id, the release takes the
    request off the counter of the backend that now carries the id, which is
    back to the value from before the request. *)
Theorem release_after_update (p : ServerPool) sid rnd r p1 cfg :
  poolInv p → nonNegCounters p → uniqueConfigIds cfg →
  getNextServer sid rnd p = (Some r, p1) →
  let i := objId (heap p) r in
  let p2 := updateServers cfg p1 in
  (i ∉ configId <$> cfg → decrementConnections i p2 = p2) ∧
  (∀ r2, r2 ∈ servers p2 → objId (heap p2) r2 = i →
         objActive (heap (decrementConnections i p2)) r2 =
         objActive (heap p) r).
Proof.
  intros Hinv Hn Hcfg Hres i p2. split.
  - intros Hi. apply decrementConnections_unknown.
    by apply updateServers_dropped.
  - intros r2 Hr2 Hid.
    pose proof (getNextServer_sameConfig _ _ _ _ _ Hres) as Hsc.
    pose proof (sameConfig_poolInv _ _ Hsc Hinv) as (Hu1 & _).
    destruct Hsc as (S1 & _ & _ & _ & _ & Hids).
    pose proof (getNextServer_member _ _ _ _ _ (proj1 (proj2 Hinv)) Hres)
      as Hr.
    pose proof (getNextServer_counted _ _ _ _ _ Hinv Hres r) as Hcnt.
    rewrite decide_True in Hcnt by done.
    assert (objId (heap p2) r2 = objId (heap p1) r) as Hid1
      by (rewrite Hid; unfold i; by destruct (Hids r) as (-> & _)).
    assert (objActive (heap p2) r2 = objActive (heap p) r + 1) as Hact.
    { rewrite <- Hcnt. apply updateServers_objActive; try done.
      by rewrite S1. }
    assert (0 ≤ objActive (heap p) r) as Hnn.
    { pose proof (getNextServer_healthy _ _ _ _ _ Hres) as Hh.
      apply objHealthy_lookup in Hh as (s & Hs & _).
      unfold objActive. rewrite Hs.
      exact (proj1 (Forall_lookup _ _) Hn r s Hs). }
    pose proof (updateServers_poolInv cfg p1 Hcfg) as (Hu2 & _).
    fold p2 in Hu2. rewrite <- Hid.
    rewrite decrementConnections_member by (done || lia).
    rewrite decide_True by done. lia.
Qed.

Lemma release_after_update_witness :
  let p1 := (getNextServer (Some "B:3002") zeroRnd abcPool).2 in
  let p1' := (getNextServer (Some "C:3003") zeroRnd abcPool).2 in
  objActive (heap (decrementConnections "B:3002" (updateServers abConfig p1)))
    4%nat = 0 ∧
  decrementConnections "C:3003" (updateServers abConfig p1')
    = updateServers abConfig p1'.
Proof.
  intros p1 p1'.
  assert (poolInv abcPool) as Hinv by decide_by_computation.
  assert (nonNegCounters abcPool) as Hn by decide_by_computation.
  assert (uniqueConfigIds abConfig) as Hcfg by decide_by_computation.
  split.
  - assert (getNextServer (Some "B:3002") zeroRnd abcPool = (Some 1%nat, p1))
      as E by (vm_compute; reflexivity).
    destruct (release_after_update abcPool _ _ _ _ abConfig Hinv Hn Hcfg E)
      as [_ H].
    apply (H 4%nat); [decide_by_computation|vm_compute; reflexivity].
  - assert (getNextServer (Some "C:3003") zeroRnd abcPool = (Some 2%nat, p1'))
      as E by (vm_compute; reflexivity).
    destruct (release_after_update abcPool _ _ _ _ abConfig Hinv Hn Hcfg E)
      as [H _].
    apply H. decide_by_computation.
Defined.

(** ** The request handler *)

Section handler.
Implicit Types (p : ServerPool) (r : ref).

Lemma getNextServer_objHealthy sid rnd p res p' r :
  getNextServer sid rnd p = (res, p') →
  objHealthy (heap p') r = objHealthy (heap p) r.
Proof.
  intros H. apply getNextServer_shape in H.
  destruct res as [b|]; [|by destruct H as [-> _]].
  destruct H as (_ & q & Hq & -> & _).
  rewrite (counterStep_objHealthy q) by apply incrementConnections_counterStep.
  by rewrite (pickFrame_heap _ _ Hq).
Qed.

Lemma requestHandler_unfold se cookie rnd p :
  requestHandler se cookie rnd p =
  let sid := if se then cookie else None in
  let res := getNextServer sid rnd p in
  match res.1 with
  | None => (Unavailable, res.2)
  | Some r =>
      let i := objId (heap res.2) r in
      (Proxied r (if se && match sid with
                           | Some c => negb (String.eqb c i)
                           | None => true
                           end
                  then Some i else None), res.2)
  end.
Proof.
  unfold requestHandler. simpl.
  by destruct (getNextServer (if se then cookie else None) rnd p) as [[r|] p'].
Qed.
End handler.

(** X14. What a request does to the pool.  The handler answers 503 exactly
    when no server is healthy, and then leaves the pool as it was; otherwise
    it proxies to a healthy member of the pool, the counter of that server
    goes up by one and no other counter moves, and with sticky sessions
    disabled it sets no cookie. *)
Theorem requestHandler_outcome (p : ServerPool) se cookie rnd :
  poolInv p →
  ((requestHandler se cookie rnd p).1 = Unavailable ↔
   getHealthyServers p = []) ∧
  match requestHandler se cookie rnd p with
  | (Unavailable, p') => p' = p
  | (Proxied r sc, p') =>
      r ∈ servers p ∧ objHealthy (heap p) r = true ∧
      (se = false → sc = None) ∧
      ∀ b, objActive (heap p') b =
           objActive (heap p) b + (if decide (b = r) then 1 else 0)
  end.
Proof.
  intros Hinv. rewrite requestHandler_unfold. simpl.
  pose proof (getNextServer_None_iff (if se then cookie else None) rnd p)
    as Hnone.
  destruct (getNextServer (if se then cookie else None) rnd p)
    as [[r|] p'] eqn:E; simpl in *.
  - split; [split; [done|]; intros H; apply Hnone in H; done|].
    split; [by eapply getNextServer_member; [apply Hinv|]|].
    split; [by eapply getNextServer_healthy|].
    split; [by intros ->|].
    intros b. rewrite (getNextServer_counted _ _ _ _ _ Hinv E b).
    destruct (decide (b = r)) as [->|]; lia.
  - split; [split; [by intros _; apply Hnone|done]|].
    by apply getNextServer_shape in E as [-> _].
Qed.

Lemma requestHandler_outcome_witness :
  (requestHandler false (Some "B:3002") zeroRnd abcPoolBDown).1 ≠ Unavailable.
Proof.
  assert (poolInv abcPoolBDown) as Hinv by decide_by_computation.
  destruct (requestHandler_outcome abcPoolBDown false (Some "B:3002") zeroRnd
              Hinv) as [H _].
  intros E. apply H in E. vm_compute in E. discriminate.
Defined.

(** X15. The sticky cookie, with sticky sessions enabled.  A proxied request
    sets a cookie exactly when the cookie it came with is not the id of the
    server it is routed to, and the cookie it sets is that id: so a request
    without cookie, or whose cookie names a backend that is down or unknown,
    is given the id of its substitute.  A later request that carries this id
    is routed to the same server and sets no cookie, for as long as the
    server is a healthy member of the pool; this holds right after the first
    request. *)
Theorem sticky_cookie_round_trip (p : ServerPool) cookie rnd r sc p1 :
  poolInv p →
  requestHandler true cookie rnd p = (Proxied r sc, p1) →
  let i := objId (heap p) r in
  sc = (if decide (cookie = Some i) then None else Some i) ∧
  (∀ p2 rnd', poolInv p2 → r ∈ servers p2 → objId (heap p2) r = i →
              objHealthy (heap p2) r = true →
              (requestHandler true (Some i) rnd' p2).1 = Proxied r None) ∧
  (∀ rnd', (requestHandler true (Some i) rnd' p1).1 = Proxied r None).
Proof.
  intros Hinv H i. rewrite requestHandler_unfold in H. simpl in H.
  destruct (getNextServer cookie rnd p) as [[r0|] p'] eqn:E; simpl in H;
    [|done].
  injection H as -> <- ->.
  pose proof (getNextServer_sameConfig _ _ _ _ _ E) as Hsc.
  assert (objId (heap p1) r = i) as Hid
    by (by destruct Hsc as (_ & _ & _ & _ & _ & Hids);
        destruct (Hids r) as (-> & _)).
  assert (∀ p2 rnd', poolInv p2 → r ∈ servers p2 → objId (heap p2) r = i →
            objHealthy (heap p2) r = true →
            (requestHandler true (Some i) rnd' p2).1 = Proxied r None) as Hrt.
  { intros p2 rnd' Hinv2 Hr2 Hid2 Hh2.
    rewrite requestHandler_unfold. simpl.
    pose proof (stickyTarget_healthy_member p2 r Hinv2 Hr2 Hh2) as Hst.
    rewrite Hid2 in Hst.
    destruct (getNextServer (Some i) rnd' p2) as [res p3] eqn:E2.
    pose proof (getNextServer_sameConfig _ _ _ _ _ E2) as Hsc2.
    apply getNextServer_shape in E2. simpl.
    destruct res as [r3|].
    - destruct E2 as (_ & q & _ & _ & [(Hst' & _)|(Hst' & _)]);
        rewrite Hst in Hst'; [|done]. injection Hst' as <-.
      destruct Hsc2 as (_ & _ & _ & _ & _ & Hids).
      destruct (Hids r) as (-> & _). by rewrite Hid2, String.eqb_refl.
    - destruct E2 as [_ E2]. exfalso.
      assert (r ∈ getHealthyServers p2) as Hin
        by (by apply getHealthyServers_elem).
      rewrite E2 in Hin. by apply elem_of_nil in Hin. }
  split; [|split; [exact Hrt|]].
  - rewrite Hid. destruct cookie as [c|].
    + destruct (String.eqb_spec c i) as [->|Hne].
      * by rewrite decide_True.
      * rewrite decide_False; [done|]. by intros [= ->].
    + by rewrite decide_False.
  - intros rnd'. apply Hrt; [by eapply sameConfig_poolInv| | done |].
    + destruct Hsc as (-> & _).
      by eapply getNextServer_member; [apply Hinv|].
    + rewrite (getNextServer_objHealthy _ _ _ _ _ r E).
      by eapply getNextServer_healthy.
Qed.

Lemma sticky_cookie_round_trip_witness :
  let first := requestHandler true (Some "B:3002") zeroRnd abcPoolBDown in
  first.1 = Proxied 0%nat (Some "A:3001") ∧
  (requestHandler true (Some "A:3001") zeroRnd first.2).1 =
  Proxied 0%nat None.
Proof.
  intros first.
  assert (poolInv abcPoolBDown) as Hinv by decide_by_computation.
  assert (first = (Proxied 0%nat (Some "A:3001"), first.2)) as E
    by (vm_compute; reflexivity).
  split; [by rewrite E|].
  destruct (sticky_cookie_round_trip abcPoolBDown _ _ _ _ _ Hinv E)
    as (_ & _ & H).
  exact (H zeroRnd).
Defined.

(** ** Reachable pools *)

(** X16. Every pool reachable from the constructor, by any sequence of
    calls, releases, probe results, sweeps, error reports and
    reconfigurations with distinct ids, is well formed: the ids of its
    servers are distinct and equal to [host:port], the weighted list of a
    weighted policy is the expansion of the servers, the cursor is at least
    [-1] and no counter of connections is negative. *)
Theorem reachable_pools_well_formed cfg alg hc (os : list PoolOp) :
  uniqueConfigIds cfg → uniqueUpdates os →
  let p := (run os (newServerPool cfg alg hc)).2 in
  poolInv p ∧ -1 ≤ currentIndex p ∧ nonNegCounters p.
Proof.
  intros Hcfg Hos p. apply run_invariants; [done|].
  by apply newServerPool_invariants.
Qed.

Lemma reachable_pools_well_formed_witness :
  poolInv (run dayOfCalls abcPool).2 ∧
  -1 ≤ currentIndex (run dayOfCalls abcPool).2 ∧
  nonNegCounters (run dayOfCalls abcPool).2.
Proof.
  apply (reachable_pools_well_formed abcConfig "ROUND_ROBIN"
           noProbeExpectation dayOfCalls).
  - decide_by_computation.
  - repeat constructor; intros cfg [= <-] || (intros cfg [=]).
    decide_by_computation.
Defined.

(** ** The health-check timer *)

Section lifecycle.
Import Lifecycle.
Implicit Types (s : Lifecycle.t) (others : list nat).

Lemma filter_other (h : nat) (l : list nat) :
  h ∉ l → filter (λ x, x ≠ h) l = l.
Proof.
  induction l as [|x l IH]; intros Hh; [done|].
  apply not_elem_of_cons in Hh as [Hx Hl].
  rewrite filter_cons_True by done. by rewrite IH.
Qed.

Lemma stopHealthChecks_wellFormed others s :
  wellFormed others s →
  wellFormed others (stopHealthChecks s) ∧
  healthCheckIntervalId (stopHealthChecks s) = None ∧
  enabled (stopHealthChecks s) = enabled s ∧
  nextHandle (stopHealthChecks s) = nextHandle s.
Proof.
  intros [Ho Hs]. unfold stopHealthChecks.
  destruct (healthCheckIntervalId s) as [h|] eqn:E.
  - destruct Hs as (Hh & Hn & Hi). repeat split; simpl; [done|].
    rewrite Hi, filter_cons_False by (intros H; by apply H).
    by apply filter_other.
  - repeat split; try done. by rewrite E.
Qed.

Lemma startHealthChecks_wellFormed others s :
  wellFormed others s →
  wellFormed others (startHealthChecks s) ∧
  healthCheckIntervalId (startHealthChecks s) = Some (nextHandle s) ∧
  enabled (startHealthChecks s) = enabled s.
Proof.
  intros [Ho Hs]. unfold startHealthChecks.
  assert (nextHandle s ∉ others) as Hfresh.
  { intros Hin. apply (proj1 (Forall_forall _ _) Ho) in Hin. lia. }
  destruct (healthCheckIntervalId s) as [h|] eqn:E; simpl.
  - destruct Hs as (Hh & Hn & Hi). rewrite ?E. repeat split; simpl.
    + eapply Forall_impl; [exact Ho|]. simpl. lia.
    + lia.
    + done.
    + rewrite Hi, filter_cons_False by (intros H; by apply H).
      by rewrite filter_other.
  - rewrite ?E. repeat split; simpl.
    + eapply Forall_impl; [exact Ho|]. simpl. lia.
    + lia.
    + done.
    + by rewrite Hs.
Qed.

Lemma updateServers_wellFormed others s :
  wellFormed others s →
  wellFormed others (updateServers s) ∧
  enabled (updateServers s) = enabled s ∧
  (is_Some (healthCheckIntervalId (updateServers s)) ↔ enabled s = true).
Proof.
  intros Hwf. unfold updateServers.
  destruct (stopHealthChecks_wellFormed others s Hwf) as (Hwf1 & Hid & He & Hn).
  rewrite He. destruct (enabled s) eqn:Een.
  - destruct (startHealthChecks_wellFormed others _ Hwf1)
      as (Hwf2 & Hid2 & He2).
    split; [done|]. split; [by rewrite He2, He|].
    rewrite Hid2. split; [done|eauto].
  - split; [done|]. split; [by rewrite He|].
    rewrite Hid. split; [by intros [? ?]|done].
Qed.

Lemma call_wellFormed others s c :
  wellFormed others s →
  wellFormed others (call s c) ∧ enabled (call s c) = enabled s.
Proof.
  intros Hwf. destruct c; simpl.
  - by destruct (startHealthChecks_wellFormed others s Hwf) as (? & _ & ?).
  - by destruct (stopHealthChecks_wellFormed others s Hwf) as (? & _ & ? & _).
  - by destruct (updateServers_wellFormed others s Hwf) as (? & ? & _).
Qed.

Lemma calls_wellFormed others cs s :
  wellFormed others s →
  wellFormed others (calls cs s) ∧ enabled (calls cs s) = enabled s.
Proof.
  revert s. induction cs as [|c cs IH]; intros s Hwf; [done|].
  simpl. destruct (call_wellFormed others s c Hwf) as [H1 H2].
  destruct (IH _ H1) as [H3 H4]. split; [done|]. by rewrite H4.
Qed.

Lemma constructor_wellFormed en others next :
  Forall (λ h, h < next)%nat others →
  wellFormed others (constructor en others next) ∧
  enabled (constructor en others next) = en.
Proof.
  intros Ho. assert (wellFormed others (mk en None others next)) as Hwf
    by done.
  unfold constructor. destruct en; [|done].
  by destruct (startHealthChecks_wellFormed others _ Hwf) as (? & _ & ?).
Qed.
End lifecycle.

(** X17. The health-check timer does not leak.  After the constructor and
    any sequence of calls of [startHealthChecks], [stopHealthChecks] and
    [updateServers], the intervals live on the platform are those of others,
    none of them cancelled, and at most one of the pool, the one whose handle
    [healthCheckIntervalId] holds.  After [stopHealthChecks] none of the
    pool is live; after [updateServers] one is live exactly when health
    checks are enabled. *)
Theorem health_timer_no_leak en (others : list nat) next
    (cs : list Lifecycle.Call) :
  Forall (λ h, h < next)%nat others →
  let s := Lifecycle.calls cs (Lifecycle.constructor en others next) in
  Lifecycle.intervals s =
    match Lifecycle.healthCheckIntervalId s with
    | Some h => h :: others
    | None => others
    end ∧
  (∀ h, Lifecycle.healthCheckIntervalId s = Some h → h ∉ others) ∧
  (∀ cs', cs = cs' ++ [Lifecycle.Stop] → Lifecycle.intervals s = others) ∧
  (∀ cs', cs = cs' ++ [Lifecycle.Update] →
          is_Some (Lifecycle.healthCheckIntervalId s) ↔ en = true).
Proof.
  intros Ho s.
  destruct (constructor_wellFormed en others next Ho) as [Hwf0 Hen0].
  destruct (calls_wellFormed others cs _ Hwf0) as [[_ Hwf] Hen].
  fold s in Hwf, Hen. split; [|split; [|split]].
  - destruct (Lifecycle.healthCheckIntervalId s); [apply Hwf|done].
  - intros h E. rewrite E in Hwf. apply Hwf.
  - intros cs' ->. unfold s, Lifecycle.calls. rewrite fold_left_app. simpl.
    destruct (calls_wellFormed others cs' _ Hwf0) as [Hwf' _].
    destruct (stopHealthChecks_wellFormed others _ Hwf')
      as ([_ Hs] & Hid & _).
    unfold Lifecycle.calls in Hs, Hid. by rewrite Hid in Hs.
  - intros cs' ->. unfold s, Lifecycle.calls. rewrite fold_left_app. simpl.
    destruct (calls_wellFormed others cs' _ Hwf0) as [Hwf' Hen'].
    unfold Lifecycle.calls in *. rewrite Hen0 in Hen'.
    destruct (updateServers_wellFormed others _ Hwf') as (_ & _ & Hiff).
    by rewrite Hiff, Hen'.
Qed.

Lemma health_timer_no_leak_witness :
  length (Lifecycle.intervals
            (Lifecycle.calls restarts
               (Lifecycle.constructor true [3%nat; 5%nat] 7)))
  = 3%nat.
Proof.
  assert (Forall (λ h, h < 7)%nat [3%nat; 5%nat]) as Ho
    by (repeat constructor; lia).
  destruct (health_timer_no_leak true [3%nat; 5%nat] 7 restarts Ho)
    as (H & _ & _ & Hup).
  rewrite H.
  destruct (proj2 (Hup [Lifecycle.Start; Lifecycle.Update; Lifecycle.Start]
                       eq_refl) eq_refl) as [h ->].
  reflexivity.
Defined.

(** ** The first revision *)

Section basic.
Implicit Types (p : ServerPool) (r : ref).

Lemma basicView_objHealthy p r :
  Basic.objHealthy (Basic.heap (basicView p)) r = objHealthy (heap p) r.
Proof.
  unfold Basic.objHealthy, objHealthy, basicView. simpl.
  rewrite list_lookup_fmap.
  change (@lookup ref) with (@lookup nat).
  by destruct (@lookup nat _ _ _ r (heap p)).
Qed.

Lemma basicView_getHealthyServers p :
  Basic.getHealthyServers (basicView p) = getHealthyServers p.
Proof.
  unfold Basic.getHealthyServers, getHealthyServers.
  apply list_filter_iff. intros r. by rewrite basicView_objHealthy.
Qed.

Lemma basicView_counterStep p p' :
  counterStep p p' → basicView p' = basicView p.
Proof.
  intros [->|(r & s & n & Hr & ->)]; [done|].
  unfold basicView. simpl. f_equal.
  rewrite list_fmap_insert. simpl. apply list_insert_id.
  by rewrite list_lookup_fmap, Hr.
Qed.

Lemma basicView_afterPick res q :
  basicView (afterPick res q) = basicView q.
Proof.
  destruct res as [r|]; [|done].
  apply basicView_counterStep, incrementConnections_counterStep.
Qed.

Lemma not_weighted a :
  includes "WEIGHTED" a = false →
  String.eqb a "WEIGHTED_RANDOM" = false ∧
  String.eqb a "WEIGHTED_ROUND_ROBIN" = false.
Proof.
  intros Hi. split.
  - destruct (String.eqb_spec a "WEIGHTED_RANDOM") as [->|]; done.
  - destruct (String.eqb_spec a "WEIGHTED_ROUND_ROBIN") as [->|]; done.
Qed.
End basic.

(** X18. The second revision extends the first.  Under a policy whose name
    does not contain [WEIGHTED], a call without sticky id returns the server
    the first revision's [getNextServer] returns on the same servers, health
    flags, policy and cursor, and leaves these as the first revision does;
    what it adds is the count of the connection.  ([-1 ≤ currentIndex] holds
    in every reachable pool.) *)
Theorem second_revision_extends_first (p : ServerPool) rnd :
  includes "WEIGHTED" (algorithm p) = false →
  -1 ≤ currentIndex p → isRandomValue rnd →
  let res := getNextServer None rnd p in
  Basic.getNextServer rnd (basicView p) = (res.1, basicView res.2).
Proof.
  intros Hi Hc Hrnd res. unfold Basic.getNextServer.
  rewrite basicView_getHealthyServers.
  destruct (decide (getHealthyServers p = [])) as [E|Hne].
  - assert (res.1 = None) as H1 by by apply getNextServer_None_iff.
    unfold res in *. destruct (getNextServer None rnd p) as [r p'] eqn:Eg.
    simpl in H1. subst r. apply getNextServer_shape in Eg as [-> _].
    by rewrite E.
  - assert ((length (getHealthyServers p) =? 0)%nat = false) as ->
      by (by destruct (getHealthyServers p)).
    unfold res. rewrite (getNextServer_unfold rnd p Hne).
    assert (weightedFallback p = false) as ->
      by (unfold weightedFallback; by rewrite Hi).
    simpl. rewrite basicView_afterPick.
    destruct (not_weighted _ Hi) as [H1 H2].
    unfold switchAlgorithm. rewrite H1, H2. simpl.
    destruct (String.eqb (algorithm p) "RANDOM"); simpl.
    + destruct (random_choice rnd _ Hrnd Hne) as (r & -> & _). done.
    + destruct (jsIndex_in_range _ _ (rem_index _ _ Hc Hne)) as [-> [r ->]].
      done.
Qed.

Lemma second_revision_extends_first_witness :
  Basic.getNextServer zeroRnd (basicView abcPoolBDown) =
  (Some 0%nat,
   basicView (getNextServer None zeroRnd abcPoolBDown).2).
Proof.
  assert (isRandomValue zeroRnd) as Hrnd by (split; vm_compute; congruence).
  exact (second_revision_extends_first abcPoolBDown zeroRnd eq_refl
           ltac:(vm_compute; congruence) Hrnd).
Defined.

(** ** The layout of the weighted sequence *)

Section layout.
Implicit Types (p : ServerPool) (r b : ref).

Lemma expandWeighted_block h (l : list ref) b :
  NoDup l → b ∈ l →
  ∃ pre post,
    expandWeighted h l =
      pre ++ replicate (Z.to_nat (objWeight h b)) b ++ post ∧
    (b ∉ pre) ∧ (b ∉ post).
Proof.
  induction l as [|r l IH]; intros Hnd Hb; [by apply elem_of_nil in Hb|].
  apply NoDup_cons in Hnd as [Hr Hnd].
  change (expandWeighted h (r :: l))
    with (replicate (Z.to_nat (objWeight h r)) r ++ expandWeighted h l).
  apply elem_of_cons in Hb as [->|Hb].
  - exists [], (expandWeighted h l). split; [done|].
    split; [apply not_elem_of_nil|].
    intros Hin. by apply elem_of_expandWeighted in Hin.
  - destruct (IH Hnd Hb) as (pre & post & E & Hpre & Hpost).
    exists (replicate (Z.to_nat (objWeight h r)) r ++ pre), post.
    split; [by rewrite E, <- app_assoc|]. split; [|done].
    rewrite elem_of_app. intros [Hin|Hin]; [|done].
    apply elem_of_replicate_inv in Hin. by subst.
Qed.
End layout.

(** X19. The sequence that the weighted policies walk.  Under a weighted
    policy the live weighted sequence holds the entries of each healthy
    server in one block, as many as its weight, with no entry of that server
    before or after the block: a weighted round-robin turn serves all the
    requests of a server in a row.  When no healthy server has a negative
    weight, the length of the sequence is the [totalWeight] that
    [calculateWeights] stores. *)
Theorem weighted_sequence_layout (p : ServerPool) :
  poolInv p → includes "WEIGHTED" (algorithm p) = true →
  (∀ b, b ∈ getHealthyServers p →
        ∃ pre post,
          healthyWeighted p =
            pre ++ replicate (Z.to_nat (objWeight (heap p) b)) b ++ post ∧
          (b ∉ pre) ∧ (b ∉ post)) ∧
  (getHealthyServers p ≠ [] →
   (∀ b, b ∈ getHealthyServers p → 0 ≤ objWeight (heap p) b) →
   ∀ w, Precomputed.totalWeight (calculateWeights p w) =
        Z.of_nat (length (healthyWeighted p))).
Proof.
  intros (Hu & Hw & _) Hi. rewrite (healthyWeighted_inSync p Hw Hi). split.
  - intros b Hb. apply expandWeighted_block; [|done].
    unfold getHealthyServers. apply NoDup_filter. by eapply NoDup_fmap_1.
  - intros Hne Hpos w. unfold calculateWeights.
    destruct (getHealthyServers p) as [|x l] eqn:E; [done|].
    cbn [Precomputed.totalWeight].
    rewrite fold_weights by (by apply Forall_forall). lia.
Qed.

Lemma weighted_sequence_layout_witness :
  Precomputed.totalWeight (calculateWeights weightedPool Precomputed.initial)
  = Z.of_nat (length (healthyWeighted weightedPool)).
Proof.
  assert (poolInv weightedPool) as Hinv by decide_by_computation.
  assert (includes "WEIGHTED" (algorithm weightedPool) = true) as Hi
    by reflexivity.
  destruct (weighted_sequence_layout weightedPool Hinv Hi) as [_ H].
  apply H.
  - vm_compute. discriminate.
  - apply Forall_forall. decide_by_computation.
Defined.

(** X20. Ids and servers.  With distinct ids, [getServerById] finds a member
    of the pool by its own id, a server it returns is a member that carries
    the id asked for, and it returns nothing exactly when no member carries
    it. *)
Theorem getServerById_round_trip (p : ServerPool) :
  uniqueIds p →
  (∀ r, r ∈ servers p → getServerById (objId (heap p) r) p = Some r) ∧
  (∀ i r, getServerById i p = Some r →
          r ∈ servers p ∧ objId (heap p) r = i) ∧
  (∀ i, getServerById i p = None ↔
        ∀ r, r ∈ servers p → objId (heap p) r ≠ i).
Proof.
  intros Hu. split; [|split].
  - intros r Hr. by apply (find_by_key (objId (heap p))).
  - intros i r H. apply find_elem_of in H as [Hr E].
    split; [done|]. by apply String.eqb_eq.
  - intros i. unfold getServerById. rewrite find_none_iff.
    split; intros H r Hr.
    + intros E. specialize (H r Hr). rewrite E, String.eqb_refl in H. done.
    + destruct (String.eqb_spec (objId (heap p) r) i); [|done].
      by destruct (H r Hr).
Qed.

Lemma getServerById_round_trip_witness :
  getServerById "B:3002" abcPool = Some 1%nat.
Proof.
  assert (uniqueIds abcPool) as Hu by decide_by_computation.
  destruct (getServerById_round_trip abcPool Hu) as [H _].
  apply (H 1%nat). decide_by_computation.
Defined.
